(** * SonioxSRT: the subtitle engine of [ts/src/subtitles.ts]

    A shallow embedding of the segmentation and readability engine
    (word assembly, segmentation, split/merge enforcement, line wrapping,
    cue rendering and the [srt] entry point), followed by the properties
    stated about it.

    Conventions of the embedding.
    - A JavaScript string is the list of its UTF-16 code units ([jsstring]).
      Every character the engine tests for (the punctuation sets, the CJK
      ranges, white space) lies in the Basic Multilingual Plane and outside
      the surrogate range, so iterating by code point ([for ... of],
      spread) and by code unit ([length], [slice], [at]) agree on all the
      tests made below.
    - Millisecond values and character counts are integers ([Z]).  The
      reading speed is a quotient, which the code computes and compares in
      IEEE 754 double precision; so does the embedding ([Double]).
    - [undefined]/[null] fields are [option]s; a thrown exception, an
      exhausted iteration budget and an input outside the typed interface
      are constructors of [outcome]. *)

From Stdlib Require Import String Ascii.
From Stdlib Require Import List ZArith NArith Lia Bool Arith QArith Qround Sorted.
From Stdlib Require Floats.SpecFloat.
Import ListNotations.

Local Open Scope Z_scope.

(** ** Strings as UTF-16 code units *)

Module JS.

Definition char := N.
Definition jsstring := list char.

Definition char_eqb (a b : char) : bool := N.eqb a b.

Fixpoint str_eqb (a b : jsstring) : bool :=
  match a, b with
  | [], [] => true
  | x :: a', y :: b' => char_eqb x y && str_eqb a' b'
  | _, _ => false
  end.

(** ASCII literals of the source, as code units. *)
Fixpoint lit (s : String.string) : jsstring :=
  match s with
  | String.EmptyString => []
  | String.String c s' => N_of_ascii c :: lit s'
  end.
Arguments lit s%_string.

Definition SPACE : char := 32%N.
Definition ELLIPSIS : char := 0x2026%N.
Definition NEWLINE : char := 10%N.

(** White space as [String.prototype.trim] and the regular expression
    class [\s] see it: ECMAScript WhiteSpace plus LineTerminator. *)
Definition isWhite (c : char) : bool :=
  existsb (N.eqb c)
    [0x09; 0x0A; 0x0B; 0x0C; 0x0D; 0x20; 0xA0; 0x1680;
     0x2000; 0x2001; 0x2002; 0x2003; 0x2004; 0x2005; 0x2006; 0x2007;
     0x2008; 0x2009; 0x200A; 0x2028; 0x2029; 0x202F; 0x205F; 0x3000;
     0xFEFF]%N.

Fixpoint trimStart (s : jsstring) : jsstring :=
  match s with
  | [] => []
  | c :: s' => if isWhite c then trimStart s' else s
  end.

Definition trimEnd (s : jsstring) : jsstring := rev (trimStart (rev s)).

Definition trim (s : jsstring) : jsstring := trimEnd (trimStart s).

(** [s.startsWith(" ")] and [s.endsWith(" ")]. *)
Definition startsWithSpace (s : jsstring) : bool :=
  match s with
  | c :: _ => char_eqb c SPACE
  | [] => false
  end.

(** [s.slice(-1)] / [s.at(-1)]: the last code unit, if any. *)
Definition lastChar (s : jsstring) : option char :=
  match rev s with
  | c :: _ => Some c
  | [] => None
  end.

Definition endsWithSpace (s : jsstring) : bool :=
  match lastChar s with
  | Some c => char_eqb c SPACE
  | None => false
  end.

(** [parts.join("")]. *)
Definition join (parts : list jsstring) : jsstring := concat parts.

(** [s.includes(" ")]. *)
Definition includesSpace (s : jsstring) : bool := existsb (char_eqb SPACE) s.

End JS.
Import JS.

(** ** Character classes *)

Definition SENTENCE_ENDERS : list char :=
  [0x3002; 0xFF61; 0x2E; 0xFF0E; 0xFF01; 0x21; 0xFF1F; 0x3F]%N.

Definition MINOR_BREAKERS : list char :=
  [0x2C; 0xFF0C; 0x3B; 0xFF1B; 0x3A; 0xFF1A; 0x3001; 0x2014; 0x2013;
   0x2D; 0xFF65]%N.

Definition PUNCT : list char :=
  [0x2E; 0x2C; 0x21; 0x3F; 0x3B; 0x3A; 0x2013; 0x2014; 0x2D; 0x2026;
   0xFF0C; 0xFF1B; 0xFF1A; 0xFF61; 0xFF0E; 0xFF65]%N.

Definition has (set : list char) (c : char) : bool := existsb (char_eqb c) set.

(** [SET.has(s.slice(-1))]: false on the empty string. *)
Definition lastIn (set : list char) (s : jsstring) : bool :=
  match lastChar s with
  | Some c => has set c
  | None => false
  end.

(** ** Double-precision numbers *)

(** A JavaScript number that is not known to be an integer: an IEEE 754
    binary64 value, with the operations of the standard (round to nearest,
    ties to even). *)
Module Double.

Definition t : Set := SpecFloat.spec_float.

Definition prec : Z := 53.
Definition emax : Z := 1024.

(** The double nearest to an integer; the integer itself below [2^53]. *)
Definition ofZ (z : Z) : t := SpecFloat.binary_normalize prec emax z 0 false.

(** [x / y]. *)
Definition div (x y : t) : t := SpecFloat.SFdiv prec emax x y.

(** [x > y]; false when either is [NaN]. *)
Definition gt (x y : t) : bool := SpecFloat.SFltb y x.

End Double.

Definition DEFAULT_GAP_MS : Z := 1200.
Definition DEFAULT_MIN_DUR_MS : Z := 1000.
Definition DEFAULT_MAX_DUR_MS : Z := 7000.
Definition DEFAULT_MAX_CPS : Double.t := Double.ofZ 17.

Record SubtitleConfig := {
  gap_ms : Z;
  min_dur_ms : Z;
  max_dur_ms : Z;
  max_cps : Double.t;
  max_cpl : Z;
  max_lines : Z;
  line_split_delimiters : list jsstring;
  segment_on_sentence : bool;
  split_on_speaker : bool;
  ellipses : bool
}.

(** [new SubtitleConfig()] with no option given. *)
Definition defaultConfig : SubtitleConfig :=
  {| gap_ms := DEFAULT_GAP_MS;
     min_dur_ms := DEFAULT_MIN_DUR_MS;
     max_dur_ms := DEFAULT_MAX_DUR_MS;
     max_cps := DEFAULT_MAX_CPS;
     max_cpl := 42;
     max_lines := 2;
     line_split_delimiters := [];
     segment_on_sentence := false;
     split_on_speaker := false;
     ellipses := false |}.

Definition isCjkCode (code : char) : bool :=
  ((0x3040 <=? code) && (code <=? 0x30ff) ||
   (0x3400 <=? code) && (code <=? 0x4dbf) ||
   (0x4e00 <=? code) && (code <=? 0x9fff) ||
   (0xf900 <=? code) && (code <=? 0xfaff))%N.

Definition containsCjk (text : jsstring) : bool := existsb isCjkCode text.

Definition isSentenceBreak (text : jsstring) : bool :=
  match text with
  | [c] => has SENTENCE_ENDERS c
  | _ => false
  end.

(** ** Tokens and words *)

(** The [speaker] property: [undefined], [null] or a string. *)
Inductive Speaker :=
| SpkUndefined
| SpkNull
| SpkName (name : jsstring).

Definition speaker_eqb (a b : Speaker) : bool :=
  match a, b with
  | SpkUndefined, SpkUndefined => true
  | SpkNull, SpkNull => true
  | SpkName x, SpkName y => str_eqb x y
  | _, _ => false
  end.

(** A recognition token.  [t_prefix_space] is the [_prefix_space]
    property that [tokensToWords] sets on the token object itself
    (it casts the token to [WordToken]); it is [false] when absent. *)
Record Token := {
  t_text : option jsstring;
  t_start_ms : option Z;
  t_end_ms : option Z;
  t_speaker : Speaker;
  t_prefix_space : bool
}.

Record WordToken := {
  w_text : jsstring;
  w_start_ms : Z;
  w_end_ms : Z;
  w_speaker : Speaker;
  w_inner : list Token;
  w_prefix_space : bool
}.

Definition set_prefix_space (t : Token) : Token :=
  {| t_text := t_text t; t_start_ms := t_start_ms t; t_end_ms := t_end_ms t;
     t_speaker := t_speaker t; t_prefix_space := true |}.

Definition set_w_text (w : WordToken) (s : jsstring) : WordToken :=
  {| w_text := s; w_start_ms := w_start_ms w; w_end_ms := w_end_ms w;
     w_speaker := w_speaker w; w_inner := w_inner w;
     w_prefix_space := w_prefix_space w |}.

(** [l.length > 0]. *)
Definition nonEmpty {A} (l : list A) : bool :=
  match l with [] => false | _ :: _ => true end.

(** [a ?? b] on an optional value. *)
Definition orElse {A} (a : option A) (b : A) : A :=
  match a with Some x => x | None => b end.

Definition rawTextOf (t : Token) : jsstring := orElse (t_text t) [].

(** [tokens.map(t => t.text ?? "").join("").trim()] on words. *)
Definition concatText (tokens : list WordToken) : jsstring :=
  trim (join (map w_text tokens)).

(** ** Word assembler: [tokensToWords] *)

Module Words.

(** The mutable locals of [tokensToWords]. *)
Record state := {
  words : list WordToken;
  currentTokens : list Token;
  currentText : list jsstring;
  currentStart : option Z;
  currentEnd : option Z
}.

Definition init : state :=
  {| words := []; currentTokens := []; currentText := [];
     currentStart := None; currentEnd := None |}.

Definition flush (st : state) : state :=
  match currentTokens st with
  | [] => st
  | first :: _ =>
      let prefixSpace := t_prefix_space first in
      let text := (if prefixSpace then [SPACE] else []) ++ join (currentText st) in
      {| words := words st ++
           [ {| w_text := text;
                w_start_ms := orElse (currentStart st) 0;
                w_end_ms := orElse (currentEnd st) (orElse (currentStart st) 0);
                w_speaker := SpkUndefined;
                w_inner := currentTokens st;
                w_prefix_space := prefixSpace |} ];
         currentTokens := []; currentText := [];
         currentStart := None; currentEnd := None |}
  end.

Definition addToCurrent (token : Token) (textPart : jsstring)
    (prefixSpace : bool) (st : state) : state :=
  let token' := if prefixSpace then set_prefix_space token else token in
  {| words := words st;
     currentTokens := currentTokens st ++ [token'];
     currentText := currentText st ++ [textPart];
     currentStart :=
       match t_start_ms token with
       | Some tokenStart =>
           Some (match currentStart st with
                 | None => tokenStart
                 | Some cs => Z.min cs tokenStart
                 end)
       | None => currentStart st
       end;
     currentEnd :=
       match t_end_ms token with
       | Some tokenEnd =>
           Some (match currentEnd st with
                 | None => tokenEnd
                 | Some ce => Z.max ce tokenEnd
                 end)
       | None => currentEnd st
       end |}.

(** The test that closes a word right after a token was appended. *)
Definition closesWord (clean : jsstring) : bool :=
  (0 <? length clean)%nat &&
  (lastIn SENTENCE_ENDERS clean || lastIn MINOR_BREAKERS clean ||
   (containsCjk clean && (length clean =? 1)%nat)).

(** One iteration of the [for (const token of tokens)] loop. *)
Definition step (st : state) (token : Token) : state :=
  let rawText := rawTextOf token in
  match rawText with
  | [] => st
  | c0 :: _ =>
      let startsSpace := isWhite c0 in
      let clean := trimStart rawText in
      let isPunct := (0 <? length clean)%nat && forallb (has PUNCT) clean in
      let st1 :=
        if startsSpace then addToCurrent token clean true (flush st)
        else
          match currentTokens st with
          | _ :: _ =>
              if isPunct then addToCurrent token clean false st
              else if containsCjk clean && containsCjk (join (currentText st))
              then addToCurrent token clean false (flush st)
              else addToCurrent token clean false st
          | [] => addToCurrent token clean false st
          end in
      if closesWord clean then flush st1 else st1
  end.

Definition run (tokens : list Token) : state :=
  flush (fold_left step tokens init).

End Words.

Definition tokensToWords (tokens : list Token) : list WordToken :=
  match Words.words (Words.run tokens) with
  | w0 :: rest =>
      if startsWithSpace (w_text w0)
      then set_w_text w0 (trimStart (w_text w0)) :: rest
      else w0 :: rest
  | [] => []
  end.

(** ** Segmenter: [buildSegments] *)

Record SubtitleSegment := {
  seg_start : Z;
  seg_end : Z;
  seg_speaker : Speaker;
  seg_tokens : option (list WordToken);
  seg_text : option jsstring;
  sentence_break : bool;
  prefix_ellipsis : bool;
  suffix_ellipsis : bool
}.

Definition safeBoundary (prevText nextText : jsstring) : bool :=
  match nextText with
  | [] => true
  | _ =>
      if startsWithSpace nextText then true
      else endsWithSpace prevText || lastIn SENTENCE_ENDERS prevText
           || lastIn MINOR_BREAKERS prevText
  end.

Definition endsWithSentenceBreak (text : jsstring) : bool :=
  match text with
  | [] => false
  | _ => lastIn SENTENCE_ENDERS (trim text)
  end.

(** First value that is neither [undefined], [null] nor the empty string. *)
Fixpoint firstNonEmpty (values : list Speaker) : Speaker :=
  match values with
  | [] => SpkUndefined
  | SpkName (c :: s) :: _ => SpkName (c :: s)
  | _ :: rest => firstNonEmpty rest
  end.

(** [a ?? null] on a speaker. *)
Definition orNull (a : Speaker) : Speaker :=
  match a with
  | SpkUndefined => SpkNull
  | _ => a
  end.

(** [Math.max(...values)] of a non-empty array, [dflt] on an empty one. *)
Definition maxOf (values : list Z) (dflt : Z) : Z :=
  match values with
  | [] => dflt
  | v :: rest => fold_left Z.max rest v
  end.

Module Build.

(** The mutable locals of [buildSegments].  [WordToken] declares [start_ms]
    and [end_ms] as numbers, so the [undefined] tests the source makes on a
    word's own timing always succeed and are not represented. *)
Record state := {
  segments : list SubtitleSegment;
  current : list WordToken;
  currentStart : option Z;
  lastTokenEnd : option Z;
  currentSpeaker : Speaker
}.

Definition init : state :=
  {| segments := []; current := []; currentStart := None;
     lastTokenEnd := None; currentSpeaker := SpkUndefined |}.

Definition reset (segs : list SubtitleSegment) : state :=
  {| segments := segs; current := []; currentStart := None;
     lastTokenEnd := None; currentSpeaker := SpkUndefined |}.

Definition closeSegment (sentenceBreak : bool) (st : state) : state :=
  match current st with
  | [] => st
  | _ :: _ =>
      match concatText (current st) with
      | [] => reset (segments st)
      | _ :: _ =>
          let start := orElse (currentStart st) 0 in
          let endCandidates := map w_end_ms (current st) in
          let end_ := maxOf endCandidates start in
          let speaker := firstNonEmpty (map w_speaker (current st)) in
          reset (segments st ++
                 [ {| seg_start := start; seg_end := end_;
                      seg_speaker := orNull speaker;
                      seg_tokens := Some (current st);
                      seg_text := None;
                      sentence_break := sentenceBreak;
                      prefix_ellipsis := false;
                      suffix_ellipsis := false |} ])
      end
  end.

Definition isUndefined (s : Speaker) : bool :=
  match s with SpkUndefined => true | _ => false end.

(** The speaker rule: close when the word carries another speaker. *)
Definition speakerRule (splitOnSpeaker : bool) (st : state) (token : WordToken) : state :=
  if splitOnSpeaker && nonEmpty (current st)
     && negb (isUndefined (w_speaker token))
     && negb (isUndefined (currentSpeaker st))
     && negb (speaker_eqb (w_speaker token) (currentSpeaker st))
  then closeSegment false st else st.

(** The silence rule: close on a long enough gap at a safe boundary. *)
Definition gapRule (gapThreshold : Z) (st : state) (token : WordToken) : state :=
  match current st, lastTokenEnd st with
  | _ :: _, Some lastEnd =>
      let gap := w_start_ms token - lastEnd in
      if (0 <? gapThreshold) && (gapThreshold <? gap) then
        let previousText := w_text (last (current st) token) in
        if safeBoundary previousText (w_text token) then closeSegment false st
        else st
      else st
  | _, _ => st
  end.

(** Appending the word and updating the running extents. *)
Definition append (st : state) (token : WordToken) : state :=
  {| segments := segments st;
     current := current st ++ [token];
     currentStart :=
       match current st with
       | [] => Some (w_start_ms token)
       | _ :: _ => currentStart st
       end;
     lastTokenEnd := Some (w_end_ms token);
     currentSpeaker :=
       if isUndefined (currentSpeaker st) && negb (isUndefined (w_speaker token))
       then w_speaker token else currentSpeaker st |}.

(** The sentence rule, evaluated after the word was appended. *)
Definition isSentenceEnd (segmentOnSentence : bool) (text : jsstring) : bool :=
  match text with
  | [] => false
  | _ =>
      match trim text with
      | [] => false
      | trimmed =>
          if isSentenceBreak trimmed then true
          else segmentOnSentence && endsWithSentenceBreak trimmed
      end
  end.

Definition step (gapThreshold : Z) (splitOnSpeaker segmentOnSentence : bool)
    (st : state) (token : WordToken) : state :=
  let st1 := speakerRule splitOnSpeaker st token in
  let st2 := gapRule gapThreshold st1 token in
  let st3 := append st2 token in
  if isSentenceEnd segmentOnSentence (w_text token)
  then closeSegment true st3 else st3.

End Build.

Definition buildSegments (tokens : list WordToken) (gapThreshold : Z)
    (splitOnSpeaker segmentOnSentence : bool) : list SubtitleSegment :=
  Build.segments
    (Build.closeSegment false
       (fold_left (Build.step gapThreshold splitOnSpeaker segmentOnSentence)
                  tokens Build.init)).

Definition segmentText (seg : SubtitleSegment) : jsstring :=
  match seg_tokens seg with
  | Some tokens => concatText tokens
  | None => orElse (seg_text seg) []
  end.

(** [text.replace(/\s+/g, "").length]. *)
Definition charsForCps (text : jsstring) : nat :=
  length (filter (fun c => negb (isWhite c)) text).

(** ** Readability enforcer: [findSplitIndex], [enforceReadability] *)

(** What a call can end in: a value, a thrown exception, or, as artefacts
    of the model only, an exhausted iteration budget or an input that
    does not fit the typed interface the embedding covers, about which it
    says nothing. *)
Inductive error :=
| TypeError
| SyntaxError
| SystemError
| Error (message : jsstring).

Inductive outcome (A : Type) :=
| Ret (a : A)
| Throw (e : error)
| OutOfFuel
| Untyped.
Arguments Ret {A} a.
Arguments Throw {A} e.
Arguments OutOfFuel {A}.
Arguments Untyped {A}.

Definition bind {A B} (m : outcome A) (k : A -> outcome B) : outcome B :=
  match m with
  | Ret a => k a
  | Throw e => Throw e
  | OutOfFuel => OutOfFuel
  | Untyped => Untyped
  end.

(** [tokens[i].text ?? ""]; every index used below is within bounds. *)
Definition textAt (tokens : list WordToken) (i : nat) : jsstring :=
  match nth_error tokens i with
  | Some w => w_text w
  | None => []
  end.

Definition isSafeAt (tokens : list WordToken) (index : nat) : bool :=
  if (index <=? 0)%nat || (length tokens <=? index)%nat then true
  else
    let left := textAt tokens (index - 1) in
    let right := textAt tokens index in
    if startsWithSpace right then true
    else if endsWithSpace left then true
    else lastIn SENTENCE_ENDERS left || lastIn MINOR_BREAKERS left.

(** [for (j = from; j < from + count; j += 1) if (p(j)) return j]. *)
Fixpoint searchUp (p : nat -> bool) (from count : nat) : option nat :=
  match count with
  | O => None
  | S count' => if p from then Some from else searchUp p (S from) count'
  end.

(** [for (j = from; j > 0; j -= 1) if (p(j)) return j]. *)
Fixpoint searchDown (p : nat -> bool) (from : nat) : option nat :=
  match from with
  | O => None
  | S from' => if p from then Some from else searchDown p from'
  end.

Definition adjustToSafe (tokens : list WordToken) (index : nat) : nat :=
  if isSafeAt tokens index then index
  else
    match searchUp (isSafeAt tokens) (index + 1) (length tokens - (index + 1)) with
    | Some j => j
    | None =>
        match searchDown (isSafeAt tokens) (index - 1) with
        | Some j => j
        | None => index
        end
    end.

(** The running sums [cumulative] of [findSplitIndex]. *)
Fixpoint cumulativeFrom (acc : nat) (texts : list jsstring) : list nat :=
  match texts with
  | [] => []
  | txt :: rest => (acc + length txt)%nat :: cumulativeFrom (acc + length txt) rest
  end.

(** The indices [i + 1] pushed on [safeAfter], for [i] from [i0]. *)
Fixpoint safeAfterFrom (i0 : nat) (texts : list jsstring) : list nat :=
  match texts with
  | txt :: ((next :: _) as rest) =>
      if safeBoundary txt next then (i0 + 1)%nat :: safeAfterFrom (S i0) rest
      else safeAfterFrom (S i0) rest
  | _ => []
  end.

Definition absDiff (a b : nat) : nat := Z.to_nat (Z.abs (Z.of_nat a - Z.of_nat b)).

(** The scan for the safe boundary closest to the midpoint. *)
Fixpoint closest (cumulative : list nat) (midChars : nat)
    (candidates : list nat) (bestIndex bestDelta : nat) : nat :=
  match candidates with
  | [] => bestIndex
  | candidate :: rest =>
      let delta := absDiff (nth (candidate - 1) cumulative 0%nat) midChars in
      if (delta <? bestDelta)%nat
      then closest cumulative midChars rest candidate delta
      else closest cumulative midChars rest bestIndex bestDelta
  end.

Definition endsSentenceAt (tokens : list WordToken) (i : nat) : bool :=
  lastIn SENTENCE_ENDERS (textAt tokens (i - 1)).

Definition findSplitIndex (tokens : list WordToken) : nat :=
  let n := length tokens in
  if (n <=? 1)%nat then 1%nat
  else
    let texts := map w_text tokens in
    let totalChars := fold_left (fun sum txt => (sum + length txt)%nat) texts 0%nat in
    let midChars := (totalChars / 2)%nat in
    let cumulative := cumulativeFrom 0 texts in
    let safeAfter := safeAfterFrom 0 texts in
    match safeAfter with
    | first :: _ =>
        let bestDelta := absDiff (nth (first - 1) cumulative 0%nat) midChars in
        adjustToSafe tokens (closest cumulative midChars safeAfter first bestDelta)
    | [] =>
        let mid := (n / 2)%nat in
        match searchDown (endsSentenceAt tokens) mid with
        | Some i => adjustToSafe tokens i
        | None =>
            match searchUp (endsSentenceAt tokens) (mid + 1) (n - (mid + 1)) with
            | Some i => adjustToSafe tokens i
            | None => adjustToSafe tokens mid
            end
        end
    end.

Definition tokensOf (seg : SubtitleSegment) : list WordToken :=
  orElse (seg_tokens seg) [].

(** [duration = Math.max(1, end - start)]. *)
Definition durationOf (seg : SubtitleSegment) : Z :=
  Z.max 1 (seg_end seg - seg_start seg).

(** [cps = charsForCps(text) / (duration / 1000)], two divisions in
    double precision. *)
Definition cpsOf (seg : SubtitleSegment) : Double.t :=
  Double.div (Double.ofZ (Z.of_nat (charsForCps (segmentText seg))))
             (Double.div (Double.ofZ (durationOf seg)) (Double.ofZ 1000)).

(** [cps > max_cps]. *)
Definition cpsExceeds (seg : SubtitleSegment) (maxCps : Double.t) : bool :=
  Double.gt (cpsOf seg) maxCps.

Definition maxCharsOf (config : SubtitleConfig) : Z :=
  max_cpl config * max_lines config.

(** The over-budget test of the split phase. *)
Definition overBudget (config : SubtitleConfig) (seg : SubtitleSegment) : bool :=
  (max_dur_ms config <? durationOf seg)
  || cpsExceeds seg (max_cps config)
  || (maxCharsOf config <? Z.of_nat (length (segmentText seg))).

Definition child (current : SubtitleSegment) (tokens : list WordToken)
    (first lastw : WordToken) (sb prefix suffix : bool) : SubtitleSegment :=
  {| seg_start := w_start_ms first;
     seg_end := w_end_ms lastw;
     seg_speaker := orNull (seg_speaker current);
     seg_tokens := Some tokens;
     seg_text := None;
     sentence_break := sb;
     prefix_ellipsis := prefix;
     suffix_ellipsis := suffix |}.

(** The [while (queue.length > 0)] loop; [leftTokens[0]] of an empty
    slice is [undefined] and reading its [start_ms] throws. *)
Fixpoint splitLoop (fuel : nat) (config : SubtitleConfig)
    (queue out : list SubtitleSegment) : outcome (list SubtitleSegment) :=
  match queue with
  | [] => Ret out
  | current :: queue' =>
      match fuel with
      | O => OutOfFuel
      | S fuel' =>
          let tokens := tokensOf current in
          if overBudget config current && (1 <? length tokens)%nat then
            let idx := findSplitIndex tokens in
            let leftTokens := firstn idx tokens in
            let rightTokens := skipn idx tokens in
            match leftTokens, rightTokens with
            | l0 :: _, r0 :: _ =>
                let left := child current leftTokens l0 (last leftTokens l0)
                                  false false (ellipses config) in
                let right := child current rightTokens r0 (last rightTokens r0)
                                   (sentence_break current) (ellipses config) false in
                splitLoop fuel' config (left :: right :: queue') out
            | _, _ => Throw TypeError
            end
          else splitLoop fuel' config queue' (out ++ [current])
      end
  end.

(** Iterations granted to the queue of one input segment. *)
Definition splitFuel (seg : SubtitleSegment) : nat :=
  (2 * length (tokensOf seg) + 1)%nat.

(** The [for (const segment of segments)] loop around the queue. *)
Fixpoint splitPhase (config : SubtitleConfig) (segments out : list SubtitleSegment)
    : outcome (list SubtitleSegment) :=
  match segments with
  | [] => Ret out
  | segment :: rest =>
      bind (splitLoop (splitFuel segment) config [segment] out)
           (fun out' => splitPhase config rest out')
  end.

(** [a ?? b ?? null] on speakers. *)
Definition speakerOr (a b : Speaker) : Speaker :=
  match a with
  | SpkName _ => a
  | _ => orNull b
  end.

(** The test that lets the merge scan fuse [segment] with [next]. *)
Definition mergeable (config : SubtitleConfig) (segment next : SubtitleSegment) : bool :=
  (seg_end segment - seg_start segment <? min_dur_ms config)
  && negb (segment_on_sentence config && sentence_break segment)
  && (seg_end next - seg_start segment <=? max_dur_ms config).

Definition mergeTwo (segment next : SubtitleSegment) : SubtitleSegment :=
  {| seg_start := seg_start segment;
     seg_end := seg_end next;
     seg_speaker := speakerOr (seg_speaker segment) (seg_speaker next);
     seg_tokens := Some (tokensOf segment ++ tokensOf next);
     seg_text := None;
     sentence_break := sentence_break next;
     prefix_ellipsis := false;
     suffix_ellipsis := false |}.

(** One left-to-right scan: the [merged] array and the [changed] flag. *)
Fixpoint mergePass (config : SubtitleConfig) (currentSegments : list SubtitleSegment)
    : list SubtitleSegment * bool :=
  match currentSegments with
  | [] => ([], false)
  | segment :: rest =>
      match rest with
      | [] => ([segment], false)
      | next :: rest' =>
          if mergeable config segment next then
            let (merged, _) := mergePass config rest' in
            (mergeTwo segment next :: merged, true)
          else
            let (merged, changed) := mergePass config rest in
            (segment :: merged, changed)
      end
  end.

(** The [while (changed)] loop. *)
Fixpoint mergeLoop (fuel : nat) (config : SubtitleConfig)
    (currentSegments : list SubtitleSegment) : outcome (list SubtitleSegment) :=
  match fuel with
  | O => OutOfFuel
  | S fuel' =>
      let (merged, changed) := mergePass config currentSegments in
      if changed then mergeLoop fuel' config merged else Ret merged
  end.

Definition mergePhase (config : SubtitleConfig) (out : list SubtitleSegment)
    : outcome (list SubtitleSegment) :=
  mergeLoop (S (length out)) config out.

Definition enforceReadability (segments : list SubtitleSegment)
    (config : SubtitleConfig) : outcome (list SubtitleSegment) :=
  bind (splitPhase config segments []) (mergePhase config).

Definition tokensToSubtitleSegments (tokens : list Token) (config : SubtitleConfig)
    : outcome (list SubtitleSegment) :=
  let words := tokensToWords tokens in
  let segments := buildSegments words (gap_ms config) (split_on_speaker config)
                                (segment_on_sentence config) in
  match segments with
  | [] => Ret []
  | _ :: _ => enforceReadability segments config
  end.

(** ** Line wrapper *)

(** [s.slice(a, b)] and [s.slice(a)] with JavaScript's treatment of
    negative and oversized indices. *)
Definition clampIndex (len i : Z) : Z :=
  if i <? 0 then Z.max (len + i) 0 else Z.min i len.

Definition sliceZ (s : jsstring) (a b : Z) : jsstring :=
  let len := Z.of_nat (length s) in
  let from := clampIndex len a in
  let to := clampIndex len b in
  firstn (Z.to_nat (to - from)) (skipn (Z.to_nat from) s).

Definition sliceFrom (s : jsstring) (a : Z) : jsstring :=
  sliceZ s a (Z.of_nat (length s)).

Definition isHighSurrogate (c : char) : bool := ((0xD800 <=? c) && (c <=? 0xDBFF))%N.
Definition isLowSurrogate (c : char) : bool := ((0xDC00 <=? c) && (c <=? 0xDFFF))%N.

(** The strings a [for (const char of s)] loop yields: one per code point. *)
Fixpoint codePoints (s : jsstring) : list jsstring :=
  match s with
  | [] => []
  | c :: s' =>
      match s' with
      | d :: s'' =>
          if isHighSurrogate c && isLowSurrogate d
          then [c; d] :: codePoints s''
          else [c] :: codePoints s'
      | [] => [[c]]
      end
  end.

Definition inSet (set : list jsstring) (s : jsstring) : bool :=
  existsb (str_eqb s) set.

(** The scanning loop of [splitTextByDelimiters] and its final remainder. *)
Fixpoint splitLoopChars (delimSet : list jsstring) (chars : list jsstring)
    (current : jsstring) (pieces : list jsstring) : list jsstring :=
  match chars with
  | [] =>
      match trim current with
      | [] => pieces
      | remainder => pieces ++ [remainder]
      end
  | char :: rest =>
      let current' := current ++ char in
      if inSet delimSet char then
        match trim current' with
        | [] => splitLoopChars delimSet rest [] pieces
        | chunk => splitLoopChars delimSet rest [] (pieces ++ [chunk])
        end
      else splitLoopChars delimSet rest current' pieces
  end.

Definition splitTextByDelimiters (text : jsstring) (delimiters : list jsstring)
    : list jsstring :=
  match text with
  | [] => []
  | _ :: _ =>
      let cleaned := map (fun c => if char_eqb c NEWLINE then SPACE else c) text in
      let delimSet := filter (fun value => (0 <? length value)%nat) delimiters in
      match delimSet with
      | [] =>
          match trim cleaned with
          | [] => []
          | stripped => [stripped]
          end
      | _ :: _ => splitLoopChars delimSet (codePoints cleaned) [] []
      end
  end.

(** The [for (end = start; ...)] loop of [helper]: grow the current line
    chunk by chunk until the rest can be packed by [helper], which stands
    for [helper(end + 1, remaining - 1)]. *)
Fixpoint extendLine (maxCpl : Z) (helper : list jsstring -> option (list jsstring))
    (line : jsstring) (chunks : list jsstring) : option (list jsstring) :=
  match chunks with
  | [] => None
  | chunk :: rest =>
      let line' :=
        match line with
        | [] => chunk
        | _ :: _ => line ++ [SPACE] ++ chunk
        end in
      if maxCpl <? Z.of_nat (length line') then None
      else
        match helper rest with
        | Some packed => Some (line' :: packed)
        | None => extendLine maxCpl helper line' rest
        end
  end.

(** [helper(start, remaining)] of [partitionChunks], on the chunks from
    [start] on; [None] is the source's [null]. *)
Fixpoint partitionHelper (maxCpl : Z) (remaining : nat) (chunks : list jsstring)
    {struct remaining} : option (list jsstring) :=
  match chunks with
  | [] => Some []
  | _ :: _ =>
      match remaining with
      | O => None
      | S remaining' =>
          extendLine maxCpl (partitionHelper maxCpl remaining') [] chunks
      end
  end.

Definition partitionChunks (chunks : list jsstring) (maxLines maxCpl : Z)
    : option (list jsstring) :=
  if maxLines <=? 0 then Some []
  else
    match chunks with
    | [] => Some []
    | _ :: _ => partitionHelper maxCpl (Z.to_nat maxLines) chunks
    end.

(** [lines.slice(0, n)] on an array, for an integral [n]. *)
Definition takeLines (n : Z) (lines : list jsstring) : list jsstring :=
  let len := Z.of_nat (length lines) in
  firstn (Z.to_nat (clampIndex len n)) lines.

Definition wrapWithPreferredDelimiters (text : jsstring) (delimiters : list jsstring)
    (maxCpl maxLines : Z) : option (list jsstring) :=
  if maxLines <=? 1 then None
  else
    let chunks := splitTextByDelimiters text delimiters in
    if (length chunks <=? 1)%nat then None
    else
      match partitionChunks chunks maxLines maxCpl with
      | None => None
      | Some partition =>
          let lines := filter (fun line => (0 <? length line)%nat) (map trim partition) in
          if (length lines <=? 1)%nat then None
          else Some (takeLines maxLines lines)
      end.

(** The outward search of [wrapTwoLinesNaive] for a space near [target]:
    [delta] runs over [count] values starting at [delta]. *)
Fixpoint findBreak (trimmed : jsstring) (target delta count : nat) : option nat :=
  match count with
  | O => None
  | S count' =>
      let left := Z.of_nat target - Z.of_nat delta in
      let right := (target + delta)%nat in
      if (0 <? left)
         && match nth_error trimmed (Z.to_nat left) with
            | Some c => char_eqb c SPACE
            | None => false
            end
      then Some (Z.to_nat left)
      else if (right <? length trimmed)%nat
              && match nth_error trimmed right with
                 | Some c => char_eqb c SPACE
                 | None => false
                 end
      then Some right
      else findBreak trimmed target (S delta) count'
  end.

Definition lenZ (s : jsstring) : Z := Z.of_nat (length s).

Definition wrapTwoLinesNaive (text : jsstring) (maxCpl maxLines : Z)
    (preferredDelimiters : list jsstring) : list jsstring :=
  let trimmed := trim text in
  if maxLines <=? 1 then [trimmed]
  else
    match
      (match preferredDelimiters with
       | [] => None
       | _ :: _ => wrapWithPreferredDelimiters trimmed preferredDelimiters maxCpl maxLines
       end)
    with
    | Some lines => lines
    | None =>
        if lenZ trimmed <=? maxCpl then [trimmed]
        else if includesSpace trimmed then
          let target := (length trimmed / 2)%nat in
          let breakPos :=
            match findBreak trimmed target 0 (length trimmed) with
            | Some pos => Z.of_nat pos
            | None => Z.min (lenZ trimmed) maxCpl
            end in
          let line1 := trim (sliceZ trimmed 0 breakPos) in
          let line2 := trim (sliceFrom trimmed breakPos) in
          let line1 := if maxCpl <? lenZ line1
                       then trimEnd (sliceZ line1 0 maxCpl) else line1 in
          let line2 := if (maxCpl <? lenZ line2) && (1 <? maxLines)
                       then trimEnd (sliceZ line2 0 maxCpl) else line2 in
          if 2 <=? maxLines then [line1; line2] else [line1]
        else
          let line1 := sliceZ trimmed 0 maxCpl in
          let line2 := sliceZ trimmed maxCpl (maxCpl * 2) in
          match line2 with
          | _ :: _ => if 2 <=? maxLines then [line1; line2] else [line1]
          | [] => [line1]
          end
    end.

(** The index set [safeAfter] of [wrapTwoLinesTokenAware], from [i0]. *)
Fixpoint wrapSafeAfter (i0 : nat) (texts : list jsstring) : list nat :=
  match texts with
  | txt :: ((next :: _) as rest) =>
      match next with
      | [] => wrapSafeAfter (S i0) rest
      | _ :: _ =>
          if safeBoundary txt next then i0 :: wrapSafeAfter (S i0) rest
          else wrapSafeAfter (S i0) rest
      end
  | _ => []
  end.

Definition hasIndex (set : list nat) (i : nat) : bool := existsb (Nat.eqb i) set.

(** Splitting after word [candidate], accepted when both lines fit. *)
Definition splitAfter (tokens : list WordToken) (maxCpl : Z) (candidate : nat)
    : option (list jsstring) :=
  let left := trimEnd (concatText (firstn (candidate + 1) tokens)) in
  if lenZ left <=? maxCpl then
    let right := trimStart (concatText (skipn (candidate + 1) tokens)) in
    if lenZ right <=? maxCpl then Some [left; right] else None
  else None.

(** [while (candidate >= 0)]: walk back over the safe indices. *)
Fixpoint backtrack (tokens : list WordToken) (safeAfter : list nat) (maxCpl : Z)
    (candidate : nat) : option (list jsstring) :=
  match (if hasIndex safeAfter candidate
         then splitAfter tokens maxCpl candidate else None) with
  | Some lines => Some lines
  | None =>
      match candidate with
      | O => None
      | S candidate' => backtrack tokens safeAfter maxCpl candidate'
      end
  end.

(** The forward walk that stops at the first word overflowing [maxCpl]. *)
Fixpoint firstFit (tokens : list WordToken) (safeAfter : list nat) (maxCpl : Z)
    (i : nat) (rest : list WordToken) (charLen : nat) (lastSafe : option nat)
    : option (list jsstring) :=
  match rest with
  | [] => None
  | token :: rest' =>
      let charLen' := (charLen + length (w_text token))%nat in
      let lastSafe' := if hasIndex safeAfter i then Some i else lastSafe in
      if maxCpl <? Z.of_nat charLen' then
        match lastSafe' with
        | Some candidate => backtrack tokens safeAfter maxCpl candidate
        | None => None
        end
      else firstFit tokens safeAfter maxCpl (S i) rest' charLen' lastSafe'
  end.

(** The safe index whose running length is nearest to [target];
    [bestDelta = None] stands for [Number.POSITIVE_INFINITY]. *)
Fixpoint nearestSafe (safeAfter : list nat) (target : nat) (i : nat)
    (texts : list jsstring) (acc : nat) (nearest bestDelta : option nat)
    : option nat :=
  match texts with
  | txt :: ((_ :: _) as rest) =>
      let acc' := (acc + length txt)%nat in
      if hasIndex safeAfter i then
        let delta := absDiff acc' target in
        if match bestDelta with
           | None => true
           | Some best => (delta <? best)%nat
           end
        then nearestSafe safeAfter target (S i) rest acc' (Some i) (Some delta)
        else nearestSafe safeAfter target (S i) rest acc' nearest bestDelta
      else nearestSafe safeAfter target (S i) rest acc' nearest bestDelta
  | _ => nearest
  end.

Definition wrapTwoLinesTokenAware (tokens : list WordToken) (text : jsstring)
    (maxCpl maxLines : Z) (preferredDelimiters : list jsstring) : list jsstring :=
  let stripped := trim text in
  if maxLines <=? 1 then [stripped]
  else
    match
      (match preferredDelimiters with
       | [] => None
       | _ :: _ => wrapWithPreferredDelimiters stripped preferredDelimiters maxCpl maxLines
       end)
    with
    | Some lines => lines
    | None =>
        if lenZ stripped <=? maxCpl then [stripped]
        else
          let texts := map w_text tokens in
          let safeAfter := wrapSafeAfter 0 texts in
          match firstFit tokens safeAfter maxCpl 0 tokens 0 None with
          | Some lines => lines
          | None =>
              let totalChars :=
                fold_left (fun sum txt => (sum + length txt)%nat) texts 0%nat in
              let target := (totalChars / 2)%nat in
              match nearestSafe safeAfter target 0 texts 0 None None with
              | Some nearest =>
                  let left := trimEnd (concatText (firstn (nearest + 1) tokens)) in
                  let right := trimStart (concatText (skipn (nearest + 1) tokens)) in
                  if (lenZ left <=? maxCpl) && (lenZ right <=? maxCpl)
                  then [left; right] else [stripped]
              | None => [stripped]
              end
          end
    end.

(** ** Cue renderer *)

Record SubtitleEntry := {
  index : nat;
  start_ms : Z;
  end_ms : Z;
  lines : list jsstring
}.

Fixpoint uintChars (d : Decimal.uint) : jsstring :=
  match d with
  | Decimal.Nil => []
  | Decimal.D0 d' => 48%N :: uintChars d'
  | Decimal.D1 d' => 49%N :: uintChars d'
  | Decimal.D2 d' => 50%N :: uintChars d'
  | Decimal.D3 d' => 51%N :: uintChars d'
  | Decimal.D4 d' => 52%N :: uintChars d'
  | Decimal.D5 d' => 53%N :: uintChars d'
  | Decimal.D6 d' => 54%N :: uintChars d'
  | Decimal.D7 d' => 55%N :: uintChars d'
  | Decimal.D8 d' => 56%N :: uintChars d'
  | Decimal.D9 d' => 57%N :: uintChars d'
  end.

(** [n.toString()] of a non-negative integer (below [10^21], where
    JavaScript still writes every digit). *)
Definition toString (n : Z) : jsstring := uintChars (N.to_uint (Z.to_N n)).

(** [s.padStart(width, "0")]. *)
Definition padStart (width : nat) (s : jsstring) : jsstring :=
  repeat 48%N (width - length s) ++ s.

(** [formatTimestamp] takes any number; its argument is a rational here
    so that [Math.floor] has something to do. *)
Definition formatTimestamp (ms : Q) : jsstring :=
  let millis := Z.max 0 (Qfloor ms) in
  let totalSeconds := millis / 1000 in
  let remainderMillis := millis mod 1000 in
  let seconds := totalSeconds mod 60 in
  let totalMinutes := totalSeconds / 60 in
  let minutes := totalMinutes mod 60 in
  let hours := totalMinutes / 60 in
  padStart 2 (toString hours) ++ lit ":" ++
  padStart 2 (toString minutes) ++ lit ":" ++
  padStart 2 (toString seconds) ++ lit "," ++
  padStart 3 (toString remainderMillis).

(** The text a cue shows, ellipsis markers applied. *)
Definition displayText (segment : SubtitleSegment) : jsstring :=
  let text := segmentText segment in
  let text := if prefix_ellipsis segment then ELLIPSIS :: text else text in
  if suffix_ellipsis segment then text ++ [ELLIPSIS] else text.

Definition wrapSegment (segment : SubtitleSegment) (config : SubtitleConfig)
    : list jsstring :=
  match seg_tokens segment with
  | Some ((_ :: _) as tokens) =>
      wrapTwoLinesTokenAware tokens (displayText segment) (max_cpl config)
        (max_lines config) (line_split_delimiters config)
  | _ =>
      wrapTwoLinesNaive (displayText segment) (max_cpl config)
        (max_lines config) (line_split_delimiters config)
  end.

(** [segments.forEach((segment, index) => ...)], from position [index]. *)
Fixpoint renderFrom (position : nat) (segments : list SubtitleSegment)
    (config : SubtitleConfig) : list SubtitleEntry :=
  match segments with
  | [] => []
  | segment :: rest =>
      {| index := position + 1;
         start_ms := seg_start segment;
         end_ms := seg_end segment;
         lines := takeLines (max_lines config) (wrapSegment segment config) |}
      :: renderFrom (S position) rest config
  end.

Definition renderSegments (segments : list SubtitleSegment) (config : SubtitleConfig)
    : list SubtitleEntry :=
  renderFrom 0 segments config.

(** [chunks.join("\n")]. *)
Fixpoint joinLines (chunks : list jsstring) : jsstring :=
  match chunks with
  | [] => []
  | [c] => c
  | c :: rest => c ++ [NEWLINE] ++ joinLines rest
  end.

Definition entryChunks (entry : SubtitleEntry) : list jsstring :=
  [toString (Z.of_nat (index entry));
   formatTimestamp (inject_Z (start_ms entry)) ++ lit " --> "
     ++ formatTimestamp (inject_Z (end_ms entry))]
  ++ lines entry ++ [[]].

(** The text [writeSrtFile] hands to [fs.writeFileSync]. *)
Definition srtContent (entries : list SubtitleEntry) : jsstring :=
  joinLines (flat_map entryChunks entries) ++ [NEWLINE].

(** ** Token extraction from a transcript *)

#[warnings="-register-all"]
Inductive json :=
| JNull
| JBool (b : bool)
| JNum (n : Z)
| JStr (s : jsstring)
| JArr (items : list json)
| JObj (fields : list (jsstring * json)).

(** [obj[key]]; [None] is [undefined]. *)
Fixpoint lookup (key : jsstring) (fields : list (jsstring * json)) : option json :=
  match fields with
  | [] => None
  | (k, v) :: rest => if str_eqb k key then Some v else lookup key rest
  end.

Definition NESTED_TOKEN_KEYS : list jsstring :=
  map lit ["alternatives"; "segments"; "paragraphs"; "turns"; "entries";
           "results"; "items"]%string.

(** [typeof item === "object" && item !== null && "text" in item]. *)
Definition looksLikeToken (item : json) : bool :=
  match item with
  | JObj fields => match lookup (lit "text") fields with Some _ => true | None => false end
  | JArr _ => false
  | _ => false
  end.

(** [Array.isArray(obj.tokens) && obj.tokens.length > 0], with the array. *)
Definition tokensArray (fields : list (jsstring * json)) : option (list json) :=
  match lookup (lit "tokens") fields with
  | Some (JArr ((_ :: _) as items)) => Some items
  | _ => None
  end.

Fixpoint collectTokens (value : json) (skipImmediate : bool) {struct value}
    : list json :=
  match value with
  | JArr items =>
      if nonEmpty items && forallb looksLikeToken items then items
      else
        (fix collectFromIterable (items : list json) : list json :=
           match items with
           | [] => []
           | item :: rest => collectTokens item false ++ collectFromIterable rest
           end) items
  | JObj fields =>
      (if skipImmediate then []
       else match tokensArray fields with Some items => items | None => [] end)
      ++
      flat_map
        (fun key =>
           (fix nested (fs : list (jsstring * json)) : list json :=
              match fs with
              | [] => []
              | (k, v) :: rest =>
                  if str_eqb k key then collectTokens v false else nested rest
              end) fields)
        NESTED_TOKEN_KEYS
  | _ => []
  end.

Definition NO_TOKENS : jsstring := lit "No tokens found in transcript.".
Definition NO_SEGMENTS : jsstring := lit "No subtitle segments produced from transcript.".

(** Reading [transcript.tokens] throws on [null]; every other value has
    (possibly [undefined]) properties. *)
Definition extractTokens (transcript : json) : outcome (list json) :=
  match transcript with
  | JNull => Throw TypeError
  | _ =>
      match (match transcript with
             | JObj fields => tokensArray fields
             | _ => None
             end) with
      | Some items => Ret items
      | None =>
          match collectTokens transcript true with
          | (_ :: _) as nested => Ret nested
          | [] => Throw (Error NO_TOKENS)
          end
      end
  end.

(** JavaScript truthiness of a JSON value. *)
Definition truthy (v : json) : bool :=
  match v with
  | JNull => false
  | JBool b => b
  | JNum n => negb (n =? 0)
  | JStr s => nonEmpty s
  | JArr _ => true
  | JObj _ => true
  end.

(** A token the engine skips: it reads its [text], finds it falsy, and
    reads nothing else of it. *)
Definition skippedToken : Token :=
  {| t_text := None; t_start_ms := None; t_end_ms := None;
     t_speaker := SpkUndefined; t_prefix_space := false |}.

(** [token.start_ms] of a token that fits the interface: absent or a
    number.  [None] for any other value ([null] included, which the
    engine would take for a defined timing). *)
Definition timingOf (v : option json) : option (option Z) :=
  match v with
  | None => Some None
  | Some (JNum n) => Some (Some n)
  | Some _ => None
  end.

(** [token.speaker] of a token that fits the interface: absent, [null]
    or a string. *)
Definition speakerOf (v : option json) : option Speaker :=
  match v with
  | None => Some SpkUndefined
  | Some JNull => Some SpkNull
  | Some (JStr s) => Some (SpkName s)
  | Some _ => None
  end.

(** The cast [as Token]: what the engine reads of a JSON value taken for
    a token.
    - Reading [text] of [null] throws a TypeError.
    - A [text] that is absent, [null], empty or otherwise falsy makes the
      engine skip the token; so does a value that is no object.
    - A truthy [text] that is not a string makes [rawText.trimStart()]
      throw a TypeError; the engine has done nothing observable by then.
    - A token with a non-empty string for text fits the [Token] interface
      when its timings are numbers or absent and its speaker a string,
      [null] or absent; [_prefix_space] is read for its truthiness.  A
      token that does not fit is [Untyped]. *)
Definition asToken (item : json) : outcome Token :=
  match item with
  | JNull => Throw TypeError
  | JObj fields =>
      match lookup (lit "text") fields with
      | Some (JStr (c :: s)) =>
          match timingOf (lookup (lit "start_ms") fields),
                timingOf (lookup (lit "end_ms") fields),
                speakerOf (lookup (lit "speaker") fields) with
          | Some tokenStart, Some tokenEnd, Some speaker =>
              Ret {| t_text := Some (c :: s);
                     t_start_ms := tokenStart;
                     t_end_ms := tokenEnd;
                     t_speaker := speaker;
                     t_prefix_space :=
                       match lookup (lit "_prefix_space") fields with
                       | Some v => truthy v
                       | None => false
                       end |}
          | _, _, _ => Untyped
          end
      | Some v => if truthy v then Throw TypeError else Ret skippedToken
      | None => Ret skippedToken
      end
  | _ => Ret skippedToken
  end.

Fixpoint asTokens (items : list json) : outcome (list Token) :=
  match items with
  | [] => Ret []
  | item :: rest =>
      bind (asToken item) (fun t => bind (asTokens rest) (fun ts => Ret (t :: ts)))
  end.

(** ** The entry point [srt] and its effects *)

Module IO.

Inductive event :=
| ConsoleInfo (message : jsstring)
| WriteFile (path content : jsstring).

(** The file system (newest binding first) and what was done so far. *)
Record world := {
  files : list (jsstring * jsstring);
  trace : list event
}.

Definition M (A : Type) : Type := world -> outcome A * world.

Definition ret {A} (a : A) : M A := fun w => (Ret a, w).

Definition bindM {A B} (m : M A) (k : A -> M B) : M B :=
  fun w =>
    match m w with
    | (Ret a, w') => k a w'
    | (Throw e, w') => (Throw e, w')
    | (OutOfFuel, w') => (OutOfFuel, w')
    | (Untyped, w') => (Untyped, w')
    end.

Definition lift {A} (o : outcome A) : M A := fun w => (o, w).

Definition throw {A} (e : error) : M A := lift (Throw e).

Definition consoleInfo (message : jsstring) : M unit :=
  fun w => (Ret tt, {| files := files w; trace := trace w ++ [ConsoleInfo message] |}).

Fixpoint readPath (path : jsstring) (fs : list (jsstring * jsstring)) : option jsstring :=
  match fs with
  | [] => None
  | (p, content) :: rest => if str_eqb p path then Some content else readPath path rest
  end.

Definition readFileSync (path : jsstring) : M jsstring :=
  fun w =>
    match readPath path (files w) with
    | Some content => (Ret content, w)
    | None => (Throw SystemError, w)
    end.

Definition writeFileSync (path content : jsstring) : M unit :=
  fun w => (Ret tt, {| files := (path, content) :: files w;
                       trace := trace w ++ [WriteFile path content] |}).

Definition isWrite (e : event) : bool :=
  match e with WriteFile _ _ => true | ConsoleInfo _ => false end.

End IO.

Notation "x <- c ;; k" := (IO.bindM c (fun x => k))
  (at level 61, c at next level, right associativity).

(** [Transcript | string]: a path to load or the transcript itself. *)
Inductive transcriptArg :=
| FromPath (path : jsstring)
| FromData (data : json).

Section Srt.

(** [path.resolve] and [JSON.parse] belong to the runtime. *)
Variable resolve : jsstring -> jsstring.
Variable JSON_parse : jsstring -> option json.

Definition writeSrtFile (entries : list SubtitleEntry) (outputPath : jsstring)
    : IO.M unit :=
  IO.writeFileSync (resolve outputPath) (srtContent entries).

Definition srt (transcript : transcriptArg) (outputPath : jsstring)
    (config : SubtitleConfig) : IO.M jsstring :=
  data <- match transcript with
          | FromPath p =>
              let resolved := resolve p in
              _ <- IO.consoleInfo (lit "Loading transcript from " ++ resolved) ;;
              raw <- IO.readFileSync resolved ;;
              match JSON_parse raw with
              | Some d => IO.ret d
              | None => IO.throw SyntaxError
              end
          | FromData d => IO.ret d
          end ;;
  items <- IO.lift (extractTokens data) ;;
  tokens <- IO.lift (asTokens items) ;;
  segments <- IO.lift (tokensToSubtitleSegments tokens config) ;;
  match segments with
  | [] => IO.throw (Error NO_SEGMENTS)
  | _ :: _ =>
      let entries := renderSegments segments config in
      let resolvedOutput := resolve outputPath in
      _ <- IO.consoleInfo (lit "Writing " ++ toString (Z.of_nat (length entries))
                           ++ lit " subtitles to " ++ resolvedOutput) ;;
      _ <- writeSrtFile entries resolvedOutput ;;
      IO.ret resolvedOutput
  end.

End Srt.

(** ** Reference notions used by the statements *)

(** A token takes part in word assembly when its text is non-empty. *)
Definition hasText (t : Token) : bool := nonEmpty (rawTextOf t).

Definition startsWhite (s : jsstring) : bool :=
  match s with
  | c :: _ => isWhite c
  | [] => false
  end.

(** The token as the assembler leaves it: flagged when its text begins
    with white space. *)
Definition marked (t : Token) : Token :=
  if startsWhite (rawTextOf t) then set_prefix_space t else t.

(** The token text with its leading white-space run collapsed to one space. *)
Definition normalisedText (t : Token) : jsstring :=
  let raw := rawTextOf t in
  if startsWhite raw then SPACE :: trimStart raw else raw.

(** Only tokens whose text begins with white space carry [_prefix_space]. *)
Definition flagSound (t : Token) : Prop :=
  t_prefix_space t = true -> startsWhite (rawTextOf t) = true.

Definition mkToken (s : string) (a b : Z) : Token :=
  {| t_text := Some (lit s); t_start_ms := Some a; t_end_ms := Some b;
     t_speaker := SpkUndefined; t_prefix_space := false |}.

Definition untimedToken (s : string) : Token :=
  {| t_text := Some (lit s); t_start_ms := None; t_end_ms := None;
     t_speaker := SpkUndefined; t_prefix_space := false |}.

(** Bookkeeping of the word assembler's loop. *)
Module WordsSpec.
Import Words.

(** Tokens already placed, in order: closed words, then the open one. *)
Definition covered (st : state) : list Token :=
  concat (map w_inner (words st)) ++ currentTokens st.

(** Text already placed: closed words, then the open one with its marker. *)
Definition pending (st : state) : jsstring :=
  match currentTokens st with
  | [] => []
  | first :: _ =>
      (if t_prefix_space first then [SPACE] else []) ++ join (currentText st)
  end.

Definition written (st : state) : jsstring :=
  join (map w_text (words st)) ++ pending st.

(** No text is pending without a pending token. *)
Definition wf (st : state) : Prop :=
  currentTokens st = [] -> currentText st = [].

End WordsSpec.

(** The two children the split phase makes of [current] at [idx]. *)
Definition leftChild (config : SubtitleConfig) (current : SubtitleSegment)
    (idx : nat) (l0 : WordToken) : SubtitleSegment :=
  let leftTokens := firstn idx (tokensOf current) in
  child current leftTokens l0 (last leftTokens l0) false false (ellipses config).

Definition rightChild (config : SubtitleConfig) (current : SubtitleSegment)
    (idx : nat) (r0 : WordToken) : SubtitleSegment :=
  let rightTokens := skipn idx (tokensOf current) in
  child current rightTokens r0 (last rightTokens r0)
        (sentence_break current) (ellipses config) false.

(** Whether the split phase divides [seg] rather than emitting it. *)
Definition mustSplit (config : SubtitleConfig) (seg : SubtitleSegment) : bool :=
  overBudget config seg && (1 <? length (tokensOf seg))%nat.

(** The split phase as a recursion on the segment: what one queued
    segment finally contributes to the output, left to right. *)
Inductive Splits (config : SubtitleConfig) : SubtitleSegment -> list SubtitleSegment -> Prop :=
| Splits_leaf seg :
    mustSplit config seg = false ->
    Splits config seg [seg]
| Splits_node seg l0 r0 ls rs :
    mustSplit config seg = true ->
    hd_error (firstn (findSplitIndex (tokensOf seg)) (tokensOf seg)) = Some l0 ->
    hd_error (skipn (findSplitIndex (tokensOf seg)) (tokensOf seg)) = Some r0 ->
    Splits config (leftChild config seg (findSplitIndex (tokensOf seg)) l0) ls ->
    Splits config (rightChild config seg (findSplitIndex (tokensOf seg)) r0) rs ->
    Splits config seg (ls ++ rs).

(** Queue iterations a segment can still cause. *)
Definition cost (seg : SubtitleSegment) : nat :=
  (2 * Nat.max 1 (length (tokensOf seg)) - 1)%nat.

Definition queueCost (queue : list SubtitleSegment) : nat :=
  fold_right (fun seg acc => (cost seg + acc)%nat) 0%nat queue.

Definition mkWord (s : string) (a b : Z) : WordToken :=
  {| w_text := lit s; w_start_ms := a; w_end_ms := b; w_speaker := SpkUndefined;
     w_inner := []; w_prefix_space := false |}.

(** A segment as [buildSegments] would make it of [tokens]. *)
Definition mkSegment (tokens : list WordToken) (a b : Z) : SubtitleSegment :=
  {| seg_start := a; seg_end := b; seg_speaker := SpkNull;
     seg_tokens := Some tokens; seg_text := None; sentence_break := false;
     prefix_ellipsis := false; suffix_ellipsis := false |}.

(** The three budgets of the split phase, as it computes them: the
    reading speed is the double [cpsOf], and it does not exceed [max_cps]. *)
Definition withinBudgets (config : SubtitleConfig) (seg : SubtitleSegment) : Prop :=
  durationOf seg <= max_dur_ms config
  /\ Double.gt (cpsOf seg) (max_cps config) = false
  /\ Z.of_nat (length (segmentText seg)) <= max_cpl config * max_lines config.

(** What the merge phase makes of a run of consecutive segments: the
    segment itself when the run is one segment, or the merge of two
    neighbours that passed the merge test, the first made of the front of
    the run and the second of the rest. *)
Inductive Fuses (config : SubtitleConfig)
    : list SubtitleSegment -> SubtitleSegment -> Prop :=
| Fuses_one s : Fuses config [s] s
| Fuses_two front rest a b :
    Fuses config front a -> Fuses config rest b ->
    mergeable config a b = true ->
    Fuses config (front ++ rest) (mergeTwo a b).

(** ** Timing notions *)

(** Tokens in chronological order: every token carries both timings,
    starts no later than it ends, and no earlier than its predecessor. *)
Fixpoint chronoFrom (lo : option Z) (tokens : list Token) : bool :=
  match tokens with
  | [] => true
  | t :: rest =>
      match t_start_ms t, t_end_ms t with
      | Some s, Some e =>
          match lo with Some l => l <=? s | None => true end
          && (s <=? e) && chronoFrom (Some s) rest
      | _, _ => false
      end
  end.

Definition chronological (tokens : list Token) : Prop :=
  chronoFrom None tokens = true.

Definition wordTimed (w : WordToken) : Prop := w_start_ms w <= w_end_ms w.

Definition startsOf (ws : list WordToken) : list Z := map w_start_ms ws.

(** [x] is no later than the latest start seen so far. *)
Definition below (hi : option Z) (x : Z) : Prop :=
  match hi with Some h => x <= h | None => False end.

(** [x] is no earlier than the latest start seen so far. *)
Definition above (hi : option Z) (x : Z) : Prop :=
  match hi with Some h => h <= x | None => True end.

Module WordsTiming.
Import Words.

Definition inv (hi : option Z) (st : state) : Prop :=
  Forall wordTimed (words st)
  /\ StronglySorted Z.le (startsOf (words st))
  /\ Forall (below hi) (startsOf (words st))
  /\ match currentTokens st with
     | [] => currentStart st = None /\ currentEnd st = None
     | _ :: _ =>
         exists cs ce,
           currentStart st = Some cs /\ currentEnd st = Some ce
           /\ cs <= ce /\ below hi cs
           /\ Forall (fun x => x <= cs) (startsOf (words st))
     end.

End WordsTiming.

(** A segment that begins at its first word and does not end before it
    starts, made of words that do not end before they start. *)
Definition segOK (s : SubtitleSegment) : Prop :=
  match tokensOf s with
  | [] => False
  | w :: _ => seg_start s = w_start_ms w
  end
  /\ seg_start s <= seg_end s
  /\ Forall wordTimed (tokensOf s).

Definition flatWords (l : list SubtitleSegment) : list WordToken :=
  flat_map tokensOf l.

(** The words of all segments, read in order, never step back in time. *)
Definition ordered (l : list SubtitleSegment) : Prop :=
  StronglySorted Z.le (startsOf (flatWords l)).

Definition timeline (l : list SubtitleSegment) : Prop :=
  Forall segOK l /\ ordered l.

Module BuildTiming.
Import Build.

Definition inv (hi : option Z) (st : state) : Prop :=
  Forall segOK (segments st)
  /\ StronglySorted Z.le (startsOf (flatWords (segments st) ++ current st))
  /\ Forall (below hi) (startsOf (flatWords (segments st) ++ current st))
  /\ Forall wordTimed (current st)
  /\ match current st with
     | [] => True
     | w :: _ => currentStart st = Some (w_start_ms w)
     end.

End BuildTiming.

(** The default configuration with [segmentOnSentence: true]. *)
Definition sentenceConfig : SubtitleConfig :=
  {| gap_ms := DEFAULT_GAP_MS;
     min_dur_ms := DEFAULT_MIN_DUR_MS;
     max_dur_ms := DEFAULT_MAX_DUR_MS;
     max_cps := DEFAULT_MAX_CPS;
     max_cpl := 42;
     max_lines := 2;
     line_split_delimiters := [];
     segment_on_sentence := true;
     split_on_speaker := false;
     ellipses := false |}.

(** ** Segmenter notions *)

(** [l[l.length - 1]], if any. *)
Definition lastOf {A} (l : list A) : option A :=
  match l with
  | [] => None
  | x :: rest => Some (last rest x)
  end.

(** The safe-boundary test in the words of the specification: the
    previous word ends in a space or in a sentence or minor-break mark,
    or the next word begins with the leading-space marker. *)
Definition statedSafe (prevText nextText : jsstring) : bool :=
  endsWithSpace prevText || lastIn SENTENCE_ENDERS prevText
  || lastIn MINOR_BREAKERS prevText || startsWithSpace nextText.

(** [lastTokenEnd] is the end of the last word of the open segment. *)
Definition endTracked (st : Build.state) : Prop :=
  forall prev, lastOf (Build.current st) = Some prev ->
               Build.lastTokenEnd st = Some (w_end_ms prev).

(** A state with nothing open has forgotten the extents of the segment
    it closed. *)
Definition settled (st : Build.state) : Prop :=
  Build.current st = [] -> st = Build.reset (Build.segments st).

(** The state [st] reached after the segments [earlier] had already been
    pushed. *)
Definition withEarlier (earlier : list SubtitleSegment) (st : Build.state) : Build.state :=
  {| Build.segments := earlier ++ Build.segments st;
     Build.current := Build.current st;
     Build.currentStart := Build.currentStart st;
     Build.lastTokenEnd := Build.lastTokenEnd st;
     Build.currentSpeaker := Build.currentSpeaker st |}.

(** The open segment is empty or ends with [word]. *)
Definition endsWith (word : WordToken) (st : Build.state) : Prop :=
  Build.current st = [] \/ lastOf (Build.current st) = Some word.

(** Two CJK tokens, the first ending in a tab, 1500 ms apart. *)
Definition tabTokens : list Token :=
  [ {| t_text := Some [20320; 9]%N; t_start_ms := Some 0; t_end_ms := Some 500;
       t_speaker := SpkUndefined; t_prefix_space := false |};
    {| t_text := Some [22909]%N; t_start_ms := Some 2000; t_end_ms := Some 2500;
       t_speaker := SpkUndefined; t_prefix_space := false |} ].

(** ** Timestamp notions *)

(** The decimal digit [d] as a code unit. *)
Definition digit (d : Z) : char := Z.to_N (48 + d).

(** A number below 100 on exactly two digits, below 1000 on exactly three. *)
Definition twoDigits (n : Z) : jsstring := [digit (n / 10); digit (n mod 10)].

Definition threeDigits (n : Z) : jsstring :=
  [digit (n / 100); digit (n / 10 mod 10); digit (n mod 10)].

(** The clock reading of a millisecond count: hours, minutes, seconds
    and milliseconds. *)
Definition hoursOf (millis : Z) : Z := millis / 3600000.
Definition minutesOf (millis : Z) : Z := millis / 60000 mod 60.
Definition secondsOf (millis : Z) : Z := millis / 1000 mod 60.
Definition millisOf (millis : Z) : Z := millis mod 1000.

(** [HH:MM:SS,mmm] for a millisecond count below 100 hours. *)
Definition clockText (millis : Z) : jsstring :=
  twoDigits (hoursOf millis) ++ lit ":" ++ twoDigits (minutesOf millis) ++ lit ":"
  ++ twoDigits (secondsOf millis) ++ lit "," ++ threeDigits (millisOf millis).

(** ** Line-wrapping notions *)

Definition noWhite (s : jsstring) : Prop := Forall (fun c => isWhite c = false) s.

(** Total number of code units in a list of strings. *)
Definition totalLength (parts : list jsstring) : nat := length (concat parts).

(** A segment that carries display text but no word list. *)
Definition textSegment (text : jsstring) (a b : Z) : SubtitleSegment :=
  {| seg_start := a; seg_end := b; seg_speaker := SpkNull;
     seg_tokens := None; seg_text := Some text; sentence_break := false;
     prefix_ellipsis := false; suffix_ellipsis := false |}.

(** One hundred letters [a], as a bare text and as a token spoken over
    five seconds. *)
Definition run100 : jsstring := repeat 97%N 100.

Definition tokenRun100 : Token :=
  {| t_text := Some run100; t_start_ms := Some 0; t_end_ms := Some 5000;
     t_speaker := SpkUndefined; t_prefix_space := false |}.

(** ** Notions for the entry point *)

(** The writes recorded in a world. *)
Definition writesOf (w : IO.world) : list IO.event := filter IO.isWrite (IO.trace w).

(** Nothing was written between [w] and [w']. *)
Definition nothingWritten (w w' : IO.world) : Prop :=
  IO.files w' = IO.files w /\ writesOf w' = writesOf w.

Definition isRet {A} (o : outcome A) : bool :=
  match o with Ret _ => true | _ => false end.

(** A transcript whose token list is empty, and one whose only token is
    white space. *)
Definition emptyTranscript : json := JObj [(lit "tokens", JArr [])].

Definition blankTranscript : json :=
  JObj [(lit "tokens", JArr [JObj [(lit "text", JStr (lit " "))]])].

Definition emptyWorld : IO.world := {| IO.files := []; IO.trace := [] |}.

(** A computation that never writes, and one that writes only if it
    returns. *)
Definition quiet {A} (m : IO.M A) : Prop :=
  forall w, nothingWritten w (snd (m w)).

Definition failsClean {A} (m : IO.M A) : Prop :=
  forall w, isRet (fst (m w)) = false -> nothingWritten w (snd (m w)).

(** ** Notions for the further properties *)

(** A segment as [closeSegment] pushes it: a non-empty word list with
    non-empty text, no free text, no ellipsis marker, and for speaker the
    first non-empty speaker of its words, [null] when there is none. *)
Definition built (s : SubtitleSegment) : Prop :=
  (exists w ws, seg_tokens s = Some (w :: ws))
  /\ segmentText s <> []
  /\ seg_text s = None
  /\ prefix_ellipsis s = false /\ suffix_ellipsis s = false
  /\ seg_speaker s = orNull (firstNonEmpty (map w_speaker (tokensOf s))).

Definition noEllipsis (s : SubtitleSegment) : Prop :=
  prefix_ellipsis s = false /\ suffix_ellipsis s = false.

(** No two neighbours of [l] pass the merge test. *)
Definition unmergeable (config : SubtitleConfig) (l : list SubtitleSegment) : Prop :=
  forall i a b, nth_error l i = Some a -> nth_error l (S i) = Some b ->
                mergeable config a b = false.

(** The characters of [s] that are not white space, in order; their
    number is [charsForCps s]. *)
Definition visibleChars (s : jsstring) : jsstring :=
  filter (fun c => negb (isWhite c)) s.

(** A word that shows at least one character. *)
Definition visibleWord (w : WordToken) : bool := nonEmpty (visibleChars (w_text w)).

Definition textsOf (ws : list WordToken) : jsstring := join (map w_text ws).

Definition hasWords (s : SubtitleSegment) : Prop := seg_tokens s <> None.

(** The visible characters of all the tokens of a transcript. *)
Definition visibleOfTokens (tokens : list Token) : jsstring :=
  visibleChars (join (map rawTextOf tokens)).

Module BuildSpec.
Import Build.

(** The words the segmenter holds: those of the closed segments, then
    those of the open one. *)
Definition flat (st : state) : list WordToken := flatWords (segments st) ++ current st.

(** What every rule of a step keeps: the shape of the closed segments,
    the visible words, and any property of all the words held. *)
Definition keeps (P : WordToken -> Prop) (st st' : state) : Prop :=
  (Forall built (segments st) -> Forall built (segments st'))
  /\ filter visibleWord (flat st') = filter visibleWord (flat st)
  /\ (Forall P (flat st) -> Forall P (flat st')).

End BuildSpec.

(** [config] with its [split_on_speaker] flag set to [b]. *)
Definition withSplitOnSpeaker (b : bool) (config : SubtitleConfig) : SubtitleConfig :=
  {| gap_ms := gap_ms config;
     min_dur_ms := min_dur_ms config;
     max_dur_ms := max_dur_ms config;
     max_cps := max_cps config;
     max_cpl := max_cpl config;
     max_lines := max_lines config;
     line_split_delimiters := line_split_delimiters config;
     segment_on_sentence := segment_on_sentence config;
     split_on_speaker := b;
     ellipses := ellipses config |}.

(** A word as [flush] pushes it: at least one member token, no speaker. *)
Definition assembled (w : WordToken) : Prop :=
  w_speaker w = SpkUndefined /\ w_inner w <> [].

Definition unspoken (w : WordToken) : Prop := w_speaker w = SpkUndefined.


(** Some index strictly inside the word list is safe. *)
Definition someSafe (tokens : list WordToken) : Prop :=
  exists k, (0 < k < length tokens)%nat /\ isSafeAt tokens k = true.

(** The total length of the first [k] words, as [cumulative[k - 1]]. *)
Definition lengthUpTo (tokens : list WordToken) (k : nat) : nat :=
  length (textsOf (firstn k tokens)).

(** The boundary in front of word [k] passes [safeBoundary]. *)
Definition safeBefore (tokens : list WordToken) (k : nat) : bool :=
  safeBoundary (textAt tokens (k - 1)) (textAt tokens k).

(** How far the boundary in front of word [k] is from the midpoint. *)
Definition offMid (tokens : list WordToken) (k : nat) : nat :=
  absDiff (lengthUpTo tokens k) (length (textsOf tokens) / 2).

(** A line that respects the characters-per-line limit. *)
Definition fits (maxCpl : Z) (line : jsstring) : Prop := lenZ line <= maxCpl.

(** The two lines obtained by breaking a cue after its word [i]. *)
Definition cutAfter (tokens : list WordToken) (i : nat) : list jsstring :=
  [trimEnd (concatText (firstn (i + 1) tokens));
   trimStart (concatText (skipn (i + 1) tokens))].

(** One cue of an SubRip file: number, timing line, text lines, blank line. *)
Definition cueBlock (entry : SubtitleEntry) : jsstring :=
  toString (Z.of_nat (index entry)) ++ [NEWLINE]
  ++ (formatTimestamp (inject_Z (start_ms entry)) ++ lit " --> "
      ++ formatTimestamp (inject_Z (end_ms entry))) ++ [NEWLINE]
  ++ concat (map (fun line => line ++ [NEWLINE]) (lines entry))
  ++ [NEWLINE].

(** ** The configuration constructor and the command line *)

(** [SubtitleConfigOptions]: every option may be left out. *)
Module Options.
Record t := {
  gapMs : option Z;
  minDurMs : option Z;
  maxDurMs : option Z;
  maxCps : option Double.t;
  maxCpl : option Z;
  maxLines : option Z;
  lineSplitDelimiters : option (list jsstring);
  segmentOnSentence : option bool;
  splitOnSpeaker : option bool;
  ellipses : option bool
}.

(** [{}]. *)
Definition none : t :=
  {| gapMs := None; minDurMs := None; maxDurMs := None; maxCps := None;
     maxCpl := None; maxLines := None; lineSplitDelimiters := None;
     segmentOnSentence := None; splitOnSpeaker := None; ellipses := None |}.
End Options.

(** [Array.from(new Set(values))]: first occurrences, in order; [seen] is
    what the set already holds. *)
Fixpoint dedupe (seen values : list jsstring) : list jsstring :=
  match values with
  | [] => []
  | value :: rest =>
      if inSet seen value then dedupe seen rest
      else value :: dedupe (value :: seen) rest
  end.

(** [new SubtitleConfig(options)]. *)
Definition newSubtitleConfig (options : Options.t) : SubtitleConfig :=
  let delimiters := orElse (Options.lineSplitDelimiters options) [] in
  let deduped :=
    dedupe [] (filter (fun value => (0 <? length (trim value))%nat) delimiters) in
  {| gap_ms := orElse (Options.gapMs options) DEFAULT_GAP_MS;
     min_dur_ms := orElse (Options.minDurMs options) DEFAULT_MIN_DUR_MS;
     max_dur_ms := orElse (Options.maxDurMs options) DEFAULT_MAX_DUR_MS;
     max_cps := orElse (Options.maxCps options) DEFAULT_MAX_CPS;
     max_cpl := orElse (Options.maxCpl options) 42;
     max_lines := orElse (Options.maxLines options) 2;
     line_split_delimiters := deduped;
     segment_on_sentence := orElse (Options.segmentOnSentence options) false;
     split_on_speaker := orElse (Options.splitOnSpeaker options) false;
     ellipses := orElse (Options.ellipses options) false |}.

(** The command line's [--line-split-delimiters <chars>]:
    [chars.split("").map(v => v.trim()).filter(v => v.length > 0)]. *)
Definition cliDelimiters (chars : jsstring) : list jsstring :=
  filter (fun value => (0 <? length value)%nat)
         (map trim (map (fun c => [c]) chars)).

(** The options object the command line builds around its delimiters. *)
Definition withDelimiters (delimiters : list jsstring) (options : Options.t)
    : Options.t :=
  {| Options.gapMs := Options.gapMs options;
     Options.minDurMs := Options.minDurMs options;
     Options.maxDurMs := Options.maxDurMs options;
     Options.maxCps := Options.maxCps options;
     Options.maxCpl := Options.maxCpl options;
     Options.maxLines := Options.maxLines options;
     Options.lineSplitDelimiters := Some delimiters;
     Options.segmentOnSentence := Options.segmentOnSentence options;
     Options.splitOnSpeaker := Options.splitOnSpeaker options;
     Options.ellipses := Options.ellipses options |}.

(** ** What a word is made of *)

(** The text a member token contributes to its word. *)
Definition cleanText (t : Token) : jsstring := trimStart (rawTextOf t).

Definition composedText (prefixSpace : bool) (members : list Token) : jsstring :=
  (if prefixSpace then [SPACE] else []) ++ join (map cleanText members).

(** Member tokens of one word: each has text; the first is flagged or
    begins with a visible character; no later one begins with white space. *)
Definition membersOf (members : list Token) : Prop :=
  match members with
  | [] => True
  | first :: rest =>
      hasText first = true
      /\ (t_prefix_space first = true \/ startsWhite (rawTextOf first) = false)
      /\ Forall (fun t => hasText t = true /\ startsWhite (rawTextOf t) = false) rest
  end.

(** A word as the assembler pushes it ([leading = false]) or as
    [tokensToWords] returns the first one ([leading = true]). *)
Definition madeOf (leading : bool) (w : WordToken) : Prop :=
  w_inner w <> []
  /\ membersOf (w_inner w)
  /\ Some (w_prefix_space w) = option_map t_prefix_space (hd_error (w_inner w))
  /\ w_text w = (if leading then trimStart else fun s => s)
                  (composedText (w_prefix_space w) (w_inner w))
  /\ (leading = false -> w_text w <> []).

Module WordsMade.
Import Words.

Definition inv (st : state) : Prop :=
  Forall (madeOf false) (words st)
  /\ currentText st = map cleanText (currentTokens st)
  /\ membersOf (currentTokens st).

End WordsMade.

(** ** Continuation marks *)

(** A cue never carries both marks, and none when the option is off. *)
Definition marksOK (config : SubtitleConfig) (s : SubtitleSegment) : Prop :=
  prefix_ellipsis s && suffix_ellipsis s = false
  /\ (ellipses config = false -> noEllipsis s).

(** No mark before the first cue. *)
Definition firstClean (l : list SubtitleSegment) : Prop :=
  forall s, hd_error l = Some s -> prefix_ellipsis s = false.

(** No mark after the last cue. *)
Definition lastClean (l : list SubtitleSegment) : Prop :=
  forall s, lastOf l = Some s -> suffix_ellipsis s = false.

(** ** Order notions *)

(** [l'] is [l] with some elements left out. *)
Inductive Subseq {A : Type} : list A -> list A -> Prop :=
| Subseq_nil : Subseq [] []
| Subseq_skip x l' l : Subseq l' l -> Subseq l' (x :: l)
| Subseq_keep x l' l : Subseq l' l -> Subseq (x :: l') (x :: l).

(** Tokens that do not overlap in time: every token carries both timings,
    starts no later than it ends, and no earlier than its predecessor ends. *)
Fixpoint separatedFrom (lo : option Z) (tokens : list Token) : bool :=
  match tokens with
  | [] => true
  | t :: rest =>
      match t_start_ms t, t_end_ms t with
      | Some s, Some e =>
          match lo with Some l => l <=? s | None => true end
          && (s <=? e) && separatedFrom (Some e) rest
      | _, _ => false
      end
  end.

Definition separated (tokens : list Token) : Prop :=
  separatedFrom None tokens = true.

(** Word [a] is over when word [b] begins. *)
Definition before (a b : WordToken) : Prop := w_end_ms a <= w_start_ms b.

(** A segment that ends when one of its words ends. *)
Definition endsAtWord (s : SubtitleSegment) : Prop :=
  exists w, In w (tokensOf s) /\ seg_end s = w_end_ms w.

Module WordsApart.
Import Words.

Definition inv (hi : option Z) (st : state) : Prop :=
  Forall wordTimed (words st)
  /\ StronglySorted before (words st)
  /\ Forall (fun w => below hi (w_end_ms w)) (words st)
  /\ match currentTokens st with
     | [] => currentStart st = None /\ currentEnd st = None
     | _ :: _ =>
         exists cs ce,
           currentStart st = Some cs /\ currentEnd st = Some ce
           /\ cs <= ce /\ below hi ce
           /\ Forall (fun w => w_end_ms w <= cs) (words st)
     end.

End WordsApart.

(** ** Sentence notions *)

(** The word closes a sentence, as the segmenter's sentence rule sees it. *)
Definition endsSentence (segmentOnSentence : bool) (w : WordToken) : bool :=
  Build.isSentenceEnd segmentOnSentence (w_text w).

(** No word but the last closes a sentence; and the last one does only
    when the segment is marked as a sentence break. *)
Definition sentenceAtEnd (b : bool) (s : SubtitleSegment) : Prop :=
  (forall i w, nth_error (tokensOf s) i = Some w ->
               (S i < length (tokensOf s))%nat -> endsSentence b w = false)
  /\ (sentence_break s = false ->
      Forall (fun w => endsSentence b w = false) (tokensOf s)).

Module BuildSentences.
Import Build.

Definition inv (b : bool) (st : state) : Prop :=
  Forall (sentenceAtEnd b) (segments st)
  /\ Forall (fun w => endsSentence b w = false) (current st).

End BuildSentences.

(** ** Nested transcripts *)

(** A part of a transcript that holds its own non-empty token list and
    nothing under a nested key. *)
Definition holdsTokens (part : json) (tokens : list json) : Prop :=
  exists fields,
    part = JObj fields
    /\ tokensArray fields = Some tokens
    /\ Forall (fun key => lookup key fields = None) NESTED_TOKEN_KEYS.

(** A transcript without tokens of its own whose parts sit under [key]. *)
Definition partsUnder (key : jsstring) (parts : list json)
    (fields : list (jsstring * json)) : Prop :=
  tokensArray fields = None
  /\ Forall (fun k => lookup k fields
                      = if str_eqb k key then Some (JArr parts) else None)
            NESTED_TOKEN_KEYS.

(** ** Packing notions *)

(** The chunks of one line, joined by single spaces. *)
Definition spaced (group : list jsstring) : jsstring :=
  match group with
  | [] => []
  | chunk :: rest => fold_left (fun line c => line ++ [SPACE] ++ c) rest chunk
  end.

(** [groups] cuts [chunks] into at most [n] consecutive non-empty runs,
    each of which fits on a line. *)
Definition Packs (maxCpl : Z) (n : nat) (chunks : list jsstring)
    (groups : list (list jsstring)) : Prop :=
  concat groups = chunks
  /\ (length groups <= n)%nat
  /\ Forall (fun g => g <> [] /\ lenZ (spaced g) <= maxCpl) groups.

(** The token closes its word: its text ends in a sentence or
    minor-break mark, or is a single CJK character. *)
Definition closes (t : Token) : bool := Words.closesWord (cleanText t).

(** Only the last member of the word closes it. *)
Definition closedAtEnd (members : list Token) : Prop :=
  forall i t, nth_error members i = Some t ->
              (S i < length members)%nat -> closes t = false.

Module WordsClosed.
Import Words.

Definition inv (st : state) : Prop :=
  Forall (fun w => closedAtEnd (w_inner w)) (words st)
  /\ Forall (fun t => closes t = false) (currentTokens st).

End WordsClosed.

(** * Properties *)

(** ** Strings *)

Lemma trimStart_app_trimStart (a b : jsstring) :
  trimStart (trimStart a ++ b) = trimStart (a ++ b).
Proof.
  induction a as [|c a IH]; simpl; [reflexivity|].
  destruct (isWhite c) eqn:Hc; [exact IH|].
  simpl. rewrite Hc. reflexivity.
Qed.

Lemma trim_app_trimStart (a b : jsstring) :
  trim (trimStart a ++ b) = trim (a ++ b).
Proof. unfold trim. now rewrite trimStart_app_trimStart. Qed.

(** ** Word assembler *)

Module WordsFacts.
Import Words WordsSpec.

Lemma flush_empty st : currentTokens (flush st) = [].
Proof. unfold flush. destruct (currentTokens st) eqn:E; simpl; auto. Qed.

Lemma flush_wf st : wf st -> wf (flush st).
Proof.
  unfold wf, flush. destruct (currentTokens st) eqn:E; simpl; auto.
Qed.

Lemma flush_covered st : covered (flush st) = covered st.
Proof.
  unfold covered, flush. destruct (currentTokens st) as [|t ts] eqn:E.
  - now rewrite E.
  - simpl. rewrite map_app, concat_app. simpl. now rewrite !app_nil_r.
Qed.

Lemma flush_written st : written (flush st) = written st.
Proof.
  unfold written, pending, flush. destruct (currentTokens st) as [|t ts] eqn:E.
  - now rewrite E.
  - simpl. unfold join. rewrite map_app, concat_app. simpl.
    now rewrite !app_nil_r.
Qed.

Lemma add_wf t txt p st : wf (addToCurrent t txt p st).
Proof.
  unfold wf, addToCurrent; simpl. intros H.
  now destruct (currentTokens st).
Qed.

Lemma add_covered t txt p st :
  covered (addToCurrent t txt p st)
  = covered st ++ [if p then set_prefix_space t else t].
Proof. unfold covered, addToCurrent; simpl. now rewrite app_assoc. Qed.

Lemma add_written_open t txt p st :
  currentTokens st <> [] ->
  written (addToCurrent t txt p st) = written st ++ txt.
Proof.
  unfold written, pending, addToCurrent; simpl. intros Hne.
  destruct (currentTokens st) as [|f fs]; [contradiction|]. simpl.
  unfold join. rewrite concat_app. simpl.
  now rewrite app_nil_r, <- !app_assoc.
Qed.

Lemma add_written_fresh t txt p st :
  wf st -> currentTokens st = [] ->
  written (addToCurrent t txt p st)
  = written st
    ++ (if t_prefix_space (if p then set_prefix_space t else t)
        then [SPACE] else []) ++ txt.
Proof.
  unfold written, pending, addToCurrent; simpl. intros Hwf E.
  rewrite (Hwf E), E. simpl. now rewrite !app_nil_r.
Qed.

Lemma step_wf st t : wf st -> wf (step st t).
Proof.
  intros Hwf. unfold step. destruct (rawTextOf t) as [|c0 raw]; [exact Hwf|].
  match goal with |- wf (if ?b then flush ?s else ?s) =>
    assert (H : wf s); [|destruct b; [apply flush_wf|]; exact H] end.
  destruct (isWhite c0); [apply add_wf|].
  destruct (currentTokens st); [apply add_wf|].
  repeat match goal with |- wf (if ?b then _ else _) => destruct b end;
    apply add_wf.
Qed.

Lemma step_covered st t :
  covered (step st t) = covered st ++ (if hasText t then [marked t] else []).
Proof.
  unfold step, hasText, marked. destruct (rawTextOf t) as [|c0 raw] eqn:Eraw; simpl.
  - now rewrite app_nil_r.
  - match goal with |- covered (if ?b then flush ?s else ?s) = _ =>
      assert (H : covered (if b then flush s else s) = covered s)
        by (destruct b; [apply flush_covered | reflexivity]);
      rewrite H; clear H end.
    destruct (isWhite c0).
    + now rewrite add_covered, flush_covered.
    + destruct (currentTokens st) eqn:E.
      * now rewrite add_covered.
      * repeat match goal with |- covered (if ?b then _ else _) = _ => destruct b end;
          rewrite add_covered, ?flush_covered; reflexivity.
Qed.

Lemma step_written st t :
  wf st -> flagSound t ->
  written (step st t) = written st ++ normalisedText t.
Proof.
  intros Hwf Hflag. unfold step, normalisedText.
  unfold flagSound in Hflag.
  destruct (rawTextOf t) as [|c0 raw] eqn:Eraw.
  - simpl. now rewrite app_nil_r.
  - match goal with |- written (if ?b then flush ?s else ?s) = _ =>
      assert (H : written (if b then flush s else s) = written s)
        by (destruct b; [apply flush_written | reflexivity]);
      rewrite H; clear H end.
    simpl startsWhite in *.
    destruct (isWhite c0) eqn:Hw.
    + rewrite add_written_fresh by (auto using flush_wf, flush_empty).
      now rewrite flush_written.
    + assert (Hclean : trimStart (c0 :: raw) = c0 :: raw)
        by (simpl; now rewrite Hw).
      assert (Hf : t_prefix_space t = false)
        by (destruct (t_prefix_space t); [now specialize (Hflag eq_refl)|reflexivity]).
      rewrite Hclean.
      assert (Hfresh : forall s, wf s -> currentTokens s = [] ->
                written (addToCurrent t (c0 :: raw) false s) = written s ++ c0 :: raw).
      { intros s Hs Es. rewrite add_written_fresh by assumption. now rewrite Hf. }
      destruct (currentTokens st) as [|f fs] eqn:E.
      * now apply Hfresh.
      * assert (Hopen : written (addToCurrent t (c0 :: raw) false st)
                        = written st ++ c0 :: raw)
          by (apply add_written_open; now rewrite E).
        repeat match goal with |- written (if ?b then _ else _) = _ => destruct b end;
          try exact Hopen.
        rewrite Hfresh by (auto using flush_wf, flush_empty).
        now rewrite flush_written.
Qed.

Lemma fold_covered tokens : forall st,
  covered (fold_left step tokens st)
  = covered st ++ map marked (filter hasText tokens).
Proof.
  induction tokens as [|t ts IH]; simpl; intros st.
  - now rewrite app_nil_r.
  - rewrite IH, step_covered. destruct (hasText t); simpl.
    + now rewrite <- app_assoc.
    + now rewrite app_nil_r.
Qed.

Lemma fold_written tokens : forall st,
  wf st -> Forall flagSound tokens ->
  written (fold_left step tokens st)
  = written st ++ join (map normalisedText tokens).
Proof.
  induction tokens as [|t ts IH]; simpl; intros st Hwf Hall.
  - now rewrite app_nil_r.
  - inversion Hall; subst.
    rewrite IH by (auto using step_wf).
    rewrite step_written by assumption. now rewrite <- app_assoc.
Qed.

Lemma run_covered tokens :
  concat (map w_inner (words (run tokens))) = map marked (filter hasText tokens).
Proof.
  pose proof (flush_covered (fold_left step tokens init)) as H.
  rewrite fold_covered in H. unfold covered in H.
  fold (run tokens) in H. unfold run in H at 2. rewrite flush_empty in H.
  rewrite app_nil_r in H. exact H.
Qed.

Lemma run_written tokens :
  Forall flagSound tokens ->
  join (map w_text (words (run tokens))) = join (map normalisedText tokens).
Proof.
  intros Hall.
  pose proof (flush_written (fold_left step tokens init)) as H.
  rewrite fold_written in H by (auto; unfold wf; reflexivity).
  unfold written, pending in H. fold (run tokens) in H.
  unfold run in H at 2. rewrite flush_empty in H.
  rewrite app_nil_r in H. exact H.
Qed.

End WordsFacts.

Lemma tokensToWords_inner tokens :
  map w_inner (tokensToWords tokens) = map w_inner (Words.words (Words.run tokens)).
Proof.
  unfold tokensToWords. destruct (Words.words (Words.run tokens)) as [|w0 rest];
    [reflexivity|].
  now destruct (startsWithSpace (w_text w0)).
Qed.

Lemma tokensToWords_text tokens :
  trim (join (map w_text (tokensToWords tokens)))
  = trim (join (map w_text (Words.words (Words.run tokens)))).
Proof.
  unfold tokensToWords. destruct (Words.words (Words.run tokens)) as [|w0 rest];
    [reflexivity|].
  destruct (startsWithSpace (w_text w0)); [|reflexivity].
  unfold join. simpl. apply trim_app_trimStart.
Qed.

(** C1 (as amended): for every token sequence the words' member lists,
    concatenated, are exactly the tokens with non-empty text, in input
    order (so no token belongs to two words, and only empty-text tokens
    belong to none); and when the leading-space marker sits only on tokens
    whose text begins with white space (as it does when no token carries
    one beforehand), the trimmed concatenation of the word texts is the
    trimmed concatenation of the token texts once every leading
    white-space run is collapsed to a single space. *)
Theorem tokensToWords_conservation (tokens : list Token) :
  concat (map w_inner (tokensToWords tokens)) = map marked (filter hasText tokens)
  /\ (Forall flagSound tokens ->
      trim (join (map w_text (tokensToWords tokens)))
      = trim (join (map normalisedText tokens))).
Proof.
  split.
  - rewrite tokensToWords_inner. apply WordsFacts.run_covered.
  - intros Hall. rewrite tokensToWords_text. now rewrite WordsFacts.run_written.
Qed.

Lemma tokensToWords_conservation_witness :
  let tokens := [mkToken "Hello" 0 500; mkToken " world" 500 1000;
                 mkToken "." 1000 1000] in
  Forall flagSound tokens
  /\ concat (map w_inner (tokensToWords tokens)) = map marked (filter hasText tokens)
  /\ trim (join (map w_text (tokensToWords tokens)))
     = trim (join (map normalisedText tokens)).
Proof.
  intros tokens.
  assert (H : Forall flagSound tokens)
    by (repeat constructor; unfold flagSound; simpl; discriminate).
  split; [exact H|]. split.
  - exact (proj1 (tokensToWords_conservation tokens)).
  - exact (proj2 (tokensToWords_conservation tokens) H).
Defined.

(** C1 (as stated) fails: a token whose text is empty belongs to no word;
    a token that begins with two spaces contributes only one; and a token
    that already carries the leading-space marker gets a space in front
    when it starts a word, which its text does not have. *)
Lemma tokensToWords_conservation_counterexample :
  let tokens := [mkToken "a" 0 100; mkToken "" 100 100; mkToken "  b" 100 200] in
  let stale := [mkToken "a." 0 100; set_prefix_space (mkToken "b" 100 200)] in
  ~ In (mkToken "" 100 100) (concat (map w_inner (tokensToWords tokens)))
  /\ trim (join (map w_text (tokensToWords tokens)))
     <> trim (join (map rawTextOf tokens))
  /\ ~ Forall flagSound stale
  /\ trim (join (map w_text (tokensToWords stale))) = lit "a. b"
  /\ trim (join (map rawTextOf stale)) = lit "a.b"
  /\ trim (join (map normalisedText stale)) = lit "a.b".
Proof.
  split; [|split; [|split; [|split; [|split]]]].
  - vm_compute. intros [H|[H|[]]]; discriminate H.
  - vm_compute. intros H; discriminate H.
  - intros H. inversion H as [|? ? _ H1]; subst.
    inversion H1 as [|? ? Hb _]; subst. specialize (Hb eq_refl). discriminate Hb.
  - vm_compute. reflexivity.
  - vm_compute. reflexivity.
  - vm_compute. reflexivity.
Qed.

(** ** Split index *)

Lemma searchUp_bounds p : forall count from j,
  searchUp p from count = Some j -> (from <= j < from + count)%nat.
Proof.
  induction count as [|count IH]; simpl; intros from j H; [discriminate|].
  destruct (p from).
  - inversion H; subst; lia.
  - apply IH in H. lia.
Qed.

Lemma searchDown_bounds p : forall from j,
  searchDown p from = Some j -> (1 <= j <= from)%nat.
Proof.
  induction from as [|from IH]; intros j H; [discriminate|].
  simpl in H. destruct (p (S from)).
  - inversion H; subst; lia.
  - apply IH in H. lia.
Qed.

Lemma adjustToSafe_bounds tokens index :
  (0 < index < length tokens)%nat ->
  (0 < adjustToSafe tokens index < length tokens)%nat.
Proof.
  intros Hi. unfold adjustToSafe.
  destruct (isSafeAt tokens index); [exact Hi|].
  destruct (searchUp _ _ _) as [j|] eqn:Eup.
  - apply searchUp_bounds in Eup. lia.
  - destruct (searchDown _ _) as [j|] eqn:Edn; [|exact Hi].
    apply searchDown_bounds in Edn. lia.
Qed.

Lemma safeAfterFrom_bounds : forall texts i0 k,
  In k (safeAfterFrom i0 texts) -> (i0 < k < i0 + length texts)%nat.
Proof.
  induction texts as [|txt rest IH]; intros i0 k H; [contradiction|].
  destruct rest as [|next rest']; [contradiction|].
  cbn [safeAfterFrom] in H.
  assert (Hrec : In k (safeAfterFrom (S i0) (next :: rest')) ->
                 (i0 < k < i0 + length (txt :: next :: rest'))%nat).
  { intros Hin. apply IH in Hin. simpl in *. lia. }
  destruct (safeBoundary txt next); [|now apply Hrec].
  destruct H as [<-|H]; [simpl; lia | now apply Hrec].
Qed.

Lemma closest_in cumulative midChars : forall candidates bestIndex bestDelta,
  closest cumulative midChars candidates bestIndex bestDelta = bestIndex
  \/ In (closest cumulative midChars candidates bestIndex bestDelta) candidates.
Proof.
  induction candidates as [|c rest IH]; intros bestIndex bestDelta; simpl.
  - now left.
  - destruct (_ <? _)%nat.
    + destruct (IH c (absDiff (nth (c - 1) cumulative 0%nat) midChars)) as [->|H]; auto.
    + destruct (IH bestIndex bestDelta) as [->|H]; auto.
Qed.

Lemma findSplitIndex_bounds tokens :
  (2 <= length tokens)%nat ->
  (0 < findSplitIndex tokens < length tokens)%nat.
Proof.
  intros Hn. unfold findSplitIndex.
  destruct (length tokens <=? 1)%nat eqn:E; [apply Nat.leb_le in E; lia|].
  destruct (safeAfterFrom 0 (map w_text tokens)) as [|first rest] eqn:Esafe.
  - set (mid := (length tokens / 2)%nat).
    assert (Hmid : (0 < mid < length tokens)%nat).
    { subst mid. split.
      - apply Nat.div_str_pos. lia.
      - apply Nat.div_lt; lia. }
    destruct (searchDown _ mid) as [i|] eqn:Edn.
    + apply searchDown_bounds in Edn. apply adjustToSafe_bounds. lia.
    + destruct (searchUp _ _ _) as [i|] eqn:Eup.
      * apply searchUp_bounds in Eup. apply adjustToSafe_bounds. lia.
      * now apply adjustToSafe_bounds.
  - apply adjustToSafe_bounds.
    assert (Hall : forall k, In k (first :: rest) -> (0 < k < length tokens)%nat).
    { intros k Hk. rewrite <- Esafe in Hk. apply safeAfterFrom_bounds in Hk.
      rewrite length_map in Hk. lia. }
    match goal with |- (0 < closest ?c ?m ?l ?b ?d < _)%nat =>
      destruct (closest_in c m l b d) as [->|Hin] end.
    + apply Hall. now left.
    + now apply Hall.
Qed.

(** ** Split phase: the queue computes the recursive decomposition *)

Lemma cost_pos seg : (1 <= cost seg)%nat.
Proof. unfold cost. lia. Qed.

Lemma cost_fuel seg : (cost seg <= splitFuel seg)%nat.
Proof. unfold cost, splitFuel. lia. Qed.

Lemma tokensOf_child current tokens first lastw sb p s :
  tokensOf (child current tokens first lastw sb p s) = tokens.
Proof. reflexivity. Qed.

Lemma mustSplit_words config seg :
  mustSplit config seg = true -> (2 <= length (tokensOf seg))%nat.
Proof.
  unfold mustSplit. intros H. apply andb_prop in H as [_ H].
  apply Nat.ltb_lt in H. lia.
Qed.

(** A segment that must be split has a first word on either side of the
    split index, and its children together cost less than it does. *)
Lemma split_children config seg :
  mustSplit config seg = true ->
  let idx := findSplitIndex (tokensOf seg) in
  exists l0 r0,
    hd_error (firstn idx (tokensOf seg)) = Some l0
    /\ hd_error (skipn idx (tokensOf seg)) = Some r0
    /\ (cost (leftChild config seg idx l0) + cost (rightChild config seg idx r0)
        < cost seg)%nat.
Proof.
  intros Hsplit idx. apply mustSplit_words in Hsplit.
  pose proof (findSplitIndex_bounds _ Hsplit) as Hidx. fold idx in Hidx.
  assert (Hl : length (firstn idx (tokensOf seg)) = idx)
    by (rewrite length_firstn; lia).
  assert (Hr : length (skipn idx (tokensOf seg)) = (length (tokensOf seg) - idx)%nat)
    by apply length_skipn.
  destruct (firstn idx (tokensOf seg)) as [|l0 ls] eqn:El; [simpl in Hl; lia|].
  destruct (skipn idx (tokensOf seg)) as [|r0 rs] eqn:Er; [simpl in Hr; lia|].
  exists l0, r0. repeat split.
  unfold cost, leftChild, rightChild. rewrite !tokensOf_child, El, Er, Hl, Hr. lia.
Qed.

Lemma splitLoop_spec config : forall fuel queue out,
  (queueCost queue <= fuel)%nat ->
  exists outs,
    Forall2 (Splits config) queue outs
    /\ splitLoop fuel config queue out = Ret (out ++ concat outs).
Proof.
  induction fuel as [|fuel IH]; intros queue out Hfuel.
  - destruct queue as [|current queue'].
    + exists []. split; [constructor | simpl; now rewrite app_nil_r].
    + simpl in Hfuel. pose proof (cost_pos current). lia.
  - destruct queue as [|current queue'].
    + exists []. split; [constructor | simpl; now rewrite app_nil_r].
    + simpl in Hfuel. cbn [splitLoop].
      fold (mustSplit config current).
      destruct (mustSplit config current) eqn:Hsplit.
      * destruct (split_children config current Hsplit) as (l0 & r0 & Hl & Hr & Hcost).
        set (idx := findSplitIndex (tokensOf current)) in *.
        destruct (firstn idx (tokensOf current)) as [|l0' ls] eqn:El; [discriminate|].
        destruct (skipn idx (tokensOf current)) as [|r0' rs] eqn:Er; [discriminate|].
        simpl in Hl, Hr. inversion Hl; inversion Hr; subst l0' r0'.
        destruct (IH (leftChild config current idx l0
                      :: rightChild config current idx r0 :: queue') out)
          as (outs & Hall & Hrun); [simpl; lia|].
        inversion Hall as [|? lo ? outs1 Hlo Hall1]; subst.
        inversion Hall1 as [|? ro ? outs2 Hro Hall2]; subst.
        exists ((lo ++ ro) :: outs2). split.
        -- constructor; [|exact Hall2].
           eapply Splits_node; eauto; fold idx; rewrite ?El, ?Er; reflexivity.
        -- unfold leftChild, rightChild in Hrun. rewrite El, Er in Hrun.
           rewrite Hrun. simpl. now rewrite <- app_assoc.
      * destruct (IH queue' (out ++ [current])) as (outs & Hall & Hrun);
          [pose proof (cost_pos current); lia|].
        exists ([current] :: outs). split.
        -- constructor; [now apply Splits_leaf | exact Hall].
        -- rewrite Hrun. simpl. now rewrite <- app_assoc.
Qed.

Lemma splitPhase_spec config : forall segments out,
  exists outs,
    Forall2 (Splits config) segments outs
    /\ splitPhase config segments out = Ret (out ++ concat outs).
Proof.
  induction segments as [|segment rest IH]; intros out.
  - exists []. split; [constructor | simpl; now rewrite app_nil_r].
  - destruct (splitLoop_spec config (splitFuel segment) [segment] out)
      as (outs1 & Hall1 & Hrun1).
    { simpl. pose proof (cost_fuel segment). lia. }
    inversion Hall1 as [|? o1 ? rest1 Ho1 Hnil]; subst. inversion Hnil; subst.
    destruct (IH (out ++ concat [o1])) as (outs & Hall & Hrun).
    exists (o1 :: outs). split; [now constructor|].
    cbn [splitPhase]. rewrite Hrun1. cbn [bind]. rewrite Hrun. simpl.
    now rewrite app_nil_r, <- app_assoc.
Qed.

(** C6: for at least two words [findSplitIndex] lies strictly inside the
    word list, so both slices are non-empty and shorter than the parent;
    the split phase returns on every input (it neither throws nor runs
    out of iterations), and a segment of at most one word is emitted as it
    is whatever its budgets. *)
Theorem split_phase_terminates :
  (forall tokens : list WordToken,
      (2 <= length tokens)%nat ->
      let idx := findSplitIndex tokens in
      (0 < idx < length tokens)%nat
      /\ (0 < length (firstn idx tokens) < length tokens)%nat
      /\ (0 < length (skipn idx tokens) < length tokens)%nat)
  /\ (forall config segments, exists out, splitPhase config segments [] = Ret out)
  /\ (forall config seg,
        (length (tokensOf seg) <= 1)%nat -> splitPhase config [seg] [] = Ret [seg]).
Proof.
  split; [|split].
  - intros tokens Hn idx. pose proof (findSplitIndex_bounds tokens Hn) as H.
    fold idx in H. rewrite length_firstn, length_skipn. lia.
  - intros config segments.
    destruct (splitPhase_spec config segments []) as (outs & _ & Hrun).
    eexists. exact Hrun.
  - intros config seg Hlen. unfold splitPhase, splitFuel, bind.
    replace (2 * length (tokensOf seg) + 1)%nat
      with (S (2 * length (tokensOf seg))) by lia.
    cbn [splitLoop].
    replace (1 <? length (tokensOf seg))%nat with false
      by (symmetry; apply Nat.ltb_ge; lia).
    rewrite andb_false_r.
    destruct (2 * length (tokensOf seg))%nat; reflexivity.
Qed.

Lemma split_phase_terminates_witness :
  let tokens := [mkWord "one" 0 100; mkWord " two" 100 200; mkWord " three" 200 300] in
  let seg := mkSegment [mkWord "lonely" 0 10] 0 10 in
  ((2 <= length tokens)%nat /\ (0 < findSplitIndex tokens < length tokens)%nat)
  /\ ((length (tokensOf seg) <= 1)%nat
      /\ splitPhase defaultConfig [seg] [] = Ret [seg]).
Proof.
  intros tokens seg.
  assert (H2 : (2 <= length tokens)%nat) by (simpl; lia).
  assert (H1 : (length (tokensOf seg) <= 1)%nat) by (simpl; lia).
  split; split; try assumption.
  - exact (proj1 (proj1 split_phase_terminates tokens H2)).
  - exact (proj2 (proj2 split_phase_terminates) defaultConfig seg H1).
Defined.

(** ** Merge phase *)

Lemma mergePass_step config segment next rest :
  mergePass config (segment :: next :: rest)
  = if mergeable config segment next
    then (mergeTwo segment next :: fst (mergePass config rest), true)
    else (segment :: fst (mergePass config (next :: rest)),
          snd (mergePass config (next :: rest))).
Proof.
  change (mergePass config (segment :: next :: rest))
    with (if mergeable config segment next
          then let (merged, _) := mergePass config rest in
               (mergeTwo segment next :: merged, true)
          else let (merged, changed) := mergePass config (next :: rest) in
               (segment :: merged, changed)).
  destruct (mergeable config segment next).
  - now destruct (mergePass config rest).
  - now destruct (mergePass config (next :: rest)).
Qed.

Lemma mergePass_length config : forall n l,
  (length l <= n)%nat ->
  (length (fst (mergePass config l)) <= length l)%nat
  /\ (snd (mergePass config l) = true ->
      (length (fst (mergePass config l)) < length l)%nat).
Proof.
  induction n as [|n IH]; intros l Hn.
  - destruct l; [simpl; split; [lia|discriminate] | simpl in Hn; lia].
  - destruct l as [|segment rest]; [simpl; split; [lia|discriminate]|].
    destruct rest as [|next rest']; [simpl; split; [lia|discriminate]|].
    rewrite mergePass_step. destruct (mergeable config segment next).
    + destruct (IH rest') as [Hle _]; [simpl in Hn; lia|].
      cbn [fst snd length] in *. split; lia.
    + destruct (IH (next :: rest')) as [Hle Hlt]; [simpl in Hn |- *; lia|].
      cbn [fst snd length] in *.
      split; [lia|]. intros Hc. specialize (Hlt Hc). lia.
Qed.

(** A scan that changes nothing returns its input, and found no adjacent
    pair it could have merged. *)
Lemma mergePass_fixed config : forall l merged,
  mergePass config l = (merged, false) ->
  merged = l
  /\ forall i a b, nth_error l i = Some a -> nth_error l (S i) = Some b ->
                   mergeable config a b = false.
Proof.
  induction l as [|segment rest IH]; intros merged H.
  - inversion H. split; [reflexivity|]. intros [|i] a b Ha; discriminate Ha.
  - destruct rest as [|next rest'].
    + inversion H. split; [reflexivity|].
      intros [|i] a b Ha Hb; [discriminate Hb | destruct i; discriminate Ha].
    + rewrite mergePass_step in H. destruct (mergeable config segment next) eqn:Em.
      * discriminate H.
      * destruct (mergePass config (next :: rest')) as [m c] eqn:Erec.
        cbn [fst snd] in H.
        inversion H; subst. destruct (IH m eq_refl) as [-> Hadj].
        split; [reflexivity|].
        intros [|i] a b Ha Hb.
        -- simpl in Ha, Hb. inversion Ha; inversion Hb; subst. exact Em.
        -- apply (Hadj i); assumption.
Qed.

(** The merge loop returns, at a list the scan leaves unchanged, and it
    carries along every property of the list that one scan preserves. *)
Lemma mergeLoop_spec config (P : list SubtitleSegment -> Prop) :
  (forall l, P l -> P (fst (mergePass config l))) ->
  forall fuel l, (length l < fuel)%nat -> P l ->
  exists out, mergeLoop fuel config l = Ret out
              /\ P out /\ mergePass config out = (out, false).
Proof.
  intros Hpres. induction fuel as [|fuel IH]; intros l Hlen HP; [lia|].
  cbn [mergeLoop].
  pose proof (mergePass_length config (length l) l (le_n _)) as [Hle Hlt].
  pose proof (Hpres l HP) as HP'.
  destruct (mergePass config l) as [merged changed] eqn:E. simpl in *.
  destruct changed.
  - apply IH; [specialize (Hlt eq_refl); lia | exact HP'].
  - exists merged. destruct (mergePass_fixed config l merged E) as [-> _].
    repeat split; assumption.
Qed.

Lemma enforceReadability_spec config (P : list SubtitleSegment -> Prop) segments :
  (forall l, P l -> P (fst (mergePass config l))) ->
  (forall outs, Forall2 (Splits config) segments outs -> P (concat outs)) ->
  exists out, enforceReadability segments config = Ret out
              /\ P out /\ mergePass config out = (out, false).
Proof.
  intros Hpres Hsplit. unfold enforceReadability.
  destruct (splitPhase_spec config segments []) as (outs & Hall & Hrun).
  rewrite Hrun. cbn [bind app]. unfold mergePhase.
  apply mergeLoop_spec; auto.
Qed.

(** C5: [enforceReadability] returns, and in what it returns every
    adjacent pair whose left segment is shorter than [min_dur_ms] is kept
    apart either by sentence-boundary preservation or by [max_dur_ms]. *)
Theorem merge_floor (segments : list SubtitleSegment) (config : SubtitleConfig) :
  exists out,
    enforceReadability segments config = Ret out
    /\ forall i a b,
         nth_error out i = Some a -> nth_error out (S i) = Some b ->
         seg_end a - seg_start a < min_dur_ms config ->
         (segment_on_sentence config = true /\ sentence_break a = true)
         \/ max_dur_ms config < seg_end b - seg_start a.
Proof.
  destruct (enforceReadability_spec config (fun _ => True) segments)
    as (out & Hrun & _ & Hfix); auto.
  exists out. split; [exact Hrun|].
  intros i a b Ha Hb Hshort.
  destruct (mergePass_fixed config out out Hfix) as [_ Hadj].
  specialize (Hadj i a b Ha Hb). unfold mergeable in Hadj.
  apply andb_false_iff in Hadj as [Hadj|Hadj].
  - apply andb_false_iff in Hadj as [Hadj|Hadj].
    + apply Z.ltb_ge in Hadj. lia.
    + apply negb_false_iff, andb_prop in Hadj. now left.
  - apply Z.leb_gt in Hadj. now right.
Qed.

Lemma merge_floor_witness :
  let a := mkSegment [mkWord "Hi." 0 500] 0 500 in
  let b := mkSegment [mkWord " Later" 8000 9000] 8000 9000 in
  enforceReadability [a; b] defaultConfig = Ret [a; b]
  /\ seg_end a - seg_start a < min_dur_ms defaultConfig
  /\ ((segment_on_sentence defaultConfig = true /\ sentence_break a = true)
      \/ max_dur_ms defaultConfig < seg_end b - seg_start a).
Proof.
  intros a b.
  destruct (merge_floor [a; b] defaultConfig) as (out & Hrun & Hfloor).
  assert (Hout : Ret out = Ret [a; b]) by (rewrite <- Hrun; reflexivity).
  inversion Hout; subst out.
  assert (Hshort : seg_end a - seg_start a < min_dur_ms defaultConfig)
    by (vm_compute; reflexivity).
  split; [reflexivity|]. split; [exact Hshort|].
  exact (Hfloor 0%nat a b eq_refl eq_refl Hshort).
Defined.

(** ** Budgets *)

Lemma Splits_leaves config seg outs :
  Splits config seg outs -> Forall (fun s => mustSplit config s = false) outs.
Proof.
  induction 1 as [seg Hleaf|seg l0 r0 ls rs _ _ _ _ IHl _ IHr].
  - now constructor.
  - apply Forall_app. now split.
Qed.

Lemma Forall_concat {A} (Q : A -> Prop) (ls : list (list A)) :
  Forall (Forall Q) ls -> Forall Q (concat ls).
Proof.
  induction 1; simpl; [constructor | apply Forall_app; now split].
Qed.

Lemma splitPhase_leaves config segments outs :
  Forall2 (Splits config) segments outs ->
  Forall (fun s => mustSplit config s = false) (concat outs).
Proof.
  intros H. apply Forall_concat.
  induction H; constructor; eauto using Splits_leaves.
Qed.

Lemma leaf_withinBudgets config seg :
  mustSplit config seg = false ->
  (2 <= length (tokensOf seg))%nat ->
  withinBudgets config seg.
Proof.
  unfold mustSplit, overBudget, cpsExceeds, maxCharsOf, withinBudgets.
  intros H Hn. apply andb_false_iff in H as [H|H].
  - apply orb_false_iff in H as [H H3]. apply orb_false_iff in H as [H1 H2].
    apply Z.ltb_ge in H1, H3. auto.
  - apply Nat.ltb_ge in H. lia.
Qed.

(** One scan keeps [Q] on every segment when merging two neighbours that
    have it yields a segment that has it. *)
Lemma mergePass_Forall config (Q : SubtitleSegment -> Prop) :
  (forall a b, mergeable config a b = true -> Q a -> Q b -> Q (mergeTwo a b)) ->
  forall n l, (length l <= n)%nat -> Forall Q l -> Forall Q (fst (mergePass config l)).
Proof.
  intros Hmerge. induction n as [|n IH]; intros l Hn HQ.
  - destruct l; [constructor | simpl in Hn; lia].
  - destruct l as [|segment rest]; [constructor|].
    destruct rest as [|next rest']; [exact HQ|].
    rewrite mergePass_step.
    inversion HQ as [|? ? Qs HQ1]; subst. inversion HQ1 as [|? ? Qn HQ2]; subst.
    destruct (mergeable config segment next) eqn:Em; cbn [fst].
    + constructor; [now apply Hmerge|]. apply IH; [simpl in Hn; lia | exact HQ2].
    + constructor; [exact Qs|]. apply IH; [simpl in Hn |- *; lia | exact HQ1].
Qed.

Lemma mergePass_Fuses config : forall n l runs,
  (length l <= n)%nat -> Forall2 (Fuses config) runs l ->
  exists runs',
    concat runs' = concat runs
    /\ Forall2 (Fuses config) runs' (fst (mergePass config l)).
Proof.
  induction n as [|n IH]; intros l runs Hn Hruns.
  - destruct l; [|simpl in Hn; lia]. inversion Hruns; subst.
    exists []. split; [reflexivity | constructor].
  - destruct l as [|segment rest]; [now exists runs|].
    destruct rest as [|next rest']; [now exists runs|].
    inversion Hruns as [|r1 ? runs1 ? Hr1 Hruns1]; subst.
    inversion Hruns1 as [|r2 ? runs2 ? Hr2 Hruns2]; subst.
    rewrite mergePass_step. destruct (mergeable config segment next) eqn:Em; cbn [fst].
    + destruct (IH rest' runs2) as (runs' & Hcat & Hall);
        [simpl in Hn; lia | exact Hruns2|].
      exists ((r1 ++ r2) :: runs'). split.
      * cbn [concat]. rewrite Hcat. now rewrite <- app_assoc.
      * constructor; [now apply Fuses_two | exact Hall].
    + destruct (IH (next :: rest') (r2 :: runs2)) as (runs' & Hcat & Hall);
        [simpl in Hn |- *; lia | exact Hruns1|].
      exists (r1 :: runs'). split.
      * cbn [concat]. now rewrite Hcat.
      * constructor; [exact Hr1 | exact Hall].
Qed.

Lemma Fuses_singletons config : forall l,
  concat (map (fun s => [s]) l) = l
  /\ Forall2 (Fuses config) (map (fun s => [s]) l) l.
Proof.
  induction l as [|s l [IHc IHf]]; [split; [reflexivity | constructor]|].
  split; [cbn [map concat app]; now rewrite IHc|].
  cbn [map]. constructor; [apply Fuses_one | exact IHf].
Qed.

(** Either the run is one segment, or the result is a merge that passed
    the test. *)
Lemma Fuses_cases config run s :
  Fuses config run s ->
  run = [s] \/ exists a b, s = mergeTwo a b /\ mergeable config a b = true.
Proof. intros H. destruct H; [now left | right; eauto]. Qed.

Lemma Fuses_members config runs out :
  Forall2 (Fuses config) runs out ->
  forall s, In s out ->
    In s (concat runs)
    \/ exists a b, s = mergeTwo a b /\ mergeable config a b = true.
Proof.
  induction 1 as [|run x runs out Hfuse _ IH]; intros s Hs; [contradiction|].
  cbn [concat]. destruct Hs as [<-|Hs].
  - destruct (Fuses_cases _ _ _ Hfuse) as [->|Hm]; [left; now left | now right].
  - destruct (IH s Hs) as [Hin|Hm]; [|now right].
    left. apply in_or_app. now right.
Qed.

(** C2 (as amended): [enforceReadability] returns; every segment of two
    or more words that its split phase emits meets the three budgets, the
    reading speed being the double the code computes; the merge phase that
    follows tests the span only: its output is the split-phase list with
    runs of consecutive segments fused, so a final segment is either a
    split-phase segment or the merge of two neighbours that passed the
    merge test, and every final segment of two or more words spans at most
    [max_dur_ms]. *)
Theorem budget_best_effort (segments : list SubtitleSegment) (config : SubtitleConfig) :
  exists mid runs out,
    splitPhase config segments [] = Ret mid
    /\ enforceReadability segments config = Ret out
    /\ (forall s, In s mid -> (2 <= length (tokensOf s))%nat -> withinBudgets config s)
    /\ concat runs = mid
    /\ Forall2 (Fuses config) runs out
    /\ (forall s, In s out ->
          In s mid \/ exists a b, s = mergeTwo a b /\ mergeable config a b = true)
    /\ (forall s, In s out -> (2 <= length (tokensOf s))%nat ->
                  seg_end s - seg_start s <= max_dur_ms config).
Proof.
  destruct (splitPhase_spec config segments []) as (outs & Hall & Hrun).
  cbn [app] in Hrun. pose proof (splitPhase_leaves _ _ _ Hall) as Hleaves.
  set (mid := concat outs) in *.
  set (Q := fun s => (2 <= length (tokensOf s))%nat ->
                     seg_end s - seg_start s <= max_dur_ms config).
  set (P := fun l => (exists runs, concat runs = mid /\ Forall2 (Fuses config) runs l)
                     /\ Forall Q l).
  assert (Hmerged : forall a b, mergeable config a b = true -> Q a -> Q b ->
                                Q (mergeTwo a b)).
  { intros a b Hm _ _ _. unfold mergeable in Hm. apply andb_prop in Hm as [_ Hm].
    now apply Z.leb_le in Hm. }
  assert (Hscan : forall l, P l -> P (fst (mergePass config l))).
  { intros l [(runs & Hcat & Hruns) HQ]. split.
    - destruct (mergePass_Fuses config (length l) l runs (le_n _) Hruns)
        as (runs' & Hcat' & Hruns').
      exists runs'. split; [congruence | exact Hruns'].
    - now apply (mergePass_Forall config Q Hmerged (length l)). }
  assert (Hmid : P mid).
  { split.
    - exists (map (fun s => [s]) mid). apply Fuses_singletons.
    - apply Forall_forall. intros s Hs Hn. rewrite Forall_forall in Hleaves.
      destruct (leaf_withinBudgets config s (Hleaves s Hs) Hn) as (Hd & _).
      unfold durationOf in Hd. lia. }
  destruct (mergeLoop_spec config P Hscan (S (length mid)) mid
              (Nat.lt_succ_diag_r _) Hmid)
    as (out & Hmerge & [(runs & Hcat & Hruns) HQ] & _).
  exists mid, runs, out. rewrite Forall_forall in HQ, Hleaves.
  split; [exact Hrun|]. split; [unfold enforceReadability; rewrite Hrun; exact Hmerge|].
  split; [intros s Hs Hn; now apply leaf_withinBudgets; [apply Hleaves|]|].
  split; [exact Hcat|]. split; [exact Hruns|]. split; [|intros s Hs; now apply HQ].
  intros s Hs. rewrite <- Hcat. now apply (Fuses_members config runs out).
Qed.

Lemma budget_best_effort_witness :
  let s := mkSegment [mkWord "Good" 0 900; mkWord " morning" 900 2000] 0 2000 in
  enforceReadability [s] defaultConfig = Ret [s]
  /\ (2 <= length (tokensOf s))%nat
  /\ withinBudgets defaultConfig s
  /\ seg_end s - seg_start s <= max_dur_ms defaultConfig.
Proof.
  intros s.
  destruct (budget_best_effort [s] defaultConfig)
    as (mid & runs & out & Hmid & Hout & Hbudget & _ & _ & _ & Hspan).
  assert (Emid : Ret mid = Ret [s]) by (rewrite <- Hmid; reflexivity).
  assert (Eout : Ret out = Ret [s]) by (rewrite <- Hout; reflexivity).
  inversion Emid; inversion Eout; subst mid out.
  assert (Hn : (2 <= length (tokensOf s))%nat) by (simpl; lia).
  split; [reflexivity|]. split; [exact Hn|]. split.
  - exact (Hbudget s (or_introl eq_refl) Hn).
  - exact (Hspan s (or_introl eq_refl) Hn).
Defined.

(** C2 (as stated) fails: two one-word cues, each too short to stand
    alone, are merged into a two-word cue that reads at 24 characters per
    second against a budget of 17. *)
Lemma budget_best_effort_counterexample :
  let tokens := [mkToken "aaaaaaaaaaaaaaaaaaaaaaaaaaaaaa" 0 500;
                 mkToken " bbbbbbbbbbbbbbbbbbbbbbbbbbbbbb" 2000 2500] in
  exists s,
    tokensToSubtitleSegments tokens defaultConfig = Ret [s]
    /\ length (tokensOf s) = 2%nat
    /\ cpsOf s = Double.ofZ 24
    /\ ~ withinBudgets defaultConfig s.
Proof.
  intros tokens. eexists. split; [vm_compute; reflexivity|].
  split; [reflexivity|]. split; [vm_compute; reflexivity|].
  intros (_ & Hcps & _). vm_compute in Hcps. discriminate Hcps.
Qed.

(** ** Time order *)

Lemma sorted_app (l1 l2 : list Z) :
  StronglySorted Z.le l1 -> StronglySorted Z.le l2 ->
  (forall a b, In a l1 -> In b l2 -> a <= b) ->
  StronglySorted Z.le (l1 ++ l2).
Proof.
  induction l1 as [|x l1 IH]; intros H1 H2 Hcross; [exact H2|].
  apply StronglySorted_inv in H1 as [H1 Hx]. simpl. constructor.
  - apply IH; auto. intros a b Ha Hb. apply Hcross; [now right | exact Hb].
  - apply Forall_app. split; [exact Hx|].
    apply Forall_forall. intros b Hb. apply Hcross; [now left | exact Hb].
Qed.

Lemma sorted_app_inv (l1 l2 : list Z) :
  StronglySorted Z.le (l1 ++ l2) ->
  StronglySorted Z.le l1 /\ StronglySorted Z.le l2
  /\ (forall a b, In a l1 -> In b l2 -> a <= b).
Proof.
  induction l1 as [|x l1 IH]; simpl; intros H.
  - repeat split; [constructor | exact H | intros a b []].
  - apply StronglySorted_inv in H as [H Hx].
    destruct (IH H) as (H1 & H2 & Hcross). apply Forall_app in Hx as [Hx1 Hx2].
    repeat split; [now constructor | exact H2 |].
    intros a b [<-|Ha] Hb; [|now apply Hcross].
    rewrite Forall_forall in Hx2. now apply Hx2.
Qed.

Lemma sorted_snoc (l : list Z) (y : Z) :
  StronglySorted Z.le l -> Forall (fun x => x <= y) l ->
  StronglySorted Z.le (l ++ [y]).
Proof.
  intros Hl Hy. apply sorted_app; [exact Hl | repeat constructor |].
  intros a b Ha [<-|[]]. rewrite Forall_forall in Hy. now apply Hy.
Qed.

Lemma below_mono hi s x : above hi s -> below hi x -> below (Some s) x.
Proof. destruct hi; simpl; [lia | contradiction]. Qed.

Lemma below_le hi s x : above hi s -> below hi x -> x <= s.
Proof. apply below_mono. Qed.

Module WordsTimingFacts.
Import Words WordsTiming.

Lemma init_timed : inv None init.
Proof. unfold inv, init; simpl. repeat split; constructor. Qed.

Lemma timed_mono hi s st : above hi s -> inv hi st -> inv (Some s) st.
Proof.
  intros Hs (Ht & Hsorted & Hbelow & Hcur).
  repeat split; [exact Ht | exact Hsorted | |].
  - eapply Forall_impl; [|exact Hbelow]. intros x. now apply below_mono.
  - destruct (currentTokens st); [exact Hcur|].
    destruct Hcur as (cs & ce & ? & ? & ? & ? & ?).
    exists cs, ce. repeat split; eauto using below_mono.
Qed.

Lemma flush_timed hi st : inv hi st -> inv hi (flush st).
Proof.
  intros (Ht & Hsorted & Hbelow & Hcur). unfold flush, inv.
  destruct (currentTokens st) as [|first rest] eqn:E; [rewrite E; auto|].
  destruct Hcur as (cs & ce & -> & -> & Hle & Hhi & Hall). simpl.
  unfold startsOf. rewrite map_app. simpl. repeat split.
  - apply Forall_app. split; [exact Ht|]. repeat constructor. exact Hle.
  - now apply sorted_snoc.
  - apply Forall_app. split; [exact Hbelow | now repeat constructor].
Qed.

Lemma add_timed hi st t txt p s e :
  inv hi st -> t_start_ms t = Some s -> t_end_ms t = Some e ->
  s <= e -> above hi s ->
  inv (Some s) (addToCurrent t txt p st).
Proof.
  intros Hinv Hs He Hle Habove.
  pose proof (timed_mono hi s st Habove Hinv) as (Ht & Hsorted & Hbelow & _).
  destruct Hinv as (_ & _ & Hbelow0 & Hcur).
  unfold inv, addToCurrent. simpl. rewrite Hs, He.
  repeat split; [exact Ht | exact Hsorted | exact Hbelow |].
  destruct (currentTokens st) as [|first rest]; simpl.
  - destruct Hcur as [-> ->]. exists s, e. repeat split; [exact Hle | lia |].
    eapply Forall_impl; [|exact Hbelow0]. intros x. now apply below_le.
  - destruct Hcur as (cs & ce & -> & -> & Hce & Hcs & Hall).
    pose proof (below_le hi s cs Habove Hcs).
    exists (Z.min cs s), (Z.max ce e). repeat split; simpl; try lia.
    eapply Forall_impl; [|exact Hall]. intros x; simpl. lia.
Qed.

Lemma step_timed hi st t s e :
  inv hi st -> t_start_ms t = Some s -> t_end_ms t = Some e ->
  s <= e -> above hi s ->
  inv (Some s) (step st t).
Proof.
  intros Hinv Hs He Hle Habove. unfold step.
  destruct (rawTextOf t) as [|c0 raw]; [now apply (timed_mono hi)|].
  match goal with |- inv _ (if ?b then flush ?x else ?x) =>
    assert (H : inv (Some s) x); [|destruct b; [apply flush_timed|]; exact H] end.
  assert (Hadd : forall x txt p, inv hi x -> inv (Some s) (addToCurrent t txt p x))
    by (intros; eapply add_timed; eauto).
  destruct (isWhite c0); [apply Hadd, flush_timed, Hinv|].
  destruct (currentTokens st); [now apply Hadd|].
  repeat match goal with |- inv _ (if ?b then _ else _) => destruct b end;
    auto using flush_timed.
Qed.

Lemma fold_timed : forall tokens hi st,
  inv hi st -> chronoFrom hi tokens = true ->
  exists hi', inv hi' (fold_left step tokens st).
Proof.
  induction tokens as [|t rest IH]; simpl; intros hi st Hinv Hchrono; [eauto|].
  destruct (t_start_ms t) as [s|] eqn:Hs; [|discriminate].
  destruct (t_end_ms t) as [e|] eqn:He; [|discriminate].
  apply andb_prop in Hchrono as [Hchrono Hrest].
  apply andb_prop in Hchrono as [Hlo Hle]. apply Z.leb_le in Hle.
  apply (IH (Some s)); [|exact Hrest].
  eapply step_timed; eauto.
  destruct hi; simpl; [now apply Z.leb_le | exact I].
Qed.

End WordsTimingFacts.

Lemma tokensToWords_timed tokens :
  chronological tokens ->
  Forall wordTimed (tokensToWords tokens)
  /\ StronglySorted Z.le (startsOf (tokensToWords tokens)).
Proof.
  intros Hchrono.
  destruct (WordsTimingFacts.fold_timed tokens None Words.init
              WordsTimingFacts.init_timed Hchrono) as (hi & Hinv).
  apply WordsTimingFacts.flush_timed in Hinv. fold (Words.run tokens) in Hinv.
  destruct Hinv as (Ht & Hsorted & _). unfold tokensToWords.
  destruct (Words.words (Words.run tokens)) as [|w0 rest]; [split; constructor|].
  destruct (startsWithSpace (w_text w0)); [|now split].
  split; [|exact Hsorted].
  inversion Ht; subst. now constructor.
Qed.

Lemma fold_max_ge : forall rest v, v <= fold_left Z.max rest v.
Proof.
  induction rest as [|x rest IH]; intros v; simpl; [lia|].
  specialize (IH (Z.max v x)). lia.
Qed.

Lemma flatWords_app l1 l2 : flatWords (l1 ++ l2) = flatWords l1 ++ flatWords l2.
Proof. apply flat_map_app. Qed.

Module BuildTimingFacts.
Import Build BuildTiming.

Lemma init_inv : inv None init.
Proof. unfold inv, init; simpl. repeat split; constructor. Qed.

Lemma closeSegment_inv hi sb st : inv hi st -> inv hi (closeSegment sb st).
Proof.
  intros (Hsegs & Hsorted & Hbelow & Htimed & Hstart). unfold closeSegment.
  destruct (current st) as [|w ws] eqn:Ecur.
  { unfold inv. rewrite Ecur. auto. }
  assert (Hprefix : inv hi (reset (segments st))).
  { unfold inv, reset; simpl. rewrite app_nil_r.
    unfold startsOf in *. rewrite map_app in Hsorted, Hbelow.
    apply sorted_app_inv in Hsorted as (Hsorted & _).
    apply Forall_app in Hbelow as (Hbelow & _).
    repeat split; auto. }
  destruct (concatText (w :: ws)); [exact Hprefix|].
  unfold inv, reset; simpl.
  rewrite flatWords_app, app_nil_r. simpl. rewrite app_nil_r.
  repeat split; auto.
  apply Forall_app. split; [exact Hsegs|]. constructor; [|constructor].
  unfold segOK, tokensOf; simpl. rewrite Hstart. simpl.
  inversion Htimed as [|? ? Hw _]; subst. unfold wordTimed in Hw.
  repeat split; [|exact Htimed].
  pose proof (fold_max_ge (map w_end_ms ws) (w_end_ms w)). lia.
Qed.

Lemma speakerRule_inv hi b st w : inv hi st -> inv hi (speakerRule b st w).
Proof.
  intros H. unfold speakerRule.
  match goal with |- inv _ (if ?c then _ else _) => destruct c end;
    auto using closeSegment_inv.
Qed.

Lemma gapRule_inv hi g st w : inv hi st -> inv hi (gapRule g st w).
Proof.
  intros H. unfold gapRule.
  destruct (current st); [exact H|]. destruct (lastTokenEnd st); [|exact H].
  repeat match goal with |- inv _ (if ?c then _ else _) => destruct c end;
    auto using closeSegment_inv.
Qed.

Lemma append_inv hi st w :
  inv hi st -> wordTimed w -> above hi (w_start_ms w) ->
  inv (Some (w_start_ms w)) (append st w).
Proof.
  intros (Hsegs & Hsorted & Hbelow & Htimed & Hstart) Hw Habove.
  unfold inv, append; simpl.
  rewrite app_assoc. unfold startsOf in *. rewrite (map_app _ _ [w]). simpl.
  assert (Hle : Forall (fun x => x <= w_start_ms w)
                       (map w_start_ms (flatWords (segments st) ++ current st))).
  { eapply Forall_impl; [|exact Hbelow]. intros x. now apply below_le. }
  repeat split.
  - exact Hsegs.
  - now apply sorted_snoc.
  - apply Forall_app. split; [exact Hle|]. repeat constructor. simpl. lia.
  - apply Forall_app. split; [exact Htimed | now repeat constructor].
  - destruct (current st); simpl; [reflexivity | exact Hstart].
Qed.

Lemma step_inv hi g b1 b2 st w :
  inv hi st -> wordTimed w -> above hi (w_start_ms w) ->
  inv (Some (w_start_ms w)) (step g b1 b2 st w).
Proof.
  intros H Hw Habove. unfold step.
  assert (H3 : inv (Some (w_start_ms w))
                    (append (gapRule g (speakerRule b1 st w) w) w))
    by (apply (append_inv hi); auto using gapRule_inv, speakerRule_inv).
  match goal with |- inv _ (if ?c then _ else _) => destruct c end;
    [apply closeSegment_inv|]; exact H3.
Qed.

Lemma fold_inv g b1 b2 : forall ws hi st,
  inv hi st -> Forall wordTimed ws ->
  Forall (above hi) (startsOf ws) -> StronglySorted Z.le (startsOf ws) ->
  exists hi', inv hi' (fold_left (step g b1 b2) ws st).
Proof.
  induction ws as [|w ws IH]; simpl; intros hi st Hinv Ht Habove Hsorted; [eauto|].
  inversion Ht; subst. inversion Habove; subst.
  apply StronglySorted_inv in Hsorted as [Hsorted Hw].
  apply (IH (Some (w_start_ms w))); [|assumption|exact Hw|exact Hsorted].
  now apply (step_inv hi).
Qed.

End BuildTimingFacts.

Lemma buildSegments_timeline ws g b1 b2 :
  Forall wordTimed ws -> StronglySorted Z.le (startsOf ws) ->
  timeline (buildSegments ws g b1 b2).
Proof.
  intros Ht Hsorted.
  destruct (BuildTimingFacts.fold_inv g b1 b2 ws None Build.init
              BuildTimingFacts.init_inv Ht) as (hi & Hinv); auto.
  { apply Forall_forall. intros x _. exact I. }
  apply (BuildTimingFacts.closeSegment_inv hi false) in Hinv.
  destruct Hinv as (Hsegs & Hs & _). split; [exact Hsegs|].
  unfold ordered, startsOf in *. rewrite map_app in Hs.
  now apply sorted_app_inv in Hs as (Hs & _).
Qed.

(** *** The split phase keeps the timeline *)

Lemma startsOf_app a b : startsOf (a ++ b) = startsOf a ++ startsOf b.
Proof. apply map_app. Qed.

Lemma last_in {A} (l : list A) (d : A) : l <> [] -> In (last l d) l.
Proof.
  induction l as [|x l IH]; [contradiction|]. intros _.
  destruct l as [|y l]; [now left|]. right. apply IH. discriminate.
Qed.

(** A non-empty sorted run of timed words ends no earlier than it starts. *)
Lemma run_span (w0 : WordToken) (ws : list WordToken) :
  StronglySorted Z.le (startsOf (w0 :: ws)) -> Forall wordTimed (w0 :: ws) ->
  w_start_ms w0 <= w_end_ms (last (w0 :: ws) w0).
Proof.
  intros Hsorted Ht.
  assert (Hin : In (last (w0 :: ws) w0) (w0 :: ws)) by (apply last_in; discriminate).
  remember (last (w0 :: ws) w0) as lw eqn:Elw. clear Elw.
  rewrite Forall_forall in Ht. pose proof (Ht _ Hin) as Hw. unfold wordTimed in Hw.
  destruct Hin as [E|Hin]; [rewrite <- E in Hw |- *; exact Hw|].
  apply StronglySorted_inv in Hsorted as [_ Hall]. rewrite Forall_forall in Hall.
  specialize (Hall (w_start_ms lw) (in_map _ _ _ Hin)). lia.
Qed.

Lemma child_ok current w0 ws sb p s :
  StronglySorted Z.le (startsOf (w0 :: ws)) -> Forall wordTimed (w0 :: ws) ->
  segOK (child current (w0 :: ws) w0 (last (w0 :: ws) w0) sb p s).
Proof.
  intros Hsorted Ht. unfold segOK. rewrite tokensOf_child.
  repeat split; [|exact Ht]. now apply run_span.
Qed.

Lemma Splits_timeline config seg outs :
  Splits config seg outs ->
  Forall wordTimed (tokensOf seg) -> StronglySorted Z.le (startsOf (tokensOf seg)) ->
  segOK seg ->
  Forall segOK outs /\ flatWords outs = tokensOf seg.
Proof.
  induction 1 as [seg Hleaf|seg l0 r0 ls rs Hsplit Hl Hr _ IHl _ IHr];
    intros Ht Hsorted Hok.
  - split; [constructor; [exact Hok | constructor] | simpl; apply app_nil_r].
  - set (idx := findSplitIndex (tokensOf seg)) in *.
    pose proof (firstn_skipn idx (tokensOf seg)) as Hcat.
    rewrite <- Hcat in Ht, Hsorted. apply Forall_app in Ht as [Htl Htr].
    rewrite startsOf_app in Hsorted.
    apply sorted_app_inv in Hsorted as (Hsl & Hsr & _).
    unfold leftChild, rightChild in IHl, IHr. rewrite tokensOf_child in IHl, IHr.
    destruct (firstn idx (tokensOf seg)) as [|l0' lrest] eqn:El; [discriminate|].
    destruct (skipn idx (tokensOf seg)) as [|r0' rrest] eqn:Er; [discriminate|].
    simpl in Hl, Hr. inversion Hl; inversion Hr; subst l0' r0'.
    destruct (IHl Htl Hsl (child_ok _ _ _ _ _ _ Hsl Htl)) as [Hokl Hflatl].
    destruct (IHr Htr Hsr (child_ok _ _ _ _ _ _ Hsr Htr)) as [Hokr Hflatr].
    split; [apply Forall_app; now split|].
    now rewrite flatWords_app, Hflatl, Hflatr.
Qed.

Lemma ordered_cons s l :
  ordered (s :: l) ->
  StronglySorted Z.le (startsOf (tokensOf s)) /\ ordered l
  /\ (forall a b, In a (startsOf (tokensOf s)) -> In b (startsOf (flatWords l)) -> a <= b).
Proof.
  unfold ordered. simpl. rewrite startsOf_app. apply sorted_app_inv.
Qed.

Lemma splitPhase_timeline config : forall segments outs,
  Forall2 (Splits config) segments outs -> timeline segments ->
  Forall segOK (concat outs) /\ flatWords (concat outs) = flatWords segments.
Proof.
  induction 1 as [|seg out segments outs Hs _ IH]; intros [Hok Hord].
  - split; [constructor | reflexivity].
  - inversion Hok as [|? ? Hseg Hrest]; subst.
    apply ordered_cons in Hord as (Hsorted & Hord & _).
    destruct (Splits_timeline _ _ _ Hs) as [Hok1 Hflat1];
      [apply Hseg | exact Hsorted | exact Hseg |].
    destruct (IH (conj Hrest Hord)) as [Hok2 Hflat2].
    simpl. split; [apply Forall_app; now split|].
    now rewrite flatWords_app, Hflat1, Hflat2.
Qed.

(** *** The merge phase keeps the timeline *)

Lemma mergePass_flat config : forall n l,
  (length l <= n)%nat -> flatWords (fst (mergePass config l)) = flatWords l.
Proof.
  induction n as [|n IH]; intros l Hn.
  - destruct l; [reflexivity | simpl in Hn; lia].
  - destruct l as [|segment rest]; [reflexivity|].
    destruct rest as [|next rest']; [reflexivity|].
    rewrite mergePass_step.
    destruct (mergeable config segment next); cbn [fst].
    + change (flatWords (mergeTwo segment next :: fst (mergePass config rest')))
        with ((tokensOf segment ++ tokensOf next)
              ++ flatWords (fst (mergePass config rest'))).
      rewrite IH by (simpl in Hn; lia). simpl. now rewrite <- app_assoc.
    + change (flatWords (segment :: fst (mergePass config (next :: rest'))))
        with (tokensOf segment ++ flatWords (fst (mergePass config (next :: rest')))).
      now rewrite IH by (simpl in Hn |- *; lia).
Qed.

Lemma segOK_head s :
  segOK s -> exists w ws, tokensOf s = w :: ws /\ seg_start s = w_start_ms w.
Proof.
  intros (Hhd & _). destruct (tokensOf s) as [|w ws]; [contradiction|]. eauto.
Qed.

(** In a timeline a segment starts no later than the one that follows. *)
Lemma timeline_head a b l : timeline (a :: b :: l) -> seg_start a <= seg_start b.
Proof.
  intros [Hok Hord]. inversion Hok as [|? ? Ha Hok1]; subst.
  inversion Hok1 as [|? ? Hb _]; subst.
  destruct (segOK_head a Ha) as (wa & wsa & Ea & ->).
  destruct (segOK_head b Hb) as (wb & wsb & Eb & ->).
  apply ordered_cons in Hord as (_ & _ & Hcross). apply Hcross.
  - rewrite Ea. now left.
  - simpl. rewrite Eb. now left.
Qed.

Lemma timeline_tail a l : timeline (a :: l) -> timeline l.
Proof.
  intros [Hok Hord]. inversion Hok; subst.
  apply ordered_cons in Hord as (_ & Hord & _). now split.
Qed.

Lemma mergeTwo_ok a b :
  segOK a -> segOK b -> seg_start a <= seg_start b -> segOK (mergeTwo a b).
Proof.
  intros Ha Hb Hle. destruct (segOK_head a Ha) as (wa & wsa & Ea & Hsa).
  destruct Ha as (_ & _ & Hta). destruct Hb as (_ & Hbe & Htb).
  unfold segOK, mergeTwo, tokensOf at 1 3; simpl. rewrite Ea. simpl.
  repeat split; [exact Hsa | lia |].
  rewrite app_comm_cons, <- Ea. apply Forall_app. now split.
Qed.

Lemma mergePass_ok config : forall n l,
  (length l <= n)%nat -> timeline l -> Forall segOK (fst (mergePass config l)).
Proof.
  induction n as [|n IH]; intros l Hn Htl.
  - destruct l; [constructor | simpl in Hn; lia].
  - destruct l as [|segment rest]; [constructor|].
    destruct rest as [|next rest']; [apply Htl|].
    rewrite mergePass_step.
    pose proof (timeline_head _ _ _ Htl) as Hle.
    pose proof (timeline_tail _ _ Htl) as Htl1.
    pose proof (timeline_tail _ _ Htl1) as Htl2.
    destruct Htl as [Hok _]. inversion Hok as [|? ? Hs Hok1]; subst.
    inversion Hok1 as [|? ? Hnx _]; subst.
    destruct (mergeable config segment next); cbn [fst]; constructor.
    + now apply mergeTwo_ok.
    + apply IH; [simpl in Hn; lia | exact Htl2].
    + exact Hs.
    + apply IH; [simpl in Hn |- *; lia | exact Htl1].
Qed.

Lemma mergePass_timeline config l :
  timeline l -> timeline (fst (mergePass config l)).
Proof.
  intros Htl. split.
  - now apply (mergePass_ok config (length l)).
  - unfold ordered. rewrite (mergePass_flat config (length l)) by lia. apply Htl.
Qed.

Lemma timeline_adjacent : forall l i a b,
  timeline l -> nth_error l i = Some a -> nth_error l (S i) = Some b ->
  seg_start a <= seg_start b.
Proof.
  induction l as [|x l IH]; intros i a b Htl Ha Hb; [destruct i; discriminate|].
  destruct i as [|i].
  - destruct l as [|y l]; [discriminate|]. simpl in Ha, Hb.
    inversion Ha; inversion Hb; subst. eapply timeline_head; eauto.
  - apply (IH i); [eapply timeline_tail; eauto | exact Ha | exact Hb].
Qed.

(** C7 (as amended): when the tokens come in chronological order, each
    with both timings and [start_ms <= end_ms], the conversion returns,
    adjacent final segments have non-decreasing starts, and no final
    segment ends before it starts. *)
Theorem monotonicity (tokens : list Token) (config : SubtitleConfig) :
  chronological tokens ->
  exists out,
    tokensToSubtitleSegments tokens config = Ret out
    /\ (forall i a b, nth_error out i = Some a -> nth_error out (S i) = Some b ->
                      seg_start a <= seg_start b)
    /\ (forall s, In s out -> seg_start s <= seg_end s).
Proof.
  intros Hchrono. destruct (tokensToWords_timed tokens Hchrono) as [Ht Hsorted].
  pose proof (buildSegments_timeline _ (gap_ms config) (split_on_speaker config)
                (segment_on_sentence config) Ht Hsorted) as Htl.
  unfold tokensToSubtitleSegments.
  set (segments := buildSegments _ _ _ _) in *.
  assert (Hgoal : forall out, timeline out ->
            (forall i a b, nth_error out i = Some a -> nth_error out (S i) = Some b ->
                           seg_start a <= seg_start b)
            /\ (forall s, In s out -> seg_start s <= seg_end s)).
  { intros out Hout. split.
    - intros i a b. now apply timeline_adjacent.
    - intros s Hs. destruct Hout as [Hok _]. rewrite Forall_forall in Hok.
      apply (Hok s Hs). }
  destruct segments as [|s0 rest] eqn:Esegs.
  - exists []. split; [reflexivity | now apply Hgoal].
  - destruct (enforceReadability_spec config timeline (s0 :: rest))
      as (out & Hrun & Hout & _).
    + apply mergePass_timeline.
    + intros outs Hall. destruct (splitPhase_timeline config _ _ Hall Htl) as [Hok Hflat].
      split; [exact Hok|]. unfold ordered. rewrite Hflat. apply Htl.
    + exists out. split; [exact Hrun | now apply Hgoal].
Qed.

Lemma monotonicity_witness :
  let tokens := [mkToken "Hello" 0 500; mkToken " world" 500 1000;
                 mkToken "." 1000 1000; mkToken " Bye." 4000 4500] in
  chronological tokens
  /\ exists out,
       tokensToSubtitleSegments tokens defaultConfig = Ret out
       /\ (forall i a b, nth_error out i = Some a -> nth_error out (S i) = Some b ->
                         seg_start a <= seg_start b)
       /\ (forall s, In s out -> seg_start s <= seg_end s).
Proof.
  intros tokens.
  assert (H : chronological tokens) by reflexivity.
  split; [exact H | exact (monotonicity tokens defaultConfig H)].
Defined.

(** C7 (as stated) fails: timings are optional on a token, and a word made
    of untimed tokens is placed at 0 ms, before the cue that precedes it. *)
Lemma monotonicity_counterexample :
  let tokens := [mkToken "Wait." 1000 2000; untimedToken " Done."] in
  exists a b,
    tokensToSubtitleSegments tokens sentenceConfig = Ret [a; b]
    /\ seg_start b < seg_start a.
Proof.
  intros tokens. do 2 eexists. split; vm_compute; reflexivity.
Qed.

(** ** The silence rule *)

Lemma statedSafe_safeBoundary prevText nextText :
  statedSafe prevText nextText = true -> safeBoundary prevText nextText = true.
Proof.
  unfold statedSafe, safeBoundary. intros H.
  destruct nextText as [|c next]; [reflexivity|].
  destruct (startsWithSpace (c :: next)); [reflexivity|].
  now rewrite orb_false_r in H.
Qed.

Lemma last_snoc {A} (l : list A) (x d : A) : last (l ++ [x]) d = x.
Proof.
  induction l as [|y l IH]; [reflexivity|].
  simpl. destruct (l ++ [x]) eqn:E; [now destruct l | exact IH].
Qed.

Lemma lastOf_snoc {A} (l : list A) (x : A) : lastOf (l ++ [x]) = Some x.
Proof.
  destruct l as [|y l]; [reflexivity|]. simpl. f_equal. apply last_snoc.
Qed.

Lemma last_cons {A} : forall (l : list A) (x d : A), last (x :: l) d = last l x.
Proof.
  induction l as [|z l IH]; intros x d; [reflexivity|].
  change (last (x :: z :: l) d) with (last (z :: l) d).
  now rewrite (IH z d), (IH z x).
Qed.

Lemma lastOf_last {A} (l : list A) (x d : A) : lastOf l = Some x -> last l d = x.
Proof.
  destruct l as [|y l]; [discriminate|]. simpl lastOf. intros [= <-].
  apply last_cons.
Qed.

Module BuildFacts.
Import Build.

Lemma closeSegment_current sb st : current (closeSegment sb st) = [].
Proof.
  unfold closeSegment. destruct (current st) eqn:E; [exact E|].
  now destruct (concatText (w :: l)).
Qed.

Lemma closeSegment_tracked sb st : endTracked (closeSegment sb st).
Proof. unfold endTracked. rewrite closeSegment_current. discriminate. Qed.

Lemma speakerRule_tracked b st w : endTracked st -> endTracked (speakerRule b st w).
Proof.
  intros H. unfold speakerRule.
  match goal with |- endTracked (if ?c then _ else _) => destruct c end;
    auto using closeSegment_tracked.
Qed.

Lemma append_tracked st w : endTracked (append st w).
Proof.
  unfold endTracked, append; simpl. intros prev. rewrite lastOf_snoc.
  now intros [= ->].
Qed.

Lemma step_tracked g b1 b2 st w : endTracked (step g b1 b2 st w).
Proof.
  unfold step.
  match goal with |- endTracked (if ?c then _ else _) => destruct c end;
    auto using closeSegment_tracked, append_tracked.
Qed.

Lemma fold_tracked g b1 b2 : forall ws st,
  endTracked st -> endTracked (fold_left (step g b1 b2) ws st).
Proof.
  induction ws as [|w ws IH]; simpl; intros st H; [exact H|].
  apply IH, step_tracked.
Qed.

Lemma init_tracked : endTracked init.
Proof. unfold endTracked, init; simpl. discriminate. Qed.

End BuildFacts.

Module BuildGap.
Import Build.

Lemma init_settled : settled init.
Proof. intros _. reflexivity. Qed.

Lemma closeSegment_reset sb st :
  settled st -> closeSegment sb st = reset (segments (closeSegment sb st)).
Proof.
  intros H. unfold closeSegment.
  destruct (current st) eqn:E; [exact (H E)|].
  now destruct (concatText (w :: l)).
Qed.

Lemma closeSegment_settled sb st : settled st -> settled (closeSegment sb st).
Proof.
  intros H _. rewrite (closeSegment_reset sb st H) at 1. reflexivity.
Qed.

Lemma append_settled st w : settled (append st w).
Proof.
  intros H. unfold append in H; simpl in H. now destruct (current st).
Qed.

Lemma step_settled g b1 b2 st w : settled (step g b1 b2 st w).
Proof.
  unfold step.
  match goal with |- settled (if ?c then _ else _) => destruct c end;
    auto using closeSegment_settled, append_settled.
Qed.

Lemma fold_settled g b1 b2 : forall ws st,
  settled st -> settled (fold_left (step g b1 b2) ws st).
Proof.
  induction ws as [|w ws IH]; simpl; intros st H; [exact H|].
  apply IH, step_settled.
Qed.

Lemma step_endsWith g b1 b2 st w : endsWith w (step g b1 b2 st w).
Proof.
  unfold step.
  match goal with |- endsWith _ (if ?c then _ else _) => destruct c end.
  - left. apply BuildFacts.closeSegment_current.
  - right. unfold append; simpl. apply lastOf_snoc.
Qed.

(** Rules on a state with nothing open. *)
Lemma speakerRule_closed b st w : current st = [] -> speakerRule b st w = st.
Proof.
  intros H. unfold speakerRule. rewrite H. simpl. now rewrite andb_false_r.
Qed.

Lemma gapRule_closed g st w : current st = [] -> gapRule g st w = st.
Proof. intros H. unfold gapRule. now rewrite H. Qed.

(** Under the premises of the silence rule, the state the word is
    appended to is the closed one. *)
Lemma rules_close g b1 st prev w :
  endTracked st -> endsWith prev st ->
  0 < g -> g < w_start_ms w - w_end_ms prev ->
  safeBoundary (w_text prev) (w_text w) = true ->
  gapRule g (speakerRule b1 st w) w = closeSegment false st.
Proof.
  intros Htracked Hends Hpos Hgap Hsafe.
  destruct Hends as [Hnil | Hlast].
  - rewrite (speakerRule_closed _ _ _ Hnil), (gapRule_closed _ _ _ Hnil).
    unfold closeSegment. now rewrite Hnil.
  - assert (Hgo : gapRule g st w = closeSegment false st).
    { unfold gapRule. rewrite (Htracked prev Hlast).
      destruct (current st) as [|c cs] eqn:Ecur; [discriminate|].
      rewrite (lastOf_last (c :: cs) prev w Hlast), Hsafe.
      replace (0 <? g) with true by (symmetry; now apply Z.ltb_lt).
      replace (g <? w_start_ms w - w_end_ms prev) with true
        by (symmetry; now apply Z.ltb_lt).
      reflexivity. }
    unfold speakerRule.
    match goal with |- gapRule g (if ?c then _ else _) w = _ => destruct c end;
      [|exact Hgo].
    apply gapRule_closed, BuildFacts.closeSegment_current.
Qed.

Lemma step_from g b1 b2 st w :
  step g b1 b2 st w
  = (if isSentenceEnd b2 (w_text w)
     then closeSegment true (append (gapRule g (speakerRule b1 st w) w) w)
     else append (gapRule g (speakerRule b1 st w) w) w).
Proof. reflexivity. Qed.

(** Segments pushed earlier are carried along untouched. *)
Lemma closeSegment_earlier sb earlier st :
  closeSegment sb (withEarlier earlier st) = withEarlier earlier (closeSegment sb st).
Proof.
  destruct st as [segs [|c cs] start lastEnd speaker];
    unfold closeSegment, withEarlier; cbn [segments current]; [reflexivity|].
  destruct (concatText (c :: cs)); unfold reset; cbn [segments current];
    [reflexivity|].
  cbn [currentStart]. now rewrite app_assoc.
Qed.

Lemma speakerRule_earlier b earlier st w :
  speakerRule b (withEarlier earlier st) w = withEarlier earlier (speakerRule b st w).
Proof.
  unfold speakerRule. rewrite closeSegment_earlier. simpl.
  now match goal with |- (if ?c then _ else _) = _ => destruct c end.
Qed.

Lemma gapRule_earlier g earlier st w :
  gapRule g (withEarlier earlier st) w = withEarlier earlier (gapRule g st w).
Proof.
  unfold gapRule. rewrite closeSegment_earlier. simpl.
  destruct (current st); [reflexivity|].
  destruct (lastTokenEnd st); [|reflexivity].
  repeat match goal with |- (if ?c then _ else _) = _ => destruct c end;
    reflexivity.
Qed.

Lemma append_earlier earlier st w :
  append (withEarlier earlier st) w = withEarlier earlier (append st w).
Proof. reflexivity. Qed.

Lemma step_earlier g b1 b2 earlier st w :
  step g b1 b2 (withEarlier earlier st) w = withEarlier earlier (step g b1 b2 st w).
Proof.
  rewrite !step_from, speakerRule_earlier, gapRule_earlier, append_earlier,
    closeSegment_earlier.
  now destruct (isSentenceEnd b2 (w_text w)).
Qed.

Lemma fold_earlier g b1 b2 earlier : forall ws st,
  fold_left (step g b1 b2) ws (withEarlier earlier st)
  = withEarlier earlier (fold_left (step g b1 b2) ws st).
Proof.
  induction ws as [|w ws IH]; intros st; simpl; [reflexivity|].
  now rewrite step_earlier, IH.
Qed.

Lemma reset_earlier earlier : reset earlier = withEarlier earlier init.
Proof. unfold reset, withEarlier, init; simpl. now rewrite app_nil_r. Qed.

End BuildGap.

(** C8 (as amended): let [prev] and [word] be two words that follow each
    other in the input of [buildSegments], with a positive gap threshold,
    a gap from [prev]'s end to [word]'s start that exceeds it, and a safe
    boundary.  Then the iteration on [word] is the one it would be had the
    open segment been closed first; once it is done the open segment holds
    [word] alone (nothing, if [word] ends a sentence); and the segments
    returned are those of the words up to [prev] followed by those of the
    words from [word] on: no segment holds both. *)
Theorem gap_closes_segment (gapThreshold : Z) (splitOnSpeaker segmentOnSentence : bool)
    (earlier later : list WordToken) (prev word : WordToken) :
  0 < gapThreshold ->
  gapThreshold < w_start_ms word - w_end_ms prev ->
  statedSafe (w_text prev) (w_text word) = true ->
  let step := Build.step gapThreshold splitOnSpeaker segmentOnSentence in
  let st := fold_left step (earlier ++ [prev]) Build.init in
  step st word = step (Build.closeSegment false st) word
  /\ Build.current (step st word)
     = (if Build.isSentenceEnd segmentOnSentence (w_text word) then [] else [word])
  /\ buildSegments (earlier ++ prev :: word :: later)
       gapThreshold splitOnSpeaker segmentOnSentence
     = buildSegments (earlier ++ [prev]) gapThreshold splitOnSpeaker segmentOnSentence
       ++ buildSegments (word :: later) gapThreshold splitOnSpeaker segmentOnSentence.
Proof.
  intros Hpos Hgap Hsafe step st.
  apply statedSafe_safeBoundary in Hsafe.
  assert (Hst : st = Build.step gapThreshold splitOnSpeaker segmentOnSentence
                       (fold_left step earlier Build.init) prev).
  { unfold st. now rewrite fold_left_app. }
  assert (Htracked : endTracked st) by (rewrite Hst; apply BuildFacts.step_tracked).
  assert (Hends : endsWith prev st) by (rewrite Hst; apply BuildGap.step_endsWith).
  assert (Hsettled : settled st) by (rewrite Hst; apply BuildGap.step_settled).
  pose proof (BuildGap.rules_close gapThreshold splitOnSpeaker st prev word
                Htracked Hends Hpos Hgap Hsafe) as Hclose.
  pose proof (BuildFacts.closeSegment_current false st) as Hnil.
  assert (Hstep : step st word = step (Build.closeSegment false st) word).
  { unfold step. rewrite !BuildGap.step_from, Hclose.
    now rewrite (BuildGap.speakerRule_closed _ _ _ Hnil),
      (BuildGap.gapRule_closed _ _ _ Hnil). }
  split; [exact Hstep|]. split.
  - unfold step. rewrite BuildGap.step_from, Hclose.
    destruct (Build.isSentenceEnd segmentOnSentence (w_text word)).
    + apply BuildFacts.closeSegment_current.
    + unfold Build.append; simpl. now rewrite Hnil.
  - unfold buildSegments at 1.
    replace (earlier ++ prev :: word :: later)
      with ((earlier ++ [prev]) ++ word :: later)
      by (now rewrite <- app_assoc).
    rewrite fold_left_app. fold step. fold st.
    change (fold_left step (word :: later) st)
      with (fold_left step later (step st word)).
    rewrite Hstep, (BuildGap.closeSegment_reset false st Hsettled).
    rewrite BuildGap.reset_earlier.
    unfold step. rewrite BuildGap.step_earlier, BuildGap.fold_earlier,
      BuildGap.closeSegment_earlier.
    reflexivity.
Qed.

Lemma gap_closes_segment_witness :
  let earlier := [mkWord "Well" 0 400] in
  let prev := mkWord " hello" 400 900 in
  let word := mkWord " there" 2400 2900 in
  let later := [mkWord " again" 2900 3300] in
  let step := Build.step 1200 false false in
  let st := fold_left step (earlier ++ [prev]) Build.init in
  (0 < 1200
   /\ 1200 < w_start_ms word - w_end_ms prev
   /\ statedSafe (w_text prev) (w_text word) = true)
  /\ step st word = step (Build.closeSegment false st) word
  /\ Build.current (step st word)
     = (if Build.isSentenceEnd false (w_text word) then [] else [word])
  /\ buildSegments (earlier ++ prev :: word :: later) 1200 false false
     = buildSegments (earlier ++ [prev]) 1200 false false
       ++ buildSegments (word :: later) 1200 false false.
Proof.
  intros earlier prev word later step st.
  assert (H1 : 0 < 1200) by reflexivity.
  assert (H2 : 1200 < w_start_ms word - w_end_ms prev) by reflexivity.
  assert (H3 : statedSafe (w_text prev) (w_text word) = true) by reflexivity.
  split; [repeat split; assumption|].
  exact (gap_closes_segment 1200 false false earlier later prev word H1 H2 H3).
Defined.

(** C8 (as stated) fails twice.  A threshold of 0 switches the silence
    rule off: a 500 ms gap at a safe boundary exceeds it and closes
    nothing.  And only a space makes the end of the previous word safe:
    the tokens [tabTokens] make two words, the first ending in a tab,
    which is white space, 1500 ms before the second; with a threshold of
    1200 ms both end up in one segment. *)
Lemma gap_closes_segment_counterexample :
  (let prev := mkWord "Hello" 0 500 in
   let word := mkWord " there" 1000 1500 in
   0 < w_start_ms word - w_end_ms prev
   /\ statedSafe (w_text prev) (w_text word) = true
   /\ map tokensOf (buildSegments [prev; word] 0 false false) = [[prev; word]])
  /\ (exists prev word,
        tokensToWords tabTokens = [prev; word]
        /\ w_text prev = [20320; 9]%N /\ w_text word = [22909]%N
        /\ option_map isWhite (lastChar (w_text prev)) = Some true
        /\ 0 < 1200 < w_start_ms word - w_end_ms prev
        /\ safeBoundary (w_text prev) (w_text word) = false
        /\ map tokensOf (buildSegments [prev; word] 1200 false false)
           = [[prev; word]]
        /\ gap_ms defaultConfig = 1200
        /\ exists segment,
             tokensToSubtitleSegments tabTokens defaultConfig = Ret [segment]
             /\ tokensOf segment = [prev; word]).
Proof.
  split.
  - repeat split; vm_compute; reflexivity.
  - do 2 eexists. split; [vm_compute; reflexivity|].
    do 3 (split; [vm_compute; reflexivity|]).
    split; [split; vm_compute; reflexivity|].
    do 3 (split; [vm_compute; reflexivity|]).
    eexists. split; vm_compute; reflexivity.
Qed.

(** ** Cue rendering *)

Lemma renderFrom_length config : forall segments position,
  length (renderFrom position segments config) = length segments.
Proof.
  induction segments as [|s rest IH]; intros position; simpl; [reflexivity|].
  now rewrite IH.
Qed.

Lemma renderFrom_index config : forall segments position i e,
  nth_error (renderFrom position segments config) i = Some e ->
  index e = (position + i + 1)%nat
  /\ exists s, nth_error segments i = Some s
               /\ start_ms e = seg_start s /\ end_ms e = seg_end s.
Proof.
  induction segments as [|s rest IH]; intros position i e H.
  - destruct i; discriminate.
  - destruct i as [|i]; simpl in H.
    + inversion H; subst; simpl. split; [lia | eauto].
    + apply IH in H as [Hidx Hseg]. split; [lia | exact Hseg].
Qed.

Lemma str_eqb_eq : forall a b, str_eqb a b = true -> a = b.
Proof.
  induction a as [|x a IH]; intros [|y b] H; try discriminate; [reflexivity|].
  simpl in H. apply andb_prop in H as [Hxy Hab].
  apply N.eqb_eq in Hxy. f_equal; auto.
Qed.

(** Padding agrees with the fixed-width digits on every value a field
    can take; checked value by value. *)
Lemma pad_checked (width : nat) (render : Z -> jsstring) (bound : nat) :
  forallb (fun k => str_eqb (padStart width (toString (Z.of_nat k)))
                            (render (Z.of_nat k)))
          (seq 0 bound) = true ->
  forall n, 0 <= n < Z.of_nat bound -> padStart width (toString n) = render n.
Proof.
  intros Hall n Hn. rewrite forallb_forall in Hall.
  specialize (Hall (Z.to_nat n)). rewrite Z2Nat.id in Hall by lia.
  apply str_eqb_eq, Hall, in_seq. lia.
Qed.

Lemma pad2_twoDigits n : 0 <= n < 100 -> padStart 2 (toString n) = twoDigits n.
Proof. apply (pad_checked 2 twoDigits 100). vm_compute. reflexivity. Qed.

Lemma pad3_threeDigits n : 0 <= n < 1000 -> padStart 3 (toString n) = threeDigits n.
Proof. apply (pad_checked 3 threeDigits 1000). vm_compute. reflexivity. Qed.

Lemma clock_decomposition millis :
  0 <= millis ->
  millis = hoursOf millis * 3600000 + minutesOf millis * 60000
           + secondsOf millis * 1000 + millisOf millis
  /\ 0 <= hoursOf millis
  /\ 0 <= minutesOf millis < 60
  /\ 0 <= secondsOf millis < 60
  /\ 0 <= millisOf millis < 1000.
Proof.
  intros Hpos. unfold hoursOf, minutesOf, secondsOf, millisOf.
  pose proof (Z.div_mod millis 1000 ltac:(lia)) as E1.
  pose proof (Z.div_mod (millis / 1000) 60 ltac:(lia)) as E2.
  pose proof (Z.div_mod (millis / 1000 / 60) 60 ltac:(lia)) as E3.
  rewrite (Z.div_div millis 1000 60) in E2, E3 by lia.
  rewrite (Z.div_div millis (1000 * 60) 60) in E3 by lia.
  change (1000 * 60) with 60000 in *. change (60000 * 60) with 3600000 in *.
  pose proof (Z.mod_pos_bound millis 1000 ltac:(lia)).
  pose proof (Z.mod_pos_bound (millis / 1000) 60 ltac:(lia)).
  pose proof (Z.mod_pos_bound (millis / 60000) 60 ltac:(lia)).
  pose proof (Z.div_pos millis 3600000 Hpos ltac:(lia)).
  repeat split; lia.
Qed.

Lemma formatTimestamp_clock (ms : Q) :
  let millis := Z.max 0 (Qfloor ms) in
  formatTimestamp ms
  = padStart 2 (toString (hoursOf millis)) ++ lit ":"
    ++ twoDigits (minutesOf millis) ++ lit ":"
    ++ twoDigits (secondsOf millis) ++ lit ","
    ++ threeDigits (millisOf millis).
Proof.
  intros millis. unfold formatTimestamp. fold millis.
  assert (Hpos : 0 <= millis) by (unfold millis; lia).
  destruct (clock_decomposition millis Hpos) as (_ & _ & Hm & Hs & Hr).
  unfold hoursOf, minutesOf, secondsOf, millisOf in *.
  rewrite !Z.div_div by lia.
  change (1000 * 60) with 60000. change (60000 * 60) with 3600000.
  rewrite (pad2_twoDigits (millis / 60000 mod 60)) by lia.
  rewrite (pad2_twoDigits (millis / 1000 mod 60)) by lia.
  rewrite (pad3_threeDigits (millis mod 1000)) by lia.
  reflexivity.
Qed.

(** C9: the entry at position [i] carries index [i + 1] (and the times of
    the segment at that position); [formatTimestamp] floors its argument,
    clamps it at 0, and writes the clock reading of the result as
    [HH:MM:SS,mmm]: two-digit minutes and seconds, three-digit
    milliseconds, hours padded to two digits (exactly two below 100 h). *)
Theorem cue_rendering :
  (forall segments config,
      length (renderSegments segments config) = length segments
      /\ forall i e, nth_error (renderSegments segments config) i = Some e ->
           index e = (i + 1)%nat
           /\ exists s, nth_error segments i = Some s
                        /\ start_ms e = seg_start s /\ end_ms e = seg_end s)
  /\ (forall ms : Q,
        let millis := Z.max 0 (Qfloor ms) in
        formatTimestamp ms
        = padStart 2 (toString (hoursOf millis)) ++ lit ":"
          ++ twoDigits (minutesOf millis) ++ lit ":"
          ++ twoDigits (secondsOf millis) ++ lit ","
          ++ threeDigits (millisOf millis)
        /\ millis = hoursOf millis * 3600000 + minutesOf millis * 60000
                    + secondsOf millis * 1000 + millisOf millis
        /\ 0 <= minutesOf millis < 60
        /\ 0 <= secondsOf millis < 60
        /\ 0 <= millisOf millis < 1000
        /\ (millis < 360000000 -> formatTimestamp ms = clockText millis)
        /\ (Qlt ms 0 -> formatTimestamp ms = lit "00:00:00,000")
        /\ formatTimestamp ms = formatTimestamp (inject_Z (Qfloor ms))).
Proof.
  split.
  - intros segments config. split; [apply renderFrom_length|].
    intros i e H. apply renderFrom_index in H. exact H.
  - intros ms millis.
    assert (Hpos : 0 <= millis) by (unfold millis; lia).
    destruct (clock_decomposition millis Hpos) as (Hsum & Hh & Hm & Hs & Hr).
    pose proof (formatTimestamp_clock ms) as Hfmt. fold millis in Hfmt.
    repeat (split; [assumption|]). split; [|split].
    + intros Hlt. rewrite Hfmt. unfold clockText.
      rewrite pad2_twoDigits; [reflexivity|].
      split; [exact Hh|]. unfold hoursOf. apply Z.div_lt_upper_bound; lia.
    + intros Hneg. unfold formatTimestamp.
      assert (Hfloor : Qfloor ms < 0).
      { destruct (Z_lt_le_dec (Qfloor ms) 0) as [|Hge]; [assumption|].
        exfalso. pose proof (Qfloor_le ms) as Hle.
        assert (Hq : Qle 0 (inject_Z (Qfloor ms)))
          by (change 0%Q with (inject_Z 0); now rewrite <- Zle_Qle).
        apply (Qlt_irrefl 0). eapply Qle_lt_trans; [|exact Hneg].
        eapply Qle_trans; eassumption. }
      replace (Z.max 0 (Qfloor ms)) with 0 by lia. reflexivity.
    + unfold formatTimestamp. now rewrite Qfloor_Z.
Qed.

Lemma cue_rendering_witness :
  let segments := [mkSegment [mkWord "Hello" 0 500] 0 500;
                   mkSegment [mkWord " world." 3723004 3724000] 3723004 3724000] in
  let e := {| index := 2; start_ms := 3723004; end_ms := 3724000;
              lines := [lit "world."] |} in
  (nth_error (renderSegments segments defaultConfig) 1 = Some e
   /\ Z.max 0 (Qfloor (7447 # 2)) < 360000000
   /\ Qlt (-5 # 2) 0)
  /\ index e = 2%nat
  /\ formatTimestamp (7447 # 2) = lit "00:00:03,723"
  /\ formatTimestamp (-5 # 2) = lit "00:00:00,000".
Proof.
  intros segments e.
  assert (H1 : nth_error (renderSegments segments defaultConfig) 1 = Some e)
    by reflexivity.
  assert (H2 : Z.max 0 (Qfloor (7447 # 2)) < 360000000) by reflexivity.
  assert (H3 : Qlt (-5 # 2) 0) by reflexivity.
  split; [repeat split; assumption|].
  split; [|split].
  - exact (proj1 (proj2 (proj1 cue_rendering segments defaultConfig) 1%nat e H1)).
  - exact (proj1 (proj2 (proj2 (proj2 (proj2 (proj2
             (proj2 cue_rendering (7447 # 2))))))) H2).
  - exact (proj1 (proj2 (proj2 (proj2 (proj2 (proj2 (proj2
             (proj2 cue_rendering (-5 # 2)))))))) H3).
Defined.

(** ** Line wrapping: how many lines *)

Lemma splitAfter_two tokens maxCpl candidate lines :
  splitAfter tokens maxCpl candidate = Some lines -> length lines = 2%nat.
Proof.
  unfold splitAfter. intros H.
  destruct (_ <=? _); [|discriminate]. destruct (_ <=? _); [|discriminate].
  now inversion H.
Qed.

Lemma backtrack_two tokens safeAfter maxCpl : forall candidate lines,
  backtrack tokens safeAfter maxCpl candidate = Some lines -> length lines = 2%nat.
Proof.
  induction candidate as [|candidate IH]; intros lines H; simpl in H.
  - destruct (hasIndex safeAfter 0); [|discriminate].
    destruct (splitAfter tokens maxCpl 0) eqn:E; [|discriminate].
    inversion H; subst. eapply splitAfter_two; eauto.
  - destruct (hasIndex safeAfter (S candidate)); [|now apply IH].
    destruct (splitAfter tokens maxCpl (S candidate)) eqn:E; [|now apply IH].
    inversion H; subst. eapply splitAfter_two; eauto.
Qed.

Lemma firstFit_two tokens safeAfter maxCpl : forall rest i charLen lastSafe lines,
  firstFit tokens safeAfter maxCpl i rest charLen lastSafe = Some lines ->
  length lines = 2%nat.
Proof.
  induction rest as [|token rest IH]; intros i charLen lastSafe lines H;
    [discriminate|].
  simpl in H. destruct (_ <? _).
  - destruct (if hasIndex safeAfter i then Some i else lastSafe); [|discriminate].
    eapply backtrack_two; eauto.
  - eapply IH; eauto.
Qed.

(** Whatever the token-aware wrapper returns is either at most two lines
    or the very result of the delimiter-packing path. *)
Lemma tokenAware_lines tokens text maxCpl maxLines delimiters :
  (length (wrapTwoLinesTokenAware tokens text maxCpl maxLines delimiters) <= 2)%nat
  \/ (delimiters <> []
      /\ wrapWithPreferredDelimiters (trim text) delimiters maxCpl maxLines
         = Some (wrapTwoLinesTokenAware tokens text maxCpl maxLines delimiters)).
Proof.
  unfold wrapTwoLinesTokenAware.
  destruct (maxLines <=? 1); [left; simpl; lia|].
  assert (Hrest : forall r : list jsstring,
    r = (if lenZ (trim text) <=? maxCpl then [trim text]
         else match firstFit tokens (wrapSafeAfter 0 (map w_text tokens)) maxCpl 0
                             tokens 0 None with
              | Some lines => lines
              | None =>
                  match nearestSafe (wrapSafeAfter 0 (map w_text tokens))
                          (fold_left (fun sum txt => (sum + length txt)%nat)
                                     (map w_text tokens) 0%nat / 2) 0
                          (map w_text tokens) 0 None None with
                  | Some nearest =>
                      if (lenZ (trimEnd (concatText (firstn (nearest + 1) tokens)))
                          <=? maxCpl)
                         && (lenZ (trimStart (concatText (skipn (nearest + 1) tokens)))
                             <=? maxCpl)
                      then [trimEnd (concatText (firstn (nearest + 1) tokens));
                            trimStart (concatText (skipn (nearest + 1) tokens))]
                      else [trim text]
                  | None => [trim text]
                  end
              end) ->
    (length r <= 2)%nat).
  { intros r ->. destruct (_ <=? _); [simpl; lia|].
    destruct (firstFit _ _ _ _ _ _ _) eqn:Efit.
    - apply firstFit_two in Efit. lia.
    - destruct (nearestSafe _ _ _ _ _ _ _); [|simpl; lia].
      destruct (_ && _); simpl; lia. }
  destruct delimiters as [|d ds]; [left; now apply Hrest|].
  destruct (wrapWithPreferredDelimiters _ _ _ _) eqn:Ewrap.
  - right. split; [discriminate | reflexivity].
  - left. now apply Hrest.
Qed.

Lemma naive_lines text maxCpl maxLines :
  (length (wrapTwoLinesNaive text maxCpl maxLines []) <= 2)%nat.
Proof.
  unfold wrapTwoLinesNaive.
  repeat match goal with
         | |- context [if ?b then _ else _] => destruct b
         | |- context [match ?x with [] => _ | _ :: _ => _ end] => destruct x
         end; simpl; lia.
Qed.

Lemma takeLines_length n lines : (length (takeLines n lines) <= length lines)%nat.
Proof. unfold takeLines. rewrite length_firstn. lia. Qed.

(** C10: with no preferred delimiter the token-aware wrapper returns at
    most two lines whatever [maxLines] is, and so does every rendered
    entry; whenever it returns more than two lines, they are the result of
    the delimiter-packing path. *)
Theorem two_lines_without_delimiters :
  (forall tokens text maxCpl maxLines,
      (length (wrapTwoLinesTokenAware tokens text maxCpl maxLines []) <= 2)%nat)
  /\ (forall tokens text maxCpl maxLines delimiters,
        (2 < length (wrapTwoLinesTokenAware tokens text maxCpl maxLines delimiters))%nat ->
        delimiters <> []
        /\ wrapWithPreferredDelimiters (trim text) delimiters maxCpl maxLines
           = Some (wrapTwoLinesTokenAware tokens text maxCpl maxLines delimiters))
  /\ (forall segments config,
        line_split_delimiters config = [] ->
        Forall (fun e => (length (lines e) <= 2)%nat) (renderSegments segments config)).
Proof.
  split; [|split].
  - intros tokens text maxCpl maxLines.
    destruct (tokenAware_lines tokens text maxCpl maxLines []) as [H|[H _]];
      [exact H | now contradiction H].
  - intros tokens text maxCpl maxLines delimiters Hlong.
    destruct (tokenAware_lines tokens text maxCpl maxLines delimiters) as [H|H];
      [lia | exact H].
  - intros segments config Hnone. unfold renderSegments.
    assert (Hall : forall position,
              Forall (fun e => (length (lines e) <= 2)%nat)
                     (renderFrom position segments config)); [|apply Hall].
    induction segments as [|s rest IH]; intros position; simpl; constructor; [|apply IH].
    simpl. etransitivity; [apply takeLines_length|].
    unfold wrapSegment. rewrite Hnone.
    destruct (seg_tokens s) as [[|w ws]|]; try apply naive_lines.
    destruct (tokenAware_lines (w :: ws) (displayText s) (max_cpl config)
                (max_lines config) []) as [H|[H _]]; [exact H | now contradiction H].
Qed.

Lemma two_lines_without_delimiters_witness :
  let tokens := [mkWord "one," 0 100; mkWord " two," 100 200; mkWord " three" 200 300] in
  let text := lit "one, two, three" in
  let delimiters := [lit ","] in
  ((2 < length (wrapTwoLinesTokenAware tokens text 6 3 delimiters))%nat
   /\ line_split_delimiters defaultConfig = [])
  /\ wrapWithPreferredDelimiters (trim text) delimiters 6 3
     = Some [lit "one,"; lit "two,"; lit "three"]
  /\ Forall (fun e => (length (lines e) <= 2)%nat)
            (renderSegments [mkSegment tokens 0 300] defaultConfig).
Proof.
  intros tokens text delimiters.
  assert (H1 : (2 < length (wrapTwoLinesTokenAware tokens text 6 3 delimiters))%nat)
    by (vm_compute; lia).
  assert (H2 : line_split_delimiters defaultConfig = []) by reflexivity.
  split; [split; assumption|]. split.
  - rewrite (proj2 (proj1 (proj2 two_lines_without_delimiters)
                      tokens text 6 3 delimiters H1)).
    reflexivity.
  - exact (proj2 (proj2 two_lines_without_delimiters)
             [mkSegment tokens 0 300] defaultConfig H2).
Defined.

(** ** Line wrapping: the hard cut *)

Lemma trimStart_noWhite s : noWhite s -> trimStart s = s.
Proof. intros H. destruct H as [|c s Hc _]; simpl; [reflexivity|]. now rewrite Hc. Qed.

Lemma trim_noWhite s : noWhite s -> trim s = s.
Proof.
  intros H. unfold trim, trimEnd. rewrite (trimStart_noWhite s H).
  rewrite trimStart_noWhite; [apply rev_involutive|].
  unfold noWhite. now apply Forall_rev.
Qed.

Lemma codePoints_step c d s :
  codePoints (c :: d :: s)
  = if isHighSurrogate c && isLowSurrogate d
    then [c; d] :: codePoints s else [c] :: codePoints (d :: s).
Proof. reflexivity. Qed.

Lemma codePoints_concat : forall n s, (length s <= n)%nat -> concat (codePoints s) = s.
Proof.
  induction n as [|n IH]; intros s Hn.
  - destruct s; [reflexivity | simpl in Hn; lia].
  - destruct s as [|c [|d s]]; [reflexivity | reflexivity |].
    rewrite codePoints_step. destruct (isHighSurrogate c && isLowSurrogate d).
    + cbn [concat app]. f_equal. f_equal. apply IH. simpl in Hn. lia.
    + cbn [concat app]. f_equal. apply IH. simpl in Hn |- *. lia.
Qed.

Lemma totalLength_snoc pieces chunk :
  totalLength (pieces ++ [chunk]) = (totalLength pieces + length chunk)%nat.
Proof.
  unfold totalLength. rewrite concat_app, length_app. simpl. now rewrite app_nil_r.
Qed.

(** On text free of white space the scan only cuts: no code unit is lost. *)
Lemma splitLoopChars_total delimSet : forall chars current pieces,
  noWhite current -> noWhite (concat chars) ->
  totalLength (splitLoopChars delimSet chars current pieces)
  = (totalLength pieces + length current + length (concat chars))%nat.
Proof.
  induction chars as [|char rest IH]; intros current pieces Hcur Hchars.
  - simpl. rewrite (trim_noWhite current Hcur).
    destruct current; [simpl; lia|]. rewrite totalLength_snoc. simpl. lia.
  - simpl in Hchars. unfold noWhite in Hchars. apply Forall_app in Hchars as [Hchar Hrest].
    assert (Hnext : noWhite (current ++ char)) by (apply Forall_app; now split).
    cbn [splitLoopChars]. destruct (inSet delimSet char).
    + rewrite (trim_noWhite _ Hnext).
      destruct (current ++ char) as [|c cs] eqn:E.
      * rewrite IH by (auto; constructor).
        apply (f_equal (@length _)) in E. rewrite length_app in E.
        simpl in *. rewrite length_app. lia.
      * rewrite IH by (auto; constructor). rewrite totalLength_snoc.
        apply (f_equal (@length _)) in E. rewrite length_app in E.
        cbn [concat]. rewrite length_app. simpl in *. lia.
    + rewrite IH by assumption. cbn [concat]. rewrite !length_app. lia.
Qed.

Lemma newline_is_white c : isWhite c = false -> char_eqb c NEWLINE = false.
Proof.
  intros H. destruct (char_eqb c NEWLINE) eqn:E; [|reflexivity].
  apply N.eqb_eq in E. subst c. discriminate H.
Qed.

Lemma splitTextByDelimiters_total text delimiters :
  noWhite text ->
  totalLength (splitTextByDelimiters text delimiters) = length text.
Proof.
  intros Hw. unfold splitTextByDelimiters.
  destruct text as [|c0 text0] eqn:Etext; [reflexivity|]. rewrite <- Etext in *.
  assert (Hclean : map (fun c => if char_eqb c NEWLINE then SPACE else c) text = text).
  { clear Etext. induction Hw as [|c s Hc _ IH]; simpl; [reflexivity|].
    now rewrite (newline_is_white c Hc), IH. }
  rewrite Hclean.
  match goal with
  | |- context [splitLoopChars ?f _ _ _] => destruct f as [|d ds]
  end.
  - rewrite (trim_noWhite text Hw). rewrite Etext. unfold totalLength.
    cbn [concat]. now rewrite app_nil_r.
  - rewrite splitLoopChars_total.
    + rewrite (codePoints_concat (length text)) by lia. reflexivity.
    + constructor.
    + now rewrite (codePoints_concat (length text)) by lia.
Qed.

Lemma totalLength_cons part parts :
  totalLength (part :: parts) = (length part + totalLength parts)%nat.
Proof. unfold totalLength. simpl. apply length_app. Qed.

(** What [extendLine] returns packs at least the line so far and all
    remaining chunks into lines of at most [maxCpl] code units. *)
Lemma extendLine_fits maxCpl helper budget :
  (forall chunks lines, helper chunks = Some lines ->
     (length lines <= budget)%nat
     /\ Forall (fun l => lenZ l <= maxCpl) lines
     /\ (totalLength chunks <= totalLength lines)%nat) ->
  forall chunks line lines,
    extendLine maxCpl helper line chunks = Some lines ->
    (length lines <= S budget)%nat
    /\ Forall (fun l => lenZ l <= maxCpl) lines
    /\ (length line + totalLength chunks <= totalLength lines)%nat.
Proof.
  intros Hhelper. induction chunks as [|chunk rest IH]; intros line lines H;
    [discriminate|].
  cbn [extendLine] in H.
  set (line' := match line with [] => chunk | _ :: _ => line ++ [SPACE] ++ chunk end) in *.
  assert (Hgrow : (length line + length chunk <= length line')%nat).
  { subst line'. destruct line; [simpl; lia|]. rewrite !length_app. simpl. lia. }
  destruct (maxCpl <? Z.of_nat (length line')) eqn:Efit; [discriminate|].
  apply Z.ltb_ge in Efit. rewrite totalLength_cons.
  destruct (helper rest) as [packed|] eqn:Erest.
  - inversion H; subst. destruct (Hhelper _ _ Erest) as (Hn & Hall & Htot).
    rewrite totalLength_cons. repeat split; [simpl; lia | now constructor | lia].
  - destruct (IH _ _ H) as (Hn & Hall & Htot). repeat split; auto. lia.
Qed.

Lemma partitionHelper_fits maxCpl : forall remaining chunks lines,
  partitionHelper maxCpl remaining chunks = Some lines ->
  (length lines <= remaining)%nat
  /\ Forall (fun l => lenZ l <= maxCpl) lines
  /\ (totalLength chunks <= totalLength lines)%nat.
Proof.
  induction remaining as [|remaining IH]; intros chunks lines H.
  - destruct chunks; [|discriminate]. inversion H. repeat split; auto.
  - destruct chunks as [|c cs]; [inversion H; repeat split; auto; simpl; lia|].
    cbn [partitionHelper] in H.
    destruct (extendLine_fits maxCpl _ remaining IH _ _ _ H) as (Hn & Hall & Htot).
    repeat split; auto.
Qed.

Lemma extendLine_nonempty maxCpl helper : forall chunks line lines,
  extendLine maxCpl helper line chunks = Some lines -> lines <> [].
Proof.
  induction chunks as [|chunk rest IH]; intros line lines H; [discriminate|].
  cbn [extendLine] in H. destruct (_ <? _); [discriminate|].
  destruct (helper rest); [inversion H; discriminate | eapply IH; eauto].
Qed.

Lemma partitionHelper_nonempty maxCpl remaining c cs lines :
  partitionHelper maxCpl remaining (c :: cs) = Some lines -> lines <> [].
Proof.
  destruct remaining; [discriminate|]. cbn [partitionHelper].
  apply extendLine_nonempty.
Qed.

Lemma lines_capacity maxCpl : forall lines,
  Forall (fun l => lenZ l <= maxCpl) lines ->
  Z.of_nat (totalLength lines) <= maxCpl * Z.of_nat (length lines).
Proof.
  induction 1 as [|l lines Hl _ IH]; [simpl; lia|].
  rewrite totalLength_cons. unfold lenZ in Hl. simpl length. lia.
Qed.

(** Text free of white space that exceeds [maxCpl * maxLines] cannot be
    packed by the delimiter path. *)
Lemma delimiters_cannot_pack text delimiters maxCpl maxLines :
  noWhite text -> maxCpl * maxLines < lenZ text ->
  wrapWithPreferredDelimiters text delimiters maxCpl maxLines = None.
Proof.
  intros Hw Hlong. unfold wrapWithPreferredDelimiters.
  destruct (maxLines <=? 1) eqn:E1; [reflexivity|]. apply Z.leb_gt in E1.
  pose proof (splitTextByDelimiters_total text delimiters Hw) as Htotal.
  destruct (length (splitTextByDelimiters text delimiters) <=? 1)%nat;
    [reflexivity|].
  unfold partitionChunks.
  replace (maxLines <=? 0) with false by (symmetry; apply Z.leb_gt; lia).
  destruct (splitTextByDelimiters text delimiters) as [|c cs] eqn:Echunks.
  - reflexivity.
  - destruct (partitionHelper maxCpl (Z.to_nat maxLines) (c :: cs)) as [lines|] eqn:Ep;
      [|reflexivity].
    exfalso. pose proof (partitionHelper_nonempty _ _ _ _ _ Ep) as Hne.
    apply partitionHelper_fits in Ep as (Hn & Hall & Htot).
    pose proof (lines_capacity maxCpl lines Hall) as Hcap.
    unfold lenZ in Hlong. rewrite <- Htotal in Hlong.
    assert (Hcpl : 0 <= maxCpl).
    { destruct lines as [|l ls]; [contradiction|].
      inversion Hall; subst. unfold lenZ in *. lia. }
    nia.
Qed.

Lemma noWhite_no_space s : noWhite s -> includesSpace s = false.
Proof.
  unfold includesSpace. induction 1 as [|c s Hc _ IH]; [reflexivity|].
  cbn [existsb]. rewrite IH, orb_false_r.
  destruct (char_eqb SPACE c) eqn:E; [|reflexivity].
  apply N.eqb_eq in E. subst c. discriminate Hc.
Qed.

Lemma naive_hard_cut text delimiters :
  length text = 100%nat -> noWhite text ->
  wrapTwoLinesNaive text 42 2 delimiters
  = [firstn 42 text; firstn 42 (skipn 42 text)].
Proof.
  intros Hlen Hw. unfold wrapTwoLinesNaive.
  rewrite (trim_noWhite text Hw). cbn [Z.leb Z.compare Pos.compare Pos.compare_cont].
  assert (Hpack : match delimiters with
                  | [] => None
                  | _ :: _ => wrapWithPreferredDelimiters text delimiters 42 2
                  end = None).
  { destruct delimiters; [reflexivity|].
    apply delimiters_cannot_pack; [exact Hw|]. unfold lenZ. rewrite Hlen. reflexivity. }
  rewrite Hpack, (noWhite_no_space text Hw).
  unfold lenZ, sliceZ, clampIndex. rewrite Hlen.
  change (Z.of_nat 100 <=? 42) with false. cbv iota.
  change (Z.to_nat (Z.min 0 (Z.of_nat 100))) with 0%nat.
  change (42 * 2) with 84.
  change (if 0 <? 0 then Z.max (Z.of_nat 100 + 0) 0 else Z.min 0 (Z.of_nat 100)) with 0.
  change (if 42 <? 0 then Z.max (Z.of_nat 100 + 42) 0 else Z.min 42 (Z.of_nat 100)) with 42.
  change (if 84 <? 0 then Z.max (Z.of_nat 100 + 84) 0 else Z.min 84 (Z.of_nat 100)) with 84.
  change (Z.to_nat (42 - 0)) with 42%nat. change (Z.to_nat (84 - 42)) with 42%nat.
  change (Z.to_nat 0) with 0%nat. change (Z.to_nat 42) with 42%nat.
  change (skipn 0 text) with text.
  destruct (firstn 42 (skipn 42 text)) as [|c l] eqn:E; [|reflexivity].
  apply (f_equal (@length _)) in E. rewrite length_firstn, length_skipn, Hlen in E.
  discriminate E.
Qed.

(** C3 does not hold of the code.  One token of 100 letters makes a cue
    of one 100-letter word.  Rendered with [max_cpl = 42] and [max_lines = 2],
    the cue goes to [wrapTwoLinesTokenAware], which finds no safe boundary
    and returns the text whole: one line of 100 code units, where the
    claim says two lines of at most 42.  The sibling [wrapTwoLinesNaive]
    cuts the same text by character count into two lines of 42, and drops
    the last 16 code units. *)
Theorem one_word_cue_is_not_cut :
  exists segment,
    tokensToSubtitleSegments [tokenRun100] defaultConfig = Ret [segment]
    /\ map w_text (tokensOf segment) = [run100]
    /\ segmentText segment = run100
    /\ max_cpl defaultConfig = 42 /\ max_lines defaultConfig = 2
    /\ wrapSafeAfter 0 (map w_text (tokensOf segment)) = []
    /\ map lines (renderSegments [segment] defaultConfig) = [[run100]]
    /\ length run100 = 100%nat
    /\ wrapTwoLinesNaive run100 42 2 (line_split_delimiters defaultConfig)
       = [repeat 97%N 42; repeat 97%N 42].
Proof.
  eexists. split; [vm_compute; reflexivity|].
  split; [reflexivity|]. split; [vm_compute; reflexivity|].
  split; [reflexivity|]. split; [reflexivity|]. split; [reflexivity|].
  split; [vm_compute; reflexivity|]. split; [reflexivity|].
  assert (Hw : noWhite run100) by (repeat constructor).
  rewrite (naive_hard_cut run100 _ eq_refl Hw). reflexivity.
Qed.

(** ** The entry point fails before it writes *)

Section SrtFacts.

Variable resolve : jsstring -> jsstring.
Variable JSON_parse : jsstring -> option json.

Lemma nothingWritten_refl w : nothingWritten w w.
Proof. split; reflexivity. Qed.

Lemma nothingWritten_trans w1 w2 w3 :
  nothingWritten w1 w2 -> nothingWritten w2 w3 -> nothingWritten w1 w3.
Proof. intros [F1 T1] [F2 T2]. split; congruence. Qed.

Lemma quiet_lift {A} (o : outcome A) : quiet (IO.lift o).
Proof. intros w. apply nothingWritten_refl. Qed.

Lemma quiet_consoleInfo message : quiet (IO.consoleInfo message).
Proof.
  intros w. unfold nothingWritten, writesOf, IO.consoleInfo; simpl.
  split; [reflexivity|]. rewrite filter_app. simpl. apply app_nil_r.
Qed.

Lemma quiet_readFileSync path : quiet (IO.readFileSync path).
Proof.
  intros w. unfold IO.readFileSync.
  destruct (IO.readPath path (IO.files w)); apply nothingWritten_refl.
Qed.

Lemma quiet_bind {A B} (m : IO.M A) (k : A -> IO.M B) :
  quiet m -> (forall a, quiet (k a)) -> quiet (IO.bindM m k).
Proof.
  intros Hm Hk w. unfold IO.bindM. specialize (Hm w).
  destruct (m w) as [[a| | |] w']; simpl in *; try exact Hm.
  eapply nothingWritten_trans; [exact Hm | apply Hk].
Qed.

Lemma failsClean_bind {A B} (m : IO.M A) (k : A -> IO.M B) :
  quiet m -> (forall a, failsClean (k a)) -> failsClean (IO.bindM m k).
Proof.
  intros Hm Hk w. unfold IO.bindM. specialize (Hm w).
  destruct (m w) as [[a| | |] w']; simpl in *; try (intros _; exact Hm).
  intros Hfail. eapply nothingWritten_trans; [exact Hm | now apply Hk].
Qed.

Lemma quiet_failsClean {A} (m : IO.M A) : quiet m -> failsClean m.
Proof. intros H w _. apply H. Qed.

Lemma srt_failsClean transcript outputPath config :
  failsClean (srt resolve JSON_parse transcript outputPath config).
Proof.
  unfold srt. apply failsClean_bind.
  { destruct transcript as [path|data]; [|apply quiet_lift].
    apply quiet_bind; [apply quiet_consoleInfo|]. intros _.
    apply quiet_bind; [apply quiet_readFileSync|]. intros raw.
    destruct (JSON_parse raw); apply quiet_lift. }
  intros data. apply failsClean_bind; [apply quiet_lift|].
  intros items. apply failsClean_bind; [apply quiet_lift|].
  intros tokens. apply failsClean_bind; [apply quiet_lift|].
  intros [|s segments]; [apply quiet_failsClean, quiet_lift|].
  intros w Hfail. discriminate Hfail.
Qed.

(** C4: a transcript without tokens makes [srt] throw the input error,
    which is the case of an empty token list; a transcript whose
    segmentation is empty makes it throw the empty-result error; and
    whenever [srt] does not return, no file was written. *)
Theorem srt_fails_before_writing :
  (forall data outputPath config w,
      extractTokens data = Throw (Error NO_TOKENS) ->
      srt resolve JSON_parse (FromData data) outputPath config w
      = (Throw (Error NO_TOKENS), w))
  /\ (forall fields,
        tokensArray fields = None -> collectTokens (JObj fields) true = [] ->
        extractTokens (JObj fields) = Throw (Error NO_TOKENS))
  /\ extractTokens emptyTranscript = Throw (Error NO_TOKENS)
  /\ (forall data items tokens outputPath config w,
        extractTokens data = Ret items -> asTokens items = Ret tokens ->
        tokensToSubtitleSegments tokens config = Ret [] ->
        srt resolve JSON_parse (FromData data) outputPath config w
        = (Throw (Error NO_SEGMENTS), w))
  /\ (forall transcript outputPath config w,
        let r := srt resolve JSON_parse transcript outputPath config w in
        isRet (fst r) = false -> nothingWritten w (snd r)).
Proof.
  split; [|split; [|split; [|split]]].
  - intros data outputPath config w H.
    unfold srt, IO.bindM, IO.ret, IO.lift. cbn beta iota. now rewrite H.
  - intros fields Htok Hnested. unfold extractTokens. now rewrite Htok, Hnested.
  - reflexivity.
  - intros data items tokens outputPath config w Hitems Htokens Hsegs.
    unfold srt, IO.bindM, IO.ret, IO.lift. cbn beta iota.
    now rewrite Hitems, Htokens, Hsegs.
  - intros transcript outputPath config w r Hfail.
    now apply srt_failsClean.
Qed.

End SrtFacts.

Lemma srt_fails_before_writing_witness :
  let resolve := fun p : jsstring => p in
  let parse := fun _ : jsstring => @None json in
  let out := lit "subtitles.srt" in
  (extractTokens emptyTranscript = Throw (Error NO_TOKENS)
   /\ tokensArray [(lit "tokens", JArr [])] = None
   /\ collectTokens emptyTranscript true = []
   /\ extractTokens blankTranscript
      = Ret [JObj [(lit "text", JStr (lit " "))]]
   /\ asTokens [JObj [(lit "text", JStr (lit " "))]] = Ret [untimedToken " "]
   /\ tokensToSubtitleSegments [untimedToken " "] defaultConfig = Ret []
   /\ isRet (fst (srt resolve parse (FromPath (lit "missing.json")) out
                      defaultConfig emptyWorld)) = false)
  /\ srt resolve parse (FromData emptyTranscript) out defaultConfig emptyWorld
     = (Throw (Error NO_TOKENS), emptyWorld)
  /\ srt resolve parse (FromData blankTranscript) out defaultConfig emptyWorld
     = (Throw (Error NO_SEGMENTS), emptyWorld)
  /\ nothingWritten emptyWorld
       (snd (srt resolve parse (FromPath (lit "missing.json")) out
                 defaultConfig emptyWorld)).
Proof.
  intros resolve parse out.
  assert (H1 : extractTokens emptyTranscript = Throw (Error NO_TOKENS)) by reflexivity.
  assert (H2 : tokensArray [(lit "tokens", JArr [])] = None) by reflexivity.
  assert (H3 : collectTokens emptyTranscript true = []) by reflexivity.
  assert (H4 : extractTokens blankTranscript
               = Ret [JObj [(lit "text", JStr (lit " "))]]) by reflexivity.
  assert (H5 : asTokens [JObj [(lit "text", JStr (lit " "))]]
               = Ret [untimedToken " "]) by reflexivity.
  assert (H6 : tokensToSubtitleSegments [untimedToken " "] defaultConfig = Ret [])
    by reflexivity.
  assert (H7 : isRet (fst (srt resolve parse (FromPath (lit "missing.json")) out
                               defaultConfig emptyWorld)) = false) by reflexivity.
  pose proof (srt_fails_before_writing resolve parse) as (Ha & Hb & _ & Hd & He).
  split; [repeat split; assumption|]. split; [|split].
  - exact (Ha emptyTranscript out defaultConfig emptyWorld (Hb _ H2 H3)).
  - exact (Hd blankTranscript _ _ out defaultConfig emptyWorld H4 H5 H6).
  - exact (He (FromPath (lit "missing.json")) out defaultConfig emptyWorld H7).
Defined.

(** * Further properties *)

(** ** The enforcer keeps the words *)

Lemma Splits_flat config seg outs :
  Splits config seg outs -> flatWords outs = tokensOf seg /\ outs <> [].
Proof.
  induction 1 as [seg Hleaf|seg l0 r0 ls rs Hsplit Hl Hr _ IHl _ IHr].
  - split; [simpl; apply app_nil_r | discriminate].
  - destruct IHl as [Hfl Hnl]. destruct IHr as [Hfr _].
    unfold leftChild, rightChild in Hfl, Hfr. rewrite tokensOf_child in Hfl, Hfr.
    split.
    + rewrite flatWords_app, Hfl, Hfr. apply firstn_skipn.
    + destruct ls; [contradiction | discriminate].
Qed.

Lemma splitPhase_flat config : forall segments outs,
  Forall2 (Splits config) segments outs ->
  flatWords (concat outs) = flatWords segments
  /\ (concat outs = [] <-> segments = []).
Proof.
  induction 1 as [|seg out segments outs Hs _ IH].
  - split; [reflexivity | split; reflexivity].
  - destruct (Splits_flat _ _ _ Hs) as [Hf Hne]. destruct IH as [IHf _].
    simpl. split.
    + now rewrite flatWords_app, Hf, IHf.
    + split; [|discriminate]. intros E. apply app_eq_nil in E as [E _].
      contradiction.
Qed.

Lemma mergePass_nil config l : fst (mergePass config l) = [] <-> l = [].
Proof.
  destruct l as [|a [|b rest]]; [split; reflexivity | split; discriminate |].
  rewrite mergePass_step. destruct (mergeable config a b); split; discriminate.
Qed.

(** X1: [enforceReadability] returns, and the words of its output, read
    in order, are the words of its input: splitting and merging regroup
    words but never drop, repeat or reorder one; the output is empty only
    for an empty input. *)
Theorem enforceReadability_keeps_words
    (segments : list SubtitleSegment) (config : SubtitleConfig) :
  exists out,
    enforceReadability segments config = Ret out
    /\ flatWords out = flatWords segments
    /\ (out = [] <-> segments = []).
Proof.
  destruct (enforceReadability_spec config
              (fun l => flatWords l = flatWords segments /\ (l = [] <-> segments = []))
              segments) as (out & Hrun & Hout & _).
  - intros l [Hf He]. split.
    + now rewrite (mergePass_flat config (length l)) by lia.
    + now rewrite mergePass_nil.
  - intros outs Hall. now apply (splitPhase_flat config).
  - exists out. split; [exact Hrun | exact Hout].
Qed.

(** ** Cues that need no work *)

Lemma Splits_leaf_only config seg outs :
  Splits config seg outs -> mustSplit config seg = false -> outs = [seg].
Proof. destruct 1; [reflexivity | congruence]. Qed.

Lemma splitPhase_leaves_only config : forall segments outs,
  Forall2 (Splits config) segments outs ->
  Forall (fun s => mustSplit config s = false) segments ->
  concat outs = segments.
Proof.
  induction 1 as [|seg out segments outs Hs _ IH]; intros Hall; [reflexivity|].
  inversion Hall; subst. simpl.
  rewrite (Splits_leaf_only _ _ _ Hs) by assumption. simpl. f_equal. now apply IH.
Qed.

Lemma mergePass_unmergeable config : forall l,
  unmergeable config l -> mergePass config l = (l, false).
Proof.
  induction l as [|a l IH]; intros Hun; [reflexivity|].
  destruct l as [|b rest]; [reflexivity|].
  rewrite mergePass_step. rewrite (Hun 0%nat a b eq_refl eq_refl).
  rewrite IH; [reflexivity|].
  intros i x y Hx Hy. apply (Hun (S i)); assumption.
Qed.

(** X2: segments that the split test leaves alone and that the merge test
    keeps apart pairwise come out of [enforceReadability] unchanged. *)
Theorem enforceReadability_fixes_compliant
    (segments : list SubtitleSegment) (config : SubtitleConfig) :
  Forall (fun s => mustSplit config s = false) segments ->
  unmergeable config segments ->
  enforceReadability segments config = Ret segments.
Proof.
  intros Hleaves Hun. unfold enforceReadability.
  destruct (splitPhase_spec config segments []) as (outs & Hall & Hrun).
  rewrite Hrun, (splitPhase_leaves_only _ _ _ Hall Hleaves). cbn [app bind].
  unfold mergePhase. cbn [mergeLoop].
  now rewrite (mergePass_unmergeable config segments Hun).
Qed.

Lemma enforceReadability_fixes_compliant_witness :
  let a := mkSegment [mkWord "Good" 0 900; mkWord " morning." 900 2000] 0 2000 in
  let b := mkSegment [mkWord " Later" 9000 10500] 9000 10500 in
  (Forall (fun s => mustSplit defaultConfig s = false) [a; b]
   /\ unmergeable defaultConfig [a; b])
  /\ enforceReadability [a; b] defaultConfig = Ret [a; b].
Proof.
  intros a b.
  assert (H1 : Forall (fun s => mustSplit defaultConfig s = false) [a; b])
    by (repeat constructor).
  assert (H2 : unmergeable defaultConfig [a; b]).
  { intros [|[|i]] x y Hx Hy; simpl in Hx, Hy; try discriminate.
    inversion Hx; inversion Hy; subst. reflexivity. }
  split; [split; assumption|].
  exact (enforceReadability_fixes_compliant [a; b] defaultConfig H1 H2).
Defined.

(** The reading speed is compared as the code computes it: 42 visible
    characters over 2800 ms are 15 characters per second exactly, but
    the two divisions round to the next double above 15, so with
    [max_cps = 15] the segment is over budget and has to be split. *)
Lemma reading_speed_is_rounded :
  let config :=
    {| gap_ms := gap_ms defaultConfig; min_dur_ms := min_dur_ms defaultConfig;
       max_dur_ms := max_dur_ms defaultConfig; max_cps := Double.ofZ 15;
       max_cpl := 42; max_lines := 2; line_split_delimiters := [];
       segment_on_sentence := false; split_on_speaker := false;
       ellipses := false |} in
  let seg := mkSegment [mkWord "aaaaaaaaaaaaaaaaaaaaa" 0 1400;
                        mkWord " aaaaaaaaaaaaaaaaaaaaa" 1400 2800] 0 2800 in
  Z.of_nat (charsForCps (segmentText seg)) * 1000 = 15 * durationOf seg
  /\ cpsOf seg = SpecFloat.S754_finite false 8444249301319681 (-49)
  /\ cpsExceeds seg (max_cps config) = true
  /\ mustSplit config seg = true.
Proof. repeat split; vm_compute; reflexivity. Qed.

(** ** Visible characters *)

Lemma visible_app a b : visibleChars (a ++ b) = visibleChars a ++ visibleChars b.
Proof. apply filter_app. Qed.

Lemma visible_trimStart s : visibleChars (trimStart s) = visibleChars s.
Proof.
  induction s as [|c s IH]; [reflexivity|]. simpl.
  destruct (isWhite c) eqn:E; simpl; [exact IH | now rewrite E].
Qed.

Lemma visible_rev s : visibleChars (rev s) = rev (visibleChars s).
Proof.
  induction s as [|c s IH]; [reflexivity|]. simpl.
  rewrite visible_app, IH. simpl.
  destruct (isWhite c); simpl; [apply app_nil_r | reflexivity].
Qed.

Lemma visible_trimEnd s : visibleChars (trimEnd s) = visibleChars s.
Proof.
  unfold trimEnd. now rewrite visible_rev, visible_trimStart, visible_rev, rev_involutive.
Qed.

Lemma visible_trim s : visibleChars (trim s) = visibleChars s.
Proof. unfold trim. now rewrite visible_trimEnd, visible_trimStart. Qed.

Lemma visible_join parts : visibleChars (join parts) = concat (map visibleChars parts).
Proof.
  unfold join. induction parts as [|p parts IH]; [reflexivity|].
  simpl. now rewrite visible_app, IH.
Qed.

Lemma trimStart_nil s : trimStart s = [] -> visibleChars s = [].
Proof.
  induction s as [|c s IH]; [reflexivity|]. simpl.
  destruct (isWhite c); [exact IH | discriminate].
Qed.

Lemma trimStart_head s c t : trimStart s = c :: t -> isWhite c = false.
Proof.
  induction s as [|d s IH]; [discriminate|]. simpl.
  destruct (isWhite d) eqn:E; [exact IH | now intros [= <- _]].
Qed.

(** Trimming leaves nothing exactly when nothing is visible. *)
Lemma trim_nil_iff s : trim s = [] <-> visibleChars s = [].
Proof.
  split.
  - intros H. rewrite <- (visible_trim s). now rewrite H.
  - intros H. unfold trim, trimEnd.
    destruct (trimStart (rev (trimStart s))) as [|c t] eqn:E; [reflexivity|].
    exfalso. pose proof (trimStart_head _ _ _ E) as Hc.
    assert (Hin : In c (visibleChars s)).
    { rewrite <- (visible_trimStart s), <- (rev_involutive (visibleChars _)),
        <- visible_rev, <- visible_trimStart, E.
      apply in_rev. rewrite rev_involutive. simpl. rewrite Hc. now left. }
    now rewrite H in Hin.
Qed.

Module WordsVisible.
Import Words WordsSpec.

Lemma add_visible t txt p st :
  wf st ->
  visibleChars (written (addToCurrent t txt p st))
  = visibleChars (written st) ++ visibleChars txt.
Proof.
  intros Hwf. destruct (currentTokens st) as [|f fs] eqn:E.
  - rewrite WordsFacts.add_written_fresh by assumption.
    rewrite !visible_app. f_equal.
    now destruct (t_prefix_space (if p then set_prefix_space t else t)).
  - rewrite WordsFacts.add_written_open by (rewrite E; discriminate).
    apply visible_app.
Qed.

Lemma step_visible st t :
  wf st ->
  visibleChars (written (step st t))
  = visibleChars (written st) ++ visibleChars (rawTextOf t).
Proof.
  intros Hwf. unfold step. destruct (rawTextOf t) as [|c0 raw] eqn:Eraw.
  - simpl. now rewrite app_nil_r.
  - rewrite <- (visible_trimStart (c0 :: raw)).
    match goal with |- visibleChars (written (if ?b then flush ?s else ?s)) = _ =>
      assert (H : written (if b then flush s else s) = written s)
        by (destruct b; [apply WordsFacts.flush_written | reflexivity]);
      rewrite H; clear H end.
    assert (Hflush : visibleChars (written (addToCurrent t (trimStart (c0 :: raw))
                                              false (flush st)))
                     = visibleChars (written st)
                       ++ visibleChars (trimStart (c0 :: raw))).
    { rewrite add_visible by (apply WordsFacts.flush_wf, Hwf).
      now rewrite WordsFacts.flush_written. }
    destruct (isWhite c0).
    + rewrite add_visible by (apply WordsFacts.flush_wf, Hwf).
      now rewrite WordsFacts.flush_written.
    + destruct (currentTokens st); [now apply add_visible|].
      repeat match goal with
             | |- visibleChars (written (if ?b then _ else _)) = _ => destruct b
             end; try exact Hflush; now apply add_visible.
Qed.

Lemma fold_visible tokens : forall st,
  wf st ->
  visibleChars (written (fold_left step tokens st))
  = visibleChars (written st) ++ visibleChars (join (map rawTextOf tokens)).
Proof.
  induction tokens as [|t ts IH]; simpl; intros st Hwf.
  - now rewrite app_nil_r.
  - rewrite IH by (apply WordsFacts.step_wf, Hwf).
    rewrite step_visible by assumption.
    unfold join. simpl. now rewrite visible_app, app_assoc.
Qed.

Lemma run_visible tokens :
  visibleChars (textsOf (words (run tokens)))
  = visibleChars (join (map rawTextOf tokens)).
Proof.
  pose proof (WordsFacts.flush_written (fold_left step tokens init)) as H.
  apply (f_equal visibleChars) in H.
  rewrite fold_visible in H by (unfold wf; reflexivity).
  unfold written, pending in H. fold (run tokens) in H.
  unfold run in H at 2. rewrite WordsFacts.flush_empty in H.
  simpl in H. rewrite app_nil_r in H. exact H.
Qed.

End WordsVisible.

Lemma tokensToWords_visible_chars tokens :
  visibleChars (textsOf (tokensToWords tokens)) = visibleOfTokens tokens.
Proof.
  unfold visibleOfTokens. rewrite <- WordsVisible.run_visible. unfold tokensToWords.
  destruct (Words.words (Words.run tokens)) as [|w0 rest]; [reflexivity|].
  destruct (startsWithSpace (w_text w0)); [|reflexivity].
  unfold textsOf, join. simpl. now rewrite !visible_app, visible_trimStart.
Qed.

(** X3: the words carry exactly the characters of the tokens that are not
    white space, in the same order: word assembly changes white space
    only. *)
Theorem tokensToWords_keeps_visible (tokens : list Token) :
  visibleChars (join (map w_text (tokensToWords tokens)))
  = visibleChars (join (map rawTextOf tokens)).
Proof. apply tokensToWords_visible_chars. Qed.

Lemma visible_texts_filter ws :
  visibleChars (textsOf (filter visibleWord ws)) = visibleChars (textsOf ws).
Proof.
  unfold textsOf. rewrite !visible_join.
  induction ws as [|w ws IH]; [reflexivity|]. simpl.
  unfold visibleWord at 1. destruct (visibleChars (w_text w)) eqn:E; simpl.
  - exact IH.
  - now rewrite E, IH.
Qed.

Lemma invisible_words ws :
  visibleChars (textsOf ws) = [] -> filter visibleWord ws = [].
Proof.
  unfold textsOf. rewrite visible_join.
  induction ws as [|w ws IH]; [reflexivity|]. simpl. intros H.
  apply app_eq_nil in H as [Hw Hws]. unfold visibleWord at 1. rewrite Hw. simpl.
  now apply IH.
Qed.

Lemma concatText_visible ws : visibleChars (concatText ws) = visibleChars (textsOf ws).
Proof. apply visible_trim. Qed.

(** ** What the segmenter emits *)

Module BuildShape.
Import Build BuildSpec.

(** What [closeSegment] does to the segment list and to the open words:
    nothing, a drop of words that show nothing, or one more segment. *)
Lemma closeSegment_cases sb st :
  current (closeSegment sb st) = []
  /\ ((segments (closeSegment sb st) = segments st
       /\ filter visibleWord (current st) = [])
      \/ exists seg,
           segments (closeSegment sb st) = segments st ++ [seg]
           /\ built seg /\ tokensOf seg = current st /\ sentence_break seg = sb).
Proof.
  unfold closeSegment. destruct (current st) as [|w ws] eqn:Ecur.
  - split; [exact Ecur | left; split; reflexivity].
  - destruct (concatText (w :: ws)) as [|c text] eqn:Etext.
    + split; [reflexivity|]. left. split; [reflexivity|].
      apply invisible_words. rewrite <- concatText_visible. now rewrite Etext.
    + split; [reflexivity|]. right. eexists. split; [reflexivity|].
      split; [|split; reflexivity].
      unfold built, segmentText.
      cbn [seg_tokens seg_text prefix_ellipsis suffix_ellipsis seg_speaker].
      repeat split; eauto.
      rewrite Etext. discriminate.
Qed.

Lemma closeSegment_built sb st :
  Forall built (segments st) -> Forall built (segments (closeSegment sb st)).
Proof.
  intros H. destruct (closeSegment_cases sb st) as [_ [[-> _]|(seg & -> & Hb & _)]];
    [exact H|].
  apply Forall_app. split; [exact H | constructor; [exact Hb | constructor]].
Qed.

Lemma closeSegment_visible sb st :
  filter visibleWord (flat (closeSegment sb st)) = filter visibleWord (flat st).
Proof.
  unfold flat. destruct (closeSegment_cases sb st) as [-> [[-> Hdrop]|(seg & -> & _ & Hw & _)]].
  - now rewrite !filter_app, Hdrop.
  - rewrite flatWords_app. simpl. now rewrite Hw, !app_nil_r.
Qed.

Lemma closeSegment_members (P : WordToken -> Prop) sb st :
  Forall P (flat st) -> Forall P (flat (closeSegment sb st)).
Proof.
  unfold flat. intros H. apply Forall_app in H as [Hs Hc].
  destruct (closeSegment_cases sb st) as [-> [[-> _]|(seg & -> & _ & Hw & _)]].
  - apply Forall_app. split; [exact Hs | constructor].
  - rewrite flatWords_app. simpl. rewrite Hw, !app_nil_r.
    apply Forall_app. now split.
Qed.

Lemma keeps_refl P st : keeps P st st.
Proof. repeat split; auto. Qed.

Lemma keeps_close P sb st : keeps P st (closeSegment sb st).
Proof.
  repeat split;
    auto using closeSegment_built, closeSegment_visible, closeSegment_members.
Qed.

Lemma keeps_trans P a b c : keeps P a b -> keeps P b c -> keeps P a c.
Proof.
  intros (B1 & V1 & M1) (B2 & V2 & M2). repeat split; auto. congruence.
Qed.

Lemma keeps_speakerRule P b st w : keeps P st (speakerRule b st w).
Proof.
  unfold speakerRule.
  match goal with |- keeps _ _ (if ?c then _ else _) => destruct c end;
    auto using keeps_refl, keeps_close.
Qed.

Lemma keeps_gapRule P g st w : keeps P st (gapRule g st w).
Proof.
  unfold gapRule. destruct (current st); [apply keeps_refl|].
  destruct (lastTokenEnd st); [|apply keeps_refl].
  repeat match goal with |- keeps _ _ (if ?c then _ else _) => destruct c end;
    auto using keeps_refl, keeps_close.
Qed.

Lemma flat_append st w : flat (append st w) = flat st ++ [w].
Proof. unfold flat, append; simpl. apply app_assoc. Qed.

Lemma step_shape P g b1 b2 st w :
  P w ->
  (Forall built (segments st) -> Forall built (segments (step g b1 b2 st w)))
  /\ filter visibleWord (flat (step g b1 b2 st w))
     = filter visibleWord (flat st) ++ filter visibleWord [w]
  /\ (Forall P (flat st) -> Forall P (flat (step g b1 b2 st w))).
Proof.
  intros Pw.
  pose proof (keeps_trans P _ _ _ (keeps_speakerRule P b1 st w)
                (keeps_gapRule P g (speakerRule b1 st w) w)) as (B & V & M).
  set (st2 := gapRule g (speakerRule b1 st w) w) in *.
  assert (H3 : (Forall built (segments st) -> Forall built (segments (append st2 w)))
               /\ filter visibleWord (flat (append st2 w))
                  = filter visibleWord (flat st) ++ filter visibleWord [w]
               /\ (Forall P (flat st) -> Forall P (flat (append st2 w)))).
  { rewrite flat_append, filter_app, V. repeat split; auto.
    intros H. apply Forall_app. split; [auto | now repeat constructor]. }
  unfold step. fold st2.
  destruct (isSentenceEnd b2 (w_text w)); [|exact H3].
  destruct H3 as (B3 & V3 & M3).
  destruct (keeps_close P true (append st2 w)) as (B4 & V4 & M4).
  repeat split; auto. congruence.
Qed.

Lemma fold_shape P g b1 b2 : forall ws st,
  Forall P ws ->
  (Forall built (segments st) ->
   Forall built (segments (fold_left (step g b1 b2) ws st)))
  /\ filter visibleWord (flat (fold_left (step g b1 b2) ws st))
     = filter visibleWord (flat st) ++ filter visibleWord ws
  /\ (Forall P (flat st) -> Forall P (flat (fold_left (step g b1 b2) ws st))).
Proof.
  induction ws as [|w ws IH]; intros st HP.
  - simpl. rewrite app_nil_r. repeat split; auto.
  - inversion HP; subst. cbn [fold_left].
    destruct (step_shape P g b1 b2 st w) as (B & V & M); [assumption|].
    destruct (IH (step g b1 b2 st w)) as (B' & V' & M'); [assumption|].
    repeat split; auto. rewrite V', V. cbn [filter].
    destruct (visibleWord w); simpl; now rewrite <- app_assoc.
Qed.

End BuildShape.

Lemma buildSegments_shape (P : WordToken -> Prop) ws g b1 b2 :
  Forall P ws ->
  Forall built (buildSegments ws g b1 b2)
  /\ filter visibleWord (flatWords (buildSegments ws g b1 b2))
     = filter visibleWord ws
  /\ Forall P (flatWords (buildSegments ws g b1 b2)).
Proof.
  intros HP. unfold buildSegments.
  destruct (BuildShape.fold_shape P g b1 b2 ws Build.init HP) as (B & V & M).
  set (st := fold_left _ ws Build.init) in *.
  destruct (BuildShape.keeps_close P false st) as (B' & V' & M').
  destruct (BuildShape.closeSegment_cases false st) as [Hcur _].
  assert (Hflat : BuildSpec.flat (Build.closeSegment false st)
                  = flatWords (Build.segments (Build.closeSegment false st)))
    by (unfold BuildSpec.flat; now rewrite Hcur, app_nil_r).
  rewrite Hflat in V', M'.
  repeat split.
  - apply B', B. constructor.
  - rewrite V', V. reflexivity.
  - apply M', M. constructor.
Qed.

(** X4: every segment [buildSegments] emits has at least one word and a
    non-empty text, carries no ellipsis marker and no free text, and has
    for speaker the first non-empty speaker of its words, [null] when
    there is none. *)
Theorem buildSegments_segments_built
    (ws : list WordToken) (gapThreshold : Z) (splitOnSpeaker segmentOnSentence : bool) :
  Forall built (buildSegments ws gapThreshold splitOnSpeaker segmentOnSentence).
Proof.
  apply (buildSegments_shape (fun _ => True)). apply Forall_forall. intros; exact I.
Qed.

(** X5: the segmenter keeps every word that shows a character, once and
    in input order: the words of its segments, without those that are all
    white space, are the input words without those. *)
Theorem buildSegments_keeps_visible_words
    (ws : list WordToken) (gapThreshold : Z) (splitOnSpeaker segmentOnSentence : bool) :
  filter visibleWord
    (flatWords (buildSegments ws gapThreshold splitOnSpeaker segmentOnSentence))
  = filter visibleWord ws.
Proof.
  apply (buildSegments_shape (fun _ => True)). apply Forall_forall. intros; exact I.
Qed.

(** ** From tokens to cue texts *)

Lemma Splits_Forall config (Q : SubtitleSegment -> Prop) :
  (forall seg idx w, Q seg -> Q (leftChild config seg idx w)) ->
  (forall seg idx w, Q seg -> Q (rightChild config seg idx w)) ->
  forall seg outs, Splits config seg outs -> Q seg -> Forall Q outs.
Proof.
  intros Hl Hr. induction 1 as [seg Hleaf|seg l0 r0 ls rs _ _ _ _ IHl _ IHr];
    intros HQ.
  - now repeat constructor.
  - apply Forall_app. split; [apply IHl, Hl, HQ | apply IHr, Hr, HQ].
Qed.

Lemma splitPhase_Forall config (Q : SubtitleSegment -> Prop) :
  (forall seg idx w, Q seg -> Q (leftChild config seg idx w)) ->
  (forall seg idx w, Q seg -> Q (rightChild config seg idx w)) ->
  forall segments outs,
    Forall2 (Splits config) segments outs -> Forall Q segments ->
    Forall Q (concat outs).
Proof.
  intros Hl Hr. induction 1 as [|seg out segments outs Hs _ IH]; intros HQ;
    [constructor|].
  inversion HQ; subst. simpl. apply Forall_app. split; [|now apply IH].
  eapply Splits_Forall; eauto.
Qed.

(** Every property that the two children of a split and the result of a
    merge have, and that the input segments have, the output segments
    have; the output also keeps the words. *)
Lemma enforceReadability_Forall config (Q : SubtitleSegment -> Prop) segments :
  (forall seg idx w, Q seg -> Q (leftChild config seg idx w)) ->
  (forall seg idx w, Q seg -> Q (rightChild config seg idx w)) ->
  (forall a b, Q a -> Q b -> Q (mergeTwo a b)) ->
  Forall Q segments ->
  exists out,
    enforceReadability segments config = Ret out
    /\ Forall Q out
    /\ flatWords out = flatWords segments
    /\ (out = [] <-> segments = []).
Proof.
  intros Hl Hr Hm HQ.
  destruct (enforceReadability_spec config
              (fun l => Forall Q l /\ flatWords l = flatWords segments
                        /\ (l = [] <-> segments = []))
              segments) as (out & Hrun & Hout & _).
  - intros l (HQl & Hf & He). split; [|split].
    + apply (mergePass_Forall config Q (fun a b _ => Hm a b) (length l)); auto.
    + now rewrite (mergePass_flat config (length l)) by lia.
    + now rewrite mergePass_nil.
  - intros outs Hall. split.
    + eapply splitPhase_Forall; eauto.
    + now apply (splitPhase_flat config).
  - exists out. split; [exact Hrun | exact Hout].
Qed.

Lemma built_hasWords s : built s -> hasWords s.
Proof. intros ((w & ws & E) & _). unfold hasWords. now rewrite E. Qed.

Lemma visible_segment_texts l :
  Forall hasWords l ->
  visibleChars (join (map segmentText l)) = visibleChars (textsOf (flatWords l)).
Proof.
  unfold textsOf, flatWords. induction 1 as [|s l Hs _ IH]; [reflexivity|].
  unfold join in *. simpl. rewrite map_app, concat_app, !visible_app, IH. f_equal.
  unfold segmentText, tokensOf, hasWords in *.
  destruct (seg_tokens s) as [ws|]; [apply concatText_visible | contradiction].
Qed.

Lemma buildSegments_visible tokens g b1 b2 :
  visibleChars (textsOf (flatWords (buildSegments (tokensToWords tokens) g b1 b2)))
  = visibleOfTokens tokens.
Proof.
  rewrite <- visible_texts_filter.
  destruct (buildSegments_shape (fun _ => True) (tokensToWords tokens) g b1 b2)
    as (_ & -> & _); [apply Forall_forall; intros; exact I|].
  rewrite visible_texts_filter. apply tokensToWords_visible_chars.
Qed.

Lemma built_shows s l : built s -> visibleChars (textsOf (flatWords (s :: l))) <> [].
Proof.
  intros ((w & ws & E) & Htext & _). unfold segmentText in Htext. rewrite E in Htext.
  change (flatWords (s :: l)) with (tokensOf s ++ flatWords l).
  unfold tokensOf. rewrite E. cbn [orElse].
  unfold textsOf, join. rewrite map_app, concat_app, visible_app.
  intros H. apply app_eq_nil in H as [H _]. apply Htext, trim_nil_iff. exact H.
Qed.

(** The conversion returns; what it returns shows the visible characters
    of the tokens and is empty exactly when there is none. *)
Lemma conversion_spec tokens config :
  exists out,
    tokensToSubtitleSegments tokens config = Ret out
    /\ Forall hasWords out
    /\ visibleChars (join (map segmentText out)) = visibleOfTokens tokens
    /\ (out = [] <-> visibleOfTokens tokens = []).
Proof.
  unfold tokensToSubtitleSegments.
  pose proof (buildSegments_visible tokens (gap_ms config) (split_on_speaker config)
                (segment_on_sentence config)) as Hvis.
  pose proof (buildSegments_shape (fun _ => True) (tokensToWords tokens)
                (gap_ms config) (split_on_speaker config) (segment_on_sentence config))
    as (Hbuilt & _); [apply Forall_forall; intros; exact I|].
  destruct (buildSegments _ _ _ _) as [|s0 rest] eqn:Esegs.
  - exists []. simpl in Hvis.
    split; [reflexivity|]. split; [constructor|]. split; [exact Hvis|].
    split; [now rewrite <- Hvis | reflexivity].
  - destruct (enforceReadability_Forall config hasWords (s0 :: rest))
      as (out & Hrun & Hwords & Hflat & Hempty); try (intros; discriminate).
    { eapply Forall_impl; [|exact Hbuilt]. apply built_hasWords. }
    exists out. split; [exact Hrun|]. split; [exact Hwords|].
    inversion Hbuilt as [|? ? Hs0 _]; subst.
    pose proof (built_shows s0 rest Hs0) as Hshows. rewrite Hvis in Hshows.
    split.
    + rewrite visible_segment_texts by assumption. now rewrite Hflat.
    + split; intros H; [apply Hempty in H; discriminate | contradiction].
Qed.

(** X6: the conversion from tokens to segments returns, and the segment
    texts, read in order, show exactly the characters of the tokens that
    are not white space; there is no segment exactly when the tokens show
    no character at all. *)
Theorem conversion_keeps_visible (tokens : list Token) (config : SubtitleConfig) :
  exists out,
    tokensToSubtitleSegments tokens config = Ret out
    /\ visibleChars (join (map segmentText out))
       = visibleChars (join (map rawTextOf tokens))
    /\ (out = [] <-> visibleChars (join (map rawTextOf tokens)) = []).
Proof.
  destruct (conversion_spec tokens config) as (out & Hrun & _ & Hvis & Hempty).
  exists out. split; [exact Hrun | split; assumption].
Qed.

(** ** The speaker of a word *)

Module WordsShape.
Import Words.

Lemma flush_assembled st :
  Forall assembled (words st) -> Forall assembled (words (flush st)).
Proof.
  intros H. unfold flush. destruct (currentTokens st) as [|t ts] eqn:E; [exact H|].
  simpl. apply Forall_app. split; [exact H|]. constructor; [|constructor].
  split; [reflexivity | simpl; discriminate].
Qed.

Lemma step_assembled st t :
  Forall assembled (words st) -> Forall assembled (words (step st t)).
Proof.
  intros H. unfold step. destruct (rawTextOf t) as [|c0 raw]; [exact H|].
  match goal with |- Forall _ (words (if ?b then flush ?s else ?s)) =>
    assert (Hs : Forall assembled (words s));
      [|destruct b; [apply flush_assembled|]; exact Hs] end.
  pose proof (flush_assembled st H) as Hf.
  destruct (isWhite c0); [exact Hf|].
  destruct (currentTokens st); [exact H|].
  repeat match goal with |- Forall _ (words (if ?b then _ else _)) => destruct b end;
    assumption.
Qed.

Lemma fold_assembled tokens : forall st,
  Forall assembled (words st) -> Forall assembled (words (fold_left step tokens st)).
Proof.
  induction tokens as [|t ts IH]; simpl; intros st H; [exact H|].
  apply IH, step_assembled, H.
Qed.

End WordsShape.

Lemma tokensToWords_assembled tokens : Forall assembled (tokensToWords tokens).
Proof.
  assert (H : Forall assembled (Words.words (Words.run tokens))).
  { apply WordsShape.flush_assembled, WordsShape.fold_assembled. constructor. }
  unfold tokensToWords. destruct (Words.words (Words.run tokens)) as [|w0 rest];
    [constructor|].
  destruct (startsWithSpace (w_text w0)); [|exact H].
  inversion H; subst. now constructor.
Qed.

Lemma speakerRule_unspoken b st w : unspoken w -> Build.speakerRule b st w = st.
Proof.
  unfold unspoken, Build.speakerRule. intros ->. simpl.
  now rewrite !andb_false_r.
Qed.

Lemma step_unspoken g b1 b2 st w :
  unspoken w -> Build.step g b1 b2 st w = Build.step g false b2 st w.
Proof.
  intros H. unfold Build.step. now rewrite !speakerRule_unspoken.
Qed.

Lemma buildSegments_unspoken ws g b1 b2 :
  Forall unspoken ws -> buildSegments ws g b1 b2 = buildSegments ws g false b2.
Proof.
  intros H. unfold buildSegments. do 2 f_equal.
  generalize Build.init. induction H as [|w ws Hw _ IH]; intros st; [reflexivity|].
  simpl. rewrite (step_unspoken g b1 b2 st w Hw). apply IH.
Qed.

Lemma firstNonEmpty_unspoken ws :
  Forall unspoken ws -> firstNonEmpty (map w_speaker ws) = SpkUndefined.
Proof.
  induction 1 as [|w ws Hw _ IH]; [reflexivity|]. simpl. now rewrite Hw.
Qed.

Lemma flatWords_members (P : WordToken -> Prop) l :
  Forall P (flatWords l) -> Forall (fun s => Forall P (tokensOf s)) l.
Proof.
  induction l as [|s l IH]; [constructor|].
  change (flatWords (s :: l)) with (tokensOf s ++ flatWords l).
  intros H. apply Forall_app in H as [Hs Hl]. constructor; auto.
Qed.

Lemma buildSegments_speaker ws g b1 b2 :
  Forall unspoken ws ->
  Forall (fun s => seg_speaker s = SpkNull) (buildSegments ws g b1 b2).
Proof.
  intros H. destruct (buildSegments_shape unspoken ws g b1 b2 H) as (Hb & _ & Hm).
  apply flatWords_members in Hm. rewrite Forall_forall in *.
  intros s Hs. destruct (Hb s Hs) as (_ & _ & _ & _ & _ & ->).
  now rewrite (firstNonEmpty_unspoken _ (Hm s Hs)).
Qed.

(** The enforcer reads five budgets, the sentence flag and the ellipsis
    flag of its configuration, nothing else. *)
Lemma splitLoop_ext c1 c2 :
  (forall s, overBudget c1 s = overBudget c2 s) -> ellipses c1 = ellipses c2 ->
  forall fuel queue out, splitLoop fuel c1 queue out = splitLoop fuel c2 queue out.
Proof.
  intros Hover Hell. induction fuel as [|fuel IH]; intros queue out;
    destruct queue as [|current queue']; try reflexivity.
  cbn [splitLoop]. rewrite Hover, Hell.
  destruct (overBudget c2 current && _); [|apply IH].
  destruct (firstn _ _); [reflexivity|]. destruct (skipn _ _); [reflexivity|].
  apply IH.
Qed.

Lemma splitPhase_ext c1 c2 :
  (forall s, overBudget c1 s = overBudget c2 s) -> ellipses c1 = ellipses c2 ->
  forall segments out, splitPhase c1 segments out = splitPhase c2 segments out.
Proof.
  intros Hover Hell. induction segments as [|s rest IH]; intros out; [reflexivity|].
  cbn [splitPhase]. rewrite (splitLoop_ext c1 c2 Hover Hell).
  destruct (splitLoop _ c2 [s] out); simpl; auto.
Qed.

Lemma mergePass_ext c1 c2 :
  (forall a b, mergeable c1 a b = mergeable c2 a b) ->
  forall n l, (length l <= n)%nat -> mergePass c1 l = mergePass c2 l.
Proof.
  intros Hm. induction n as [|n IH]; intros l Hn.
  - destruct l; [reflexivity | simpl in Hn; lia].
  - destruct l as [|a [|b rest]]; try reflexivity.
    rewrite !mergePass_step, Hm.
    rewrite (IH rest) by (simpl in Hn; lia).
    now rewrite (IH (b :: rest)) by (simpl in Hn |- *; lia).
Qed.

Lemma mergeLoop_ext c1 c2 :
  (forall a b, mergeable c1 a b = mergeable c2 a b) ->
  forall fuel l, mergeLoop fuel c1 l = mergeLoop fuel c2 l.
Proof.
  intros Hm. induction fuel as [|fuel IH]; intros l; [reflexivity|].
  cbn [mergeLoop]. rewrite (mergePass_ext c1 c2 Hm (length l) l (le_n _)).
  destruct (mergePass c2 l) as [merged [|]]; [apply IH | reflexivity].
Qed.

Lemma enforceReadability_ext c1 c2 segments :
  (forall s, overBudget c1 s = overBudget c2 s) -> ellipses c1 = ellipses c2 ->
  (forall a b, mergeable c1 a b = mergeable c2 a b) ->
  enforceReadability segments c1 = enforceReadability segments c2.
Proof.
  intros Hover Hell Hm. unfold enforceReadability.
  rewrite (splitPhase_ext c1 c2 Hover Hell).
  destruct (splitPhase c2 segments []); simpl; auto.
  unfold mergePhase. apply mergeLoop_ext, Hm.
Qed.

(** X7: a word made by [tokensToWords] carries no speaker, so through the
    conversion every segment has speaker [null] and the [split_on_speaker]
    setting changes nothing. *)
Theorem speaker_setting_has_no_effect
    (tokens : list Token) (config : SubtitleConfig) (b : bool) :
  exists out,
    tokensToSubtitleSegments tokens config = Ret out
    /\ tokensToSubtitleSegments tokens (withSplitOnSpeaker b config) = Ret out
    /\ Forall (fun s => seg_speaker s = SpkNull) out.
Proof.
  assert (Hwords : Forall unspoken (tokensToWords tokens)).
  { eapply Forall_impl; [|apply tokensToWords_assembled]. now intros w [H _]. }
  unfold tokensToSubtitleSegments.
  cbn [withSplitOnSpeaker gap_ms split_on_speaker segment_on_sentence].
  rewrite (buildSegments_unspoken _ _ b _ Hwords).
  rewrite (buildSegments_unspoken _ _ (split_on_speaker config) _ Hwords).
  pose proof (buildSegments_speaker (tokensToWords tokens) (gap_ms config) false
                (segment_on_sentence config) Hwords) as Hnull.
  destruct (buildSegments _ _ false _) as [|s0 rest]; [exists []; auto|].
  destruct (enforceReadability_Forall config (fun s => seg_speaker s = SpkNull)
              (s0 :: rest)) as (out & Hrun & Hout & _); auto.
  - intros seg idx w H. unfold leftChild, child; simpl. now rewrite H.
  - intros seg idx w H. unfold rightChild, child; simpl. now rewrite H.
  - intros x y Hx Hy. unfold mergeTwo; simpl. now rewrite Hx, Hy.
  - exists out. split; [exact Hrun|]. split; [|exact Hout].
    rewrite <- Hrun. now apply enforceReadability_ext.
Qed.

(** ** What the entry point does with a loaded transcript *)

Section SrtOutcome.

Variable resolve : jsstring -> jsstring.
Variable JSON_parse : jsstring -> option json.

Lemma srt_after_conversion data items tokens segments outputPath config w :
  extractTokens data = Ret items -> asTokens items = Ret tokens ->
  tokensToSubtitleSegments tokens config = Ret segments ->
  srt resolve JSON_parse (FromData data) outputPath config w
  = match segments with
    | [] => (Throw (Error NO_SEGMENTS), w)
    | _ :: _ =>
        let content := srtContent (renderSegments segments config) in
        let path := resolve (resolve outputPath) in
        (Ret (resolve outputPath),
         {| IO.files := (path, content) :: IO.files w;
            IO.trace :=
              (IO.trace w
               ++ [IO.ConsoleInfo
                     (lit "Writing "
                      ++ toString (Z.of_nat (length (renderSegments segments config)))
                      ++ lit " subtitles to " ++ resolve outputPath)])
              ++ [IO.WriteFile path content] |})
    end.
Proof.
  intros Hitems Htokens Hsegs.
  unfold srt, IO.bindM, IO.ret, IO.lift. cbn beta iota.
  rewrite Hitems, Htokens, Hsegs. destruct segments; reflexivity.
Qed.

(** X8: for a transcript whose tokens were extracted and read, each one
    skipped for its missing or empty text or fitting the [Token]
    interface, [srt] throws the empty-result error exactly when no token
    shows a character that is not white space. *)
Theorem srt_empty_result_iff data items tokens outputPath config w :
  extractTokens data = Ret items -> asTokens items = Ret tokens ->
  (srt resolve JSON_parse (FromData data) outputPath config w
   = (Throw (Error NO_SEGMENTS), w)
   <-> visibleChars (join (map rawTextOf tokens)) = []).
Proof.
  intros Hitems Htokens.
  destruct (conversion_spec tokens config) as (out & Hrun & _ & _ & Hempty).
  rewrite (srt_after_conversion _ _ _ _ outputPath config w Hitems Htokens Hrun).
  unfold visibleOfTokens in Hempty. rewrite <- Hempty.
  destruct out; split; intros H; try reflexivity; discriminate H.
Qed.


End SrtOutcome.

(** A token whose text is a number is not read as a token without text:
    [rawText.trimStart] is no function, and [srt] throws a TypeError
    before it writes.  A timing that is [null] is outside the [Token]
    interface, and the embedding says nothing of such a transcript. *)
Lemma srt_rejects_numeric_text resolve JSON_parse outputPath config w :
  let number := JObj [(lit "tokens", JArr [JObj [(lit "text", JNum 5)]])] in
  let untimed :=
    JObj [(lit "tokens",
           JArr [JObj [(lit "text", JStr (lit "Hello"));
                       (lit "start_ms", JNull); (lit "end_ms", JNum 500)]])] in
  srt resolve JSON_parse (FromData number) outputPath config w = (Throw TypeError, w)
  /\ srt resolve JSON_parse (FromData untimed) outputPath config w = (Untyped, w).
Proof. split; reflexivity. Qed.

Lemma srt_empty_result_iff_witness :
  let resolve := fun p : jsstring => p in
  let parse := fun _ : jsstring => @None json in
  let items := [JObj [(lit "text", JStr (lit " "))]] in
  (extractTokens blankTranscript = Ret items
   /\ asTokens items = Ret [untimedToken " "])
  /\ (srt resolve parse (FromData blankTranscript) (lit "out.srt") defaultConfig
          emptyWorld
      = (Throw (Error NO_SEGMENTS), emptyWorld)
      <-> visibleChars (join (map rawTextOf [untimedToken " "])) = []).
Proof.
  intros resolve parse items.
  assert (H1 : extractTokens blankTranscript = Ret items) by reflexivity.
  assert (H2 : asTokens items = Ret [untimedToken " "]) by reflexivity.
  split; [split; assumption|].
  exact (srt_empty_result_iff resolve parse blankTranscript items [untimedToken " "]
           (lit "out.srt") defaultConfig emptyWorld H1 H2).
Defined.


(** ** Choosing where to split *)

Lemma searchUp_spec p : forall count from,
  match searchUp p from count with
  | Some j => (from <= j < from + count)%nat /\ p j = true
              /\ forall k, (from <= k < j)%nat -> p k = false
  | None => forall k, (from <= k < from + count)%nat -> p k = false
  end.
Proof.
  induction count as [|count IH]; intros from; simpl; [intros k Hk; lia|].
  destruct (p from) eqn:E.
  - repeat split; [lia | lia | exact E | intros k Hk; lia].
  - specialize (IH (S from)). destruct (searchUp p (S from) count) as [j|].
    + destruct IH as (Hj & Hp & Hbelow). repeat split; [lia | lia | exact Hp |].
      intros k Hk. destruct (Nat.eq_dec k from) as [->|]; [exact E|].
      apply Hbelow. lia.
    + intros k Hk. destruct (Nat.eq_dec k from) as [->|]; [exact E|].
      apply IH. lia.
Qed.

Lemma searchDown_spec p : forall from,
  match searchDown p from with
  | Some j => (1 <= j <= from)%nat /\ p j = true
              /\ forall k, (j < k <= from)%nat -> p k = false
  | None => forall k, (1 <= k <= from)%nat -> p k = false
  end.
Proof.
  induction from as [|from IH]; [simpl; intros k Hk; lia|].
  change (searchDown p (S from))
    with (if p (S from) then Some (S from) else searchDown p from).
  destruct (p (S from)) eqn:E.
  - repeat split; [lia | lia | exact E | intros k Hk; lia].
  - destruct (searchDown p from) as [j|].
    + destruct IH as (Hj & Hp & Habove). repeat split; [lia | lia | exact Hp |].
      intros k Hk. destruct (Nat.eq_dec k (S from)) as [->|]; [exact E|].
      apply Habove. lia.
    + intros k Hk. destruct (Nat.eq_dec k (S from)) as [->|]; [exact E|].
      apply IH. lia.
Qed.

(** X10: [adjustToSafe] leaves a safe index alone; from an unsafe one it
    moves to the nearest safe index above, and only when there is none to
    the nearest below; it returns an unsafe index only when no index
    inside the word list is safe. *)
Theorem adjustToSafe_finds_safe (tokens : list WordToken) (index : nat) :
  (0 < index < length tokens)%nat ->
  let j := adjustToSafe tokens index in
  (isSafeAt tokens index = true -> j = index)
  /\ (someSafe tokens -> isSafeAt tokens j = true)
  /\ ((index < j)%nat ->
      forall k, (index <= k < j)%nat -> isSafeAt tokens k = false)
  /\ ((j < index)%nat ->
      forall k, (j < k < length tokens)%nat -> isSafeAt tokens k = false).
Proof.
  intros Hi j. subst j. unfold adjustToSafe.
  destruct (isSafeAt tokens index) eqn:Esafe.
  { repeat split; auto; intros; lia. }
  pose proof (searchUp_spec (isSafeAt tokens) (length tokens - (index + 1)) (index + 1))
    as Hup.
  destruct (searchUp _ _ _) as [j|].
  { destruct Hup as (Hj & Hp & Hbelow). repeat split; auto; try discriminate; try lia.
    intros _ k Hk. destruct (Nat.eq_dec k index) as [->|]; [exact Esafe|].
    apply Hbelow. lia. }
  pose proof (searchDown_spec (isSafeAt tokens) (index - 1)) as Hdn.
  destruct (searchDown _ _) as [j|].
  { destruct Hdn as (Hj & Hp & Habove). repeat split; auto; try discriminate; try lia.
    intros _ k Hk. destruct (Nat.eq_dec k index) as [->|]; [exact Esafe|].
    destruct (Nat.lt_ge_cases k index); [apply Habove | apply Hup]; lia. }
  repeat split; try discriminate; try lia.
  intros (k & Hk & Hsafe). exfalso.
  destruct (Nat.eq_dec k index) as [->|]; [congruence|].
  destruct (Nat.lt_ge_cases k index) as [Hlt|Hge].
  - rewrite Hdn in Hsafe by lia. discriminate.
  - rewrite Hup in Hsafe by lia. discriminate.
Qed.

Lemma adjustToSafe_finds_safe_witness :
  let tokens := [mkWord "ab" 0 1; mkWord "cd" 1 2; mkWord "ef" 2 3; mkWord " gh" 3 4] in
  (0 < 1 < length tokens)%nat
  /\ someSafe tokens
  /\ adjustToSafe tokens 1 = 3%nat
  /\ isSafeAt tokens (adjustToSafe tokens 1) = true.
Proof.
  intros tokens.
  assert (H1 : (0 < 1 < length tokens)%nat) by (simpl; lia).
  assert (H2 : someSafe tokens) by (exists 3%nat; split; [simpl; lia | reflexivity]).
  split; [exact H1|]. split; [exact H2|]. split; [reflexivity|].
  exact (proj1 (proj2 (adjustToSafe_finds_safe tokens 1 H1)) H2).
Defined.

Lemma textAt_nth tokens i : textAt tokens i = nth i (map w_text tokens) [].
Proof.
  unfold textAt. revert i. induction tokens as [|w ws IH]; intros [|i]; simpl; auto.
Qed.

Lemma safeAfterFrom_iff : forall texts i0 k,
  In k (safeAfterFrom i0 texts)
  <-> (i0 < k < i0 + length texts)%nat
      /\ safeBoundary (nth (k - i0 - 1) texts []) (nth (k - i0) texts []) = true.
Proof.
  induction texts as [|txt rest IH]; intros i0 k.
  - simpl. split; [contradiction | intros [H _]; lia].
  - destruct rest as [|next rest'].
    + simpl. split; [contradiction | intros [H _]; lia].
    + assert (Hrec : In k (safeAfterFrom (S i0) (next :: rest'))
                     <-> (S i0 < k < i0 + length (txt :: next :: rest'))%nat
                         /\ safeBoundary (nth (k - i0 - 1) (txt :: next :: rest') [])
                                         (nth (k - i0) (txt :: next :: rest') []) = true).
      { rewrite IH. simpl length. split; intros [Hk Hs]; (split; [lia|]).
        - replace (k - i0 - 1)%nat with (S (k - S i0 - 1)) by lia.
          replace (k - i0)%nat with (S (k - S i0)) by lia. exact Hs.
        - replace (k - i0 - 1)%nat with (S (k - S i0 - 1)) in Hs by lia.
          replace (k - i0)%nat with (S (k - S i0)) in Hs by lia. exact Hs. }
      change (safeAfterFrom i0 (txt :: next :: rest'))
        with (if safeBoundary txt next
              then (i0 + 1)%nat :: safeAfterFrom (S i0) (next :: rest')
              else safeAfterFrom (S i0) (next :: rest')).
      destruct (Nat.eq_dec k (i0 + 1)) as [->|Hne].
      * replace (i0 + 1 - i0 - 1)%nat with 0%nat by lia.
        replace (i0 + 1 - i0)%nat with 1%nat by lia. cbn [nth].
        destruct (safeBoundary txt next).
        -- split; [intros _; split; [simpl; lia | reflexivity] | intros _; now left].
        -- rewrite Hrec. split; [intros [H _]; lia | intros [_ H]; discriminate].
      * destruct (safeBoundary txt next).
        -- cbn [In]. rewrite Hrec. split.
           ++ intros [H|[H Hs]]; [lia | split; [lia | exact Hs]].
           ++ intros [H Hs]. right. split; [lia | exact Hs].
        -- rewrite Hrec. split; intros [H Hs]; (split; [lia | exact Hs]).
Qed.

Lemma cumulativeFrom_nth : forall (texts : list jsstring) acc k,
  (k < length texts)%nat ->
  nth k (cumulativeFrom acc texts) 0%nat
  = (acc + length (concat (firstn (S k) texts)))%nat.
Proof.
  induction texts as [|txt rest IH]; intros acc k Hk; [simpl in Hk; lia|].
  destruct k as [|k].
  - simpl. rewrite app_nil_r. reflexivity.
  - cbn [cumulativeFrom nth]. rewrite IH by (simpl in Hk; lia).
    change (firstn (S (S k)) (txt :: rest)) with (txt :: firstn (S k) rest).
    cbn [concat]. rewrite length_app. lia.
Qed.

Lemma fold_left_lengths : forall (texts : list jsstring) acc,
  fold_left (fun sum txt => (sum + length txt)%nat) texts acc
  = (acc + length (concat texts))%nat.
Proof.
  induction texts as [|txt rest IH]; intros acc; simpl; [lia|].
  rewrite IH, length_app. lia.
Qed.

Lemma closest_min cumulative midChars : forall candidates bestIndex,
  let delta := fun k => absDiff (nth (k - 1) cumulative 0%nat) midChars in
  let r := closest cumulative midChars candidates bestIndex (delta bestIndex) in
  (delta r <= delta bestIndex)%nat
  /\ (forall k, In k candidates -> (delta r <= delta k)%nat)
  /\ (r = bestIndex \/ In r candidates).
Proof.
  cbv zeta. induction candidates as [|c rest IH]; intros bestIndex.
  - simpl. split; [lia | split; [contradiction | now left]].
  - cbn [closest].
    destruct (absDiff (nth (c - 1) cumulative 0%nat) midChars
              <? absDiff (nth (bestIndex - 1) cumulative 0%nat) midChars)%nat eqn:E.
    + apply Nat.ltb_lt in E. destruct (IH c) as (H1 & H2 & H3).
      split; [lia|]. split.
      * intros k [<-|Hk]; [exact H1 | now apply H2].
      * destruct H3 as [->|H3]; right; [now left | now right].
    + apply Nat.ltb_ge in E. destruct (IH bestIndex) as (H1 & H2 & H3).
      split; [exact H1|]. split.
      * intros k [<-|Hk]; [lia | now apply H2].
      * destruct H3 as [H3|H3]; [now left | right; now right].
Qed.

Lemma isSafeAt_safeBefore tokens k :
  (0 < k < length tokens)%nat -> textAt tokens k <> [] ->
  isSafeAt tokens k = safeBefore tokens k.
Proof.
  intros Hk Hne. unfold isSafeAt, safeBefore, safeBoundary.
  replace (k <=? 0)%nat with false by (symmetry; apply Nat.leb_gt; lia).
  replace (length tokens <=? k)%nat with false by (symmetry; apply Nat.leb_gt; lia).
  cbn [orb]. destruct (textAt tokens k) as [|c t]; [contradiction|].
  destruct (startsWithSpace (c :: t)); [reflexivity|].
  destruct (endsWithSpace (textAt tokens (k - 1))); reflexivity.
Qed.

Lemma lengthUpTo_cumulative tokens k :
  (0 < k <= length tokens)%nat ->
  nth (k - 1) (cumulativeFrom 0 (map w_text tokens)) 0%nat = lengthUpTo tokens k.
Proof.
  intros Hk. rewrite cumulativeFrom_nth by (rewrite length_map; lia).
  replace (S (k - 1)) with k by lia.
  unfold lengthUpTo, textsOf, join. now rewrite firstn_map.
Qed.

(** X11: when every word after the first has a non-empty text and some
    boundary between two words is safe, [findSplitIndex] returns a safe
    boundary whose running length is nearest to half the total length:
    no other safe boundary is closer. *)
Theorem findSplitIndex_closest_safe (tokens : list WordToken) :
  (forall k, (0 < k < length tokens)%nat -> textAt tokens k <> []) ->
  (exists k, (0 < k < length tokens)%nat /\ safeBefore tokens k = true) ->
  let r := findSplitIndex tokens in
  (0 < r < length tokens)%nat
  /\ safeBefore tokens r = true
  /\ forall k, (0 < k < length tokens)%nat -> safeBefore tokens k = true ->
               (offMid tokens r <= offMid tokens k)%nat.
Proof.
  intros Htexts (k0 & Hk0 & Hsafe0) r.
  assert (Hn : (2 <= length tokens)%nat) by lia.
  assert (Hmem : forall k, In k (safeAfterFrom 0 (map w_text tokens))
                           <-> (0 < k < length tokens)%nat /\ safeBefore tokens k = true).
  { intros k. rewrite safeAfterFrom_iff, length_map. unfold safeBefore.
    rewrite !textAt_nth. now rewrite !Nat.sub_0_r, Nat.add_0_l. }
  subst r. unfold findSplitIndex.
  replace (length tokens <=? 1)%nat with false by (symmetry; apply Nat.leb_gt; lia).
  rewrite fold_left_lengths. cbn [Nat.add].
  destruct (safeAfterFrom 0 (map w_text tokens)) as [|first rest] eqn:Esafe.
  { exfalso. apply (proj2 (Hmem k0)). now split. }
  destruct (closest_min (cumulativeFrom 0 (map w_text tokens))
              (length (concat (map w_text tokens)) / 2) (first :: rest) first)
    as (_ & Hmin & Hin).
  set (c := closest _ _ _ _ _) in *.
  assert (Hc : In c (first :: rest)) by (destruct Hin as [->|Hin]; [now left | exact Hin]).
  apply Hmem in Hc as [Hcb Hcs].
  assert (Hadj : adjustToSafe tokens c = c).
  { unfold adjustToSafe. rewrite isSafeAt_safeBefore by auto. now rewrite Hcs. }
  rewrite Hadj. split; [exact Hcb|]. split; [exact Hcs|].
  intros k Hk Hs. specialize (Hmin k (proj2 (Hmem k) (conj Hk Hs))).
  rewrite !lengthUpTo_cumulative in Hmin by lia.
  exact Hmin.
Qed.

Lemma findSplitIndex_closest_safe_witness :
  let tokens := [mkWord "One" 0 1; mkWord " two" 1 2; mkWord " three" 2 3;
                 mkWord " four" 3 4] in
  ((forall k, (0 < k < length tokens)%nat -> textAt tokens k <> [])
   /\ (exists k, (0 < k < length tokens)%nat /\ safeBefore tokens k = true))
  /\ findSplitIndex tokens = 2%nat
  /\ forall k, (0 < k < length tokens)%nat -> safeBefore tokens k = true ->
               (offMid tokens (findSplitIndex tokens) <= offMid tokens k)%nat.
Proof.
  intros tokens.
  assert (H1 : forall k, (0 < k < length tokens)%nat -> textAt tokens k <> []).
  { intros k Hk. simpl in Hk.
    destruct k as [|[|[|[|k]]]]; try lia; discriminate. }
  assert (H2 : exists k, (0 < k < length tokens)%nat /\ safeBefore tokens k = true)
    by (exists 1%nat; split; [simpl; lia | reflexivity]).
  split; [split; assumption|]. split; [reflexivity|].
  exact (proj2 (proj2 (findSplitIndex_closest_safe tokens H1 H2))).
Defined.


(** ** Where the token-aware wrapper breaks a cue *)

Lemma hasIndex_In set i : hasIndex set i = true -> In i set.
Proof.
  unfold hasIndex. intros H. apply existsb_exists in H as (x & Hx & E).
  apply Nat.eqb_eq in E. now subst.
Qed.

Lemma wrapSafeAfter_In : forall texts i0 i,
  In i (wrapSafeAfter i0 texts) ->
  (i0 <= i)%nat /\ (i + 1 < i0 + length texts)%nat
  /\ nth (i - i0 + 1) texts [] <> []
  /\ safeBoundary (nth (i - i0) texts []) (nth (i - i0 + 1) texts []) = true.
Proof.
  induction texts as [|txt rest IH]; intros i0 i H; [contradiction|].
  destruct rest as [|next rest']; [contradiction|].
  assert (Hrec : In i (wrapSafeAfter (S i0) (next :: rest')) ->
                 (i0 <= i)%nat /\ (i + 1 < i0 + length (txt :: next :: rest'))%nat
                 /\ nth (i - i0 + 1) (txt :: next :: rest') [] <> []
                 /\ safeBoundary (nth (i - i0) (txt :: next :: rest') [])
                                 (nth (i - i0 + 1) (txt :: next :: rest') []) = true).
  { intros Hin. apply IH in Hin as (H1 & H2 & H3 & H4).
    replace (i - i0 + 1)%nat with (S (i - S i0 + 1)) by lia.
    replace (i - i0)%nat with (S (i - S i0)) by lia.
    simpl length in *. split; [lia|]. split; [lia|]. now split. }
  change (wrapSafeAfter i0 (txt :: next :: rest'))
    with (match next with
          | [] => wrapSafeAfter (S i0) (next :: rest')
          | _ :: _ => if safeBoundary txt next
                      then i0 :: wrapSafeAfter (S i0) (next :: rest')
                      else wrapSafeAfter (S i0) (next :: rest')
          end) in H.
  destruct next as [|c next']; [now apply Hrec|].
  destruct (safeBoundary txt (c :: next')) eqn:Esafe; [|now apply Hrec].
  destruct H as [<-|H]; [|now apply Hrec].
  replace (i0 - i0)%nat with 0%nat by lia. simpl length. cbn [Nat.add nth].
  split; [lia|]. split; [lia|]. split; [discriminate | exact Esafe].
Qed.

Lemma splitAfter_cut tokens maxCpl candidate lines :
  splitAfter tokens maxCpl candidate = Some lines ->
  lines = cutAfter tokens candidate /\ Forall (fits maxCpl) lines.
Proof.
  unfold splitAfter, cutAfter. intros H.
  destruct (lenZ (trimEnd (concatText (firstn (candidate + 1) tokens))) <=? maxCpl)
    eqn:E1; [|discriminate].
  destruct (lenZ (trimStart (concatText (skipn (candidate + 1) tokens))) <=? maxCpl)
    eqn:E2; [|discriminate].
  apply Z.leb_le in E1, E2. inversion H; subst. split; [reflexivity|].
  constructor; [exact E1|]. constructor; [exact E2 | constructor].
Qed.

Lemma backtrack_cut tokens safeAfter maxCpl : forall candidate lines,
  backtrack tokens safeAfter maxCpl candidate = Some lines ->
  exists i, In i safeAfter /\ lines = cutAfter tokens i /\ Forall (fits maxCpl) lines.
Proof.
  assert (Hstep : forall candidate lines,
    (if hasIndex safeAfter candidate then splitAfter tokens maxCpl candidate else None)
    = Some lines ->
    exists i, In i safeAfter /\ lines = cutAfter tokens i /\ Forall (fits maxCpl) lines).
  { intros candidate lines H. destruct (hasIndex safeAfter candidate) eqn:Eh; [|discriminate].
    exists candidate. split; [now apply hasIndex_In | now apply splitAfter_cut]. }
  induction candidate as [|candidate IH]; intros lines H; cbn [backtrack] in H.
  - destruct (if hasIndex safeAfter 0 then _ else _) eqn:E; [|discriminate].
    inversion H; subst. now apply Hstep in E.
  - destruct (if hasIndex safeAfter (S candidate) then _ else _) eqn:E.
    + inversion H; subst. now apply Hstep in E.
    + now apply IH.
Qed.

Lemma firstFit_cut tokens safeAfter maxCpl : forall rest i charLen lastSafe lines,
  firstFit tokens safeAfter maxCpl i rest charLen lastSafe = Some lines ->
  exists k, In k safeAfter /\ lines = cutAfter tokens k /\ Forall (fits maxCpl) lines.
Proof.
  induction rest as [|token rest IH]; intros i charLen lastSafe lines H; [discriminate|].
  cbn [firstFit] in H. destruct (_ <? _).
  - destruct (if hasIndex safeAfter i then Some i else lastSafe); [|discriminate].
    eapply backtrack_cut; eauto.
  - eapply IH; eauto.
Qed.

Lemma nearestSafe_In safeAfter target : forall texts i acc nearest bestDelta k,
  nearestSafe safeAfter target i texts acc nearest bestDelta = Some k ->
  nearest = Some k \/ In k safeAfter.
Proof.
  induction texts as [|txt rest IH]; intros i acc nearest bestDelta k H; [now left|].
  destruct rest as [|next rest']; [now left|].
  change (nearestSafe safeAfter target i (txt :: next :: rest') acc nearest bestDelta)
    with (if hasIndex safeAfter i then
            if match bestDelta with
               | None => true
               | Some best => (absDiff (acc + length txt) target <? best)%nat
               end
            then nearestSafe safeAfter target (S i) (next :: rest') (acc + length txt)
                   (Some i) (Some (absDiff (acc + length txt) target))
            else nearestSafe safeAfter target (S i) (next :: rest') (acc + length txt)
                   nearest bestDelta
          else nearestSafe safeAfter target (S i) (next :: rest') (acc + length txt)
                 nearest bestDelta) in H.
  destruct (hasIndex safeAfter i) eqn:Eh; [|now apply IH in H].
  destruct (match bestDelta with None => true | Some best => _ end); [|now apply IH in H].
  apply IH in H as [H|H]; [|now right].
  inversion H; subst. right. now apply hasIndex_In.
Qed.

Lemma wrapSafeAfter_safe tokens i :
  In i (wrapSafeAfter 0 (map w_text tokens)) ->
  (i + 1 < length tokens)%nat /\ textAt tokens (i + 1) <> []
  /\ safeBefore tokens (i + 1) = true.
Proof.
  intros H. apply wrapSafeAfter_In in H as (_ & H2 & H3 & H4).
  rewrite length_map in H2. rewrite Nat.sub_0_r in H3, H4.
  unfold safeBefore. rewrite !textAt_nth.
  replace (i + 1 - 1)%nat with i by lia. split; [lia|]. now split.
Qed.

Lemma wrapTwoLinesTokenAware_shape
    (tokens : list WordToken) (text : jsstring) (maxCpl maxLines : Z)
    (delimiters : list jsstring) :
  let r := wrapTwoLinesTokenAware tokens text maxCpl maxLines delimiters in
  r = [trim text]
  \/ (delimiters <> []
      /\ wrapWithPreferredDelimiters (trim text) delimiters maxCpl maxLines = Some r)
  \/ (exists i, (i + 1 < length tokens)%nat
                /\ textAt tokens (i + 1) <> []
                /\ safeBefore tokens (i + 1) = true
                /\ r = cutAfter tokens i
                /\ Forall (fits maxCpl) r
                /\ 2 <= maxLines).
Proof.
  intros r. subst r. unfold wrapTwoLinesTokenAware.
  destruct (maxLines <=? 1) eqn:Elines; [now left|]. apply Z.leb_gt in Elines.
  assert (Hrest : forall r : list jsstring,
    r = (if lenZ (trim text) <=? maxCpl then [trim text]
         else match firstFit tokens (wrapSafeAfter 0 (map w_text tokens)) maxCpl 0
                             tokens 0 None with
              | Some lines => lines
              | None =>
                  match nearestSafe (wrapSafeAfter 0 (map w_text tokens))
                          (fold_left (fun sum txt => (sum + length txt)%nat)
                                     (map w_text tokens) 0%nat / 2) 0
                          (map w_text tokens) 0 None None with
                  | Some nearest =>
                      if (lenZ (trimEnd (concatText (firstn (nearest + 1) tokens)))
                          <=? maxCpl)
                         && (lenZ (trimStart (concatText (skipn (nearest + 1) tokens)))
                             <=? maxCpl)
                      then [trimEnd (concatText (firstn (nearest + 1) tokens));
                            trimStart (concatText (skipn (nearest + 1) tokens))]
                      else [trim text]
                  | None => [trim text]
                  end
              end) ->
    r = [trim text]
    \/ exists i, (i + 1 < length tokens)%nat
                 /\ textAt tokens (i + 1) <> []
                 /\ safeBefore tokens (i + 1) = true
                 /\ r = cutAfter tokens i
                 /\ Forall (fits maxCpl) r
                 /\ 2 <= maxLines).
  { intros r ->. destruct (_ <=? _); [now left|].
    destruct (firstFit _ _ _ _ _ _ _) as [lines|] eqn:Efit.
    - right. apply firstFit_cut in Efit as (i & Hin & Hcut & Hfit).
      apply wrapSafeAfter_safe in Hin as (H1 & H2 & H3).
      exists i. repeat (split; [assumption|]). lia.
    - destruct (nearestSafe _ _ _ _ _ _ _) as [nearest|] eqn:Enear; [|now left].
      destruct (_ && _) eqn:Eboth; [|now left]. right.
      apply nearestSafe_In in Enear as [Hn|Hin]; [discriminate|].
      apply wrapSafeAfter_safe in Hin as (H1 & H2 & H3).
      apply andb_prop in Eboth as [E1 E2]. apply Z.leb_le in E1, E2.
      exists nearest. repeat (split; [assumption|]).
      split; [reflexivity|]. split; [|lia].
      constructor; [exact E1|]. constructor; [exact E2 | constructor]. }
  destruct delimiters as [|d ds].
  - destruct (Hrest _ eq_refl) as [H|H]; [now left | right; now right].
  - destruct (wrapWithPreferredDelimiters _ _ _ _) eqn:Ewrap.
    + right. left. split; [discriminate | reflexivity].
    + destruct (Hrest _ eq_refl) as [H|H]; [now left | right; now right].
Qed.

(** X12: the three outcomes of the token-aware wrapper.  What it returns
    is the whole trimmed text on one line, or the lines packed by the
    delimiter path, or the cue broken after some word [i] where the next
    word is non-empty and the boundary is safe, both lines within
    [maxCpl].  Only the last is a break between words: the delimiter path
    works on the text and can cut inside a word, as it does for the one
    word [aaaa,bbbb] with the delimiter [,] and 5 characters per line. *)
Theorem tokenAware_wrap_cases :
  (forall (tokens : list WordToken) (text : jsstring) (maxCpl maxLines : Z)
          (delimiters : list jsstring),
     let r := wrapTwoLinesTokenAware tokens text maxCpl maxLines delimiters in
     r = [trim text]
     \/ (delimiters <> []
         /\ wrapWithPreferredDelimiters (trim text) delimiters maxCpl maxLines = Some r)
     \/ (exists i, (i + 1 < length tokens)%nat
                   /\ textAt tokens (i + 1) <> []
                   /\ safeBefore tokens (i + 1) = true
                   /\ r = cutAfter tokens i
                   /\ Forall (fits maxCpl) r
                   /\ 2 <= maxLines))
  /\ wrapTwoLinesTokenAware [mkWord "aaaa,bbbb" 0 1000] (lit "aaaa,bbbb") 5 2 [lit ","]
     = [lit "aaaa,"; lit "bbbb"].
Proof.
  split; [apply wrapTwoLinesTokenAware_shape | vm_compute; reflexivity].
Qed.


(** ** Packing a cue along preferred delimiters *)

Lemma trimStart_length s : (length (trimStart s) <= length s)%nat.
Proof.
  induction s as [|c s IH]; simpl; [lia|]. destruct (isWhite c); simpl; lia.
Qed.

Lemma trimEnd_length s : (length (trimEnd s) <= length s)%nat.
Proof.
  unfold trimEnd. rewrite length_rev.
  etransitivity; [apply trimStart_length|]. now rewrite length_rev.
Qed.

Lemma trim_length s : (length (trim s) <= length s)%nat.
Proof.
  unfold trim. etransitivity; [apply trimEnd_length | apply trimStart_length].
Qed.

Lemma visible_join_snoc pieces chunk :
  visibleChars (join (pieces ++ [chunk]))
  = visibleChars (join pieces) ++ visibleChars chunk.
Proof.
  unfold join. rewrite concat_app, visible_app. cbn [concat]. now rewrite app_nil_r.
Qed.

(** The scan drops white space only. *)
Lemma splitLoopChars_visible delimSet : forall chars current pieces,
  visibleChars (join (splitLoopChars delimSet chars current pieces))
  = visibleChars (join pieces) ++ visibleChars current ++ visibleChars (concat chars).
Proof.
  induction chars as [|char rest IH]; intros current pieces.
  - cbn [splitLoopChars concat]. change (visibleChars []) with (@nil char).
    rewrite app_nil_r. destruct (trim current) as [|c t] eqn:E.
    + apply trim_nil_iff in E. rewrite E. now rewrite app_nil_r.
    + rewrite visible_join_snoc, <- E, visible_trim. reflexivity.
  - cbn [splitLoopChars concat]. rewrite (visible_app char).
    destruct (inSet delimSet char).
    + destruct (trim (current ++ char)) as [|c t] eqn:E.
      * rewrite IH. apply trim_nil_iff in E. rewrite visible_app in E.
        rewrite (app_assoc (visibleChars current)), E. reflexivity.
      * rewrite IH, visible_join_snoc, <- E, visible_trim, visible_app.
        cbn [visibleChars filter app]. now rewrite <- !app_assoc.
    + rewrite IH, visible_app. now rewrite <- !app_assoc.
Qed.

Lemma visible_cleaned text :
  visibleChars (map (fun c => if char_eqb c NEWLINE then SPACE else c) text)
  = visibleChars text.
Proof.
  induction text as [|c text IH]; [reflexivity|]. cbn [map].
  destruct (char_eqb c NEWLINE) eqn:E.
  - apply N.eqb_eq in E. subst c. unfold visibleChars in *. cbn [filter].
    change (isWhite SPACE) with true. change (isWhite NEWLINE) with true.
    cbn [negb]. exact IH.
  - unfold visibleChars in *. cbn [filter]. now rewrite IH.
Qed.

Lemma splitTextByDelimiters_visible text delimiters :
  visibleChars (join (splitTextByDelimiters text delimiters)) = visibleChars text.
Proof.
  unfold splitTextByDelimiters. destruct text as [|c0 text0] eqn:Etext; [reflexivity|].
  rewrite <- Etext. clear Etext.
  match goal with
  | |- context [splitLoopChars ?f _ _ _] => destruct f as [|d ds]
  end.
  - destruct (trim _) as [|c t] eqn:E.
    + apply trim_nil_iff in E. rewrite visible_cleaned in E. now rewrite E.
    + rewrite <- E. unfold join. cbn [concat]. rewrite app_nil_r.
      now rewrite visible_trim, visible_cleaned.
  - rewrite splitLoopChars_visible.
    rewrite (codePoints_concat (length (map (fun c => if char_eqb c NEWLINE then SPACE else c) text)))
      by lia.
    change (visibleChars (join [])) with (@nil JS.char).
    change (visibleChars []) with (@nil JS.char). cbn [app].
    apply visible_cleaned.
Qed.

Lemma extendLine_visible maxCpl helper :
  (forall chunks lines, helper chunks = Some lines ->
     visibleChars (join lines) = visibleChars (join chunks)) ->
  forall chunks line lines,
    extendLine maxCpl helper line chunks = Some lines ->
    visibleChars (join lines) = visibleChars line ++ visibleChars (join chunks).
Proof.
  intros Hhelper. induction chunks as [|chunk rest IH]; intros line lines H;
    [discriminate|].
  cbn [extendLine] in H.
  set (line' := match line with [] => chunk | _ :: _ => line ++ [SPACE] ++ chunk end) in *.
  assert (Hvis : visibleChars line' = visibleChars line ++ visibleChars chunk).
  { subst line'. destruct line as [|c l]; [reflexivity|].
    rewrite !visible_app. reflexivity. }
  destruct (maxCpl <? Z.of_nat (length line')); [discriminate|].
  unfold join in *. cbn [concat]. rewrite (visible_app chunk).
  destruct (helper rest) as [packed|] eqn:Erest.
  - inversion H; subst. cbn [concat]. rewrite visible_app, Hvis.
    rewrite (Hhelper _ _ Erest). now rewrite <- app_assoc.
  - rewrite (IH _ _ H), Hvis. now rewrite <- app_assoc.
Qed.

Lemma partitionHelper_visible maxCpl : forall remaining chunks lines,
  partitionHelper maxCpl remaining chunks = Some lines ->
  visibleChars (join lines) = visibleChars (join chunks).
Proof.
  induction remaining as [|remaining IH]; intros chunks lines H.
  - destruct chunks; [|discriminate]. now inversion H.
  - destruct chunks as [|c cs]; [now inversion H|].
    cbn [partitionHelper] in H.
    apply (extendLine_visible maxCpl _ IH) in H. exact H.
Qed.

Lemma trimmed_lines_visible : forall partition,
  visibleChars (join (filter (fun line => (0 <? length line)%nat) (map trim partition)))
  = visibleChars (join partition).
Proof.
  induction partition as [|l rest IH]; [reflexivity|].
  cbn [map filter]. unfold join in *. cbn [concat]. rewrite visible_app, <- IH.
  destruct (trim l) as [|c t] eqn:E.
  - apply trim_nil_iff in E. rewrite E. reflexivity.
  - cbn [length Nat.ltb Nat.leb concat]. rewrite visible_app, <- E, visible_trim.
    reflexivity.
Qed.

Lemma trimmed_lines_fit maxCpl : forall partition,
  Forall (fun l => lenZ l <= maxCpl) partition ->
  Forall (fun l => l <> [] /\ fits maxCpl l)
         (filter (fun line => (0 <? length line)%nat) (map trim partition)).
Proof.
  induction 1 as [|l rest Hl _ IH]; [constructor|].
  cbn [map filter]. destruct (trim l) as [|c t] eqn:E; [exact IH|].
  cbn [length Nat.ltb Nat.leb]. constructor; [|exact IH].
  split; [discriminate|]. rewrite <- E. unfold fits, lenZ in *.
  pose proof (trim_length l). lia.
Qed.

Lemma takeLines_all n (lines : list jsstring) :
  Z.of_nat (length lines) <= n -> takeLines n lines = lines.
Proof.
  intros H. unfold takeLines, clampIndex.
  replace (n <? 0) with false by (symmetry; apply Z.ltb_ge; lia).
  rewrite Z.min_r by lia. rewrite Nat2Z.id. apply firstn_all.
Qed.

Lemma wrapWithPreferredDelimiters_sound text delimiters maxCpl maxLines lines :
  wrapWithPreferredDelimiters text delimiters maxCpl maxLines = Some lines ->
  (2 <= length lines)%nat
  /\ Z.of_nat (length lines) <= maxLines
  /\ Forall (fun l => l <> [] /\ fits maxCpl l) lines
  /\ visibleChars (join lines) = visibleChars text.
Proof.
  unfold wrapWithPreferredDelimiters. intros H.
  destruct (maxLines <=? 1) eqn:E1; [discriminate|]. apply Z.leb_gt in E1.
  destruct (length (splitTextByDelimiters text delimiters) <=? 1)%nat; [discriminate|].
  unfold partitionChunks in H.
  replace (maxLines <=? 0) with false in H by (symmetry; apply Z.leb_gt; lia).
  pose proof (splitTextByDelimiters_visible text delimiters) as Hvis.
  destruct (splitTextByDelimiters text delimiters) as [|c cs]; [discriminate|].
  destruct (partitionHelper maxCpl (Z.to_nat maxLines) (c :: cs)) as [partition|] eqn:Ep;
    [|discriminate].
  pose proof (partitionHelper_visible _ _ _ _ Ep) as Hkeep.
  apply partitionHelper_fits in Ep as (Hn & Hall & _).
  remember (filter (fun line => (0 <? length line)%nat) (map trim partition))
    as kept eqn:Ekept.
  destruct (length kept <=? 1)%nat eqn:E2; [discriminate|]. apply Nat.leb_gt in E2.
  assert (Hlen : (length kept <= length partition)%nat).
  { subst kept. etransitivity; [apply filter_length_le | now rewrite length_map]. }
  assert (Hk : Z.of_nat (length kept) <= maxLines).
  { apply Z.le_trans with (Z.of_nat (length partition));
      [apply Nat2Z.inj_le; exact Hlen | lia]. }
  inversion H; subst lines. rewrite (takeLines_all _ _ Hk).
  split; [exact E2|]. split; [exact Hk|].
  split; [subst kept; now apply trimmed_lines_fit|].
  subst kept. now rewrite trimmed_lines_visible, Hkeep.
Qed.

(** X13: what the delimiter path returns is a real wrapping of the text:
    between two and [maxLines] lines, none empty, each within [maxCpl],
    and together they show every visible character of the text, in
    order. *)
Theorem delimiter_wrap_is_faithful
    (text : jsstring) (delimiters : list jsstring) (maxCpl maxLines : Z)
    (lines : list jsstring) :
  wrapWithPreferredDelimiters text delimiters maxCpl maxLines = Some lines ->
  (2 <= length lines)%nat
  /\ Z.of_nat (length lines) <= maxLines
  /\ Forall (fun l => l <> [] /\ fits maxCpl l) lines
  /\ visibleChars (join lines) = visibleChars text.
Proof. apply wrapWithPreferredDelimiters_sound. Qed.

Lemma delimiter_wrap_is_faithful_witness :
  let text := lit "one, two, three" in
  let lines := [lit "one,"; lit "two,"; lit "three"] in
  wrapWithPreferredDelimiters text [lit ","] 6 3 = Some lines
  /\ visibleChars (join lines) = visibleChars text.
Proof.
  intros text lines.
  assert (H : wrapWithPreferredDelimiters text [lit ","] 6 3 = Some lines)
    by (vm_compute; reflexivity).
  split; [exact H|].
  exact (proj2 (proj2 (proj2 (delimiter_wrap_is_faithful text [lit ","] 6 3 lines H)))).
Defined.


(** ** The wrapper for cues without words *)

Lemma sliceZ_length s a b : 0 <= a <= b -> lenZ (sliceZ s a b) <= b - a.
Proof.
  intros H. unfold lenZ, sliceZ, clampIndex. rewrite length_firstn.
  replace (a <? 0) with false by (symmetry; apply Z.ltb_ge; lia).
  replace (b <? 0) with false by (symmetry; apply Z.ltb_ge; lia).
  lia.
Qed.

Lemma trimEnd_fits maxCpl s : 0 <= maxCpl -> fits maxCpl (trimEnd (sliceZ s 0 maxCpl)).
Proof.
  intros H. unfold fits, lenZ. pose proof (trimEnd_length (sliceZ s 0 maxCpl)).
  pose proof (sliceZ_length s 0 maxCpl ltac:(lia)). unfold lenZ in *. lia.
Qed.

Lemma capped_fits maxCpl (always : bool) s :
  0 <= maxCpl -> always = true ->
  fits maxCpl (if (maxCpl <? lenZ s) && always
               then trimEnd (sliceZ s 0 maxCpl) else s).
Proof.
  intros H ->. rewrite andb_true_r. destruct (maxCpl <? lenZ s) eqn:E.
  - now apply trimEnd_fits.
  - apply Z.ltb_ge in E. exact E.
Qed.

Lemma wrapTwoLinesNaive_bounds
    (text : jsstring) (maxCpl maxLines : Z) (delimiters : list jsstring) :
  0 <= maxCpl -> 2 <= maxLines ->
  let r := wrapTwoLinesNaive text maxCpl maxLines delimiters in
  Forall (fits maxCpl) r
  /\ (1 <= length r)%nat
  /\ Z.of_nat (length r) <= maxLines.
Proof.
  intros Hcpl Hlines r. subst r. unfold wrapTwoLinesNaive.
  replace (maxLines <=? 1) with false by (symmetry; apply Z.leb_gt; lia).
  replace (2 <=? maxLines) with true by (symmetry; apply Z.leb_le; lia).
  assert (Hone : (1 <? maxLines) = true) by (apply Z.ltb_lt; lia).
  assert (Hrest : forall r : list jsstring,
    r = (if lenZ (trim text) <=? maxCpl then [trim text]
         else if includesSpace (trim text) then
           let target := (length (trim text) / 2)%nat in
           let breakPos :=
             match findBreak (trim text) target 0 (length (trim text)) with
             | Some pos => Z.of_nat pos
             | None => Z.min (lenZ (trim text)) maxCpl
             end in
           let line1 := trim (sliceZ (trim text) 0 breakPos) in
           let line2 := trim (sliceFrom (trim text) breakPos) in
           let line1 := if maxCpl <? lenZ line1
                        then trimEnd (sliceZ line1 0 maxCpl) else line1 in
           let line2 := if (maxCpl <? lenZ line2) && (1 <? maxLines)
                        then trimEnd (sliceZ line2 0 maxCpl) else line2 in
           [line1; line2]
         else
           let line1 := sliceZ (trim text) 0 maxCpl in
           let line2 := sliceZ (trim text) maxCpl (maxCpl * 2) in
           match line2 with
           | _ :: _ => [line1; line2]
           | [] => [line1]
           end) ->
    Forall (fits maxCpl) r /\ (1 <= length r)%nat /\ Z.of_nat (length r) <= maxLines).
  { intros r ->. destruct (lenZ (trim text) <=? maxCpl) eqn:Efit.
    - apply Z.leb_le in Efit. split; [repeat constructor; exact Efit | simpl; lia].
    - destruct (includesSpace (trim text)).
      + cbv zeta. split; [|simpl; lia].
        constructor; [|constructor; [|constructor]].
        * pose proof (capped_fits maxCpl true
                        (trim (sliceZ (trim text) 0
                           match findBreak (trim text) (length (trim text) / 2) 0
                                   (length (trim text)) with
                           | Some pos => Z.of_nat pos
                           | None => Z.min (lenZ (trim text)) maxCpl
                           end)) Hcpl eq_refl) as H.
          now rewrite andb_true_r in H.
        * now apply capped_fits.
      + cbv zeta.
        assert (H1 : fits maxCpl (sliceZ (trim text) 0 maxCpl)).
        { unfold fits. pose proof (sliceZ_length (trim text) 0 maxCpl). lia. }
        assert (H2 : fits maxCpl (sliceZ (trim text) maxCpl (maxCpl * 2))).
        { unfold fits. pose proof (sliceZ_length (trim text) maxCpl (maxCpl * 2)). lia. }
        destruct (sliceZ (trim text) maxCpl (maxCpl * 2)) as [|c l] eqn:E.
        * split; [repeat constructor; exact H1 | simpl; lia].
        * split; [repeat constructor; assumption | simpl; lia]. }
  destruct delimiters as [|d ds]; [now apply Hrest|].
  destruct (wrapWithPreferredDelimiters _ _ _ _) as [lines|] eqn:Ewrap;
    [|now apply Hrest].
  apply wrapWithPreferredDelimiters_sound in Ewrap as (H2 & Hmax & Hall & _).
  split; [|split; [lia | exact Hmax]].
  eapply Forall_impl; [|exact Hall]. now intros l [_ Hl].
Qed.

(** X14: with room for two lines or more and a non-negative [maxCpl],
    [wrapTwoLinesNaive] always returns between one and [maxLines] lines,
    every one of them within [maxCpl]; it cuts the text where it has to. *)
Theorem naive_wrap_always_fits
    (text : jsstring) (maxCpl maxLines : Z) (delimiters : list jsstring) :
  0 <= maxCpl -> 2 <= maxLines ->
  let r := wrapTwoLinesNaive text maxCpl maxLines delimiters in
  Forall (fits maxCpl) r
  /\ (1 <= length r)%nat
  /\ Z.of_nat (length r) <= maxLines.
Proof. apply wrapTwoLinesNaive_bounds. Qed.

Lemma naive_wrap_always_fits_witness :
  (0 <= 10 /\ 2 <= 2)
  /\ wrapTwoLinesNaive (lit "a long line of text to wrap") 10 2 []
     = [lit "a long lin"; lit "text to wr"]
  /\ Forall (fits 10) (wrapTwoLinesNaive (lit "a long line of text to wrap") 10 2 []).
Proof.
  assert (H1 : 0 <= 10) by lia. assert (H2 : 2 <= 2) by lia.
  split; [split; assumption|]. split; [vm_compute; reflexivity|].
  exact (proj1 (naive_wrap_always_fits (lit "a long line of text to wrap") 10 2 [] H1 H2)).
Defined.


(** ** The lines of a rendered cue *)

Lemma renderFrom_lines config : forall segments position i e,
  nth_error (renderFrom position segments config) i = Some e ->
  exists s, nth_error segments i = Some s
            /\ lines e = takeLines (max_lines config) (wrapSegment s config).
Proof.
  induction segments as [|s rest IH]; intros position i e H.
  - destruct i; discriminate.
  - destruct i as [|i]; simpl in H.
    + inversion H; subst; simpl. eauto.
    + apply IH in H. exact H.
Qed.

Lemma wrapSegment_bounds segment config :
  1 <= max_lines config -> 0 <= max_cpl config ->
  let r := wrapSegment segment config in
  (1 <= length r)%nat
  /\ Z.of_nat (length r) <= max_lines config
  /\ (Forall (fits (max_cpl config)) r \/ r = [trim (displayText segment)]).
Proof.
  intros Hlines Hcpl r. subst r. unfold wrapSegment.
  assert (Hnaive :
    let r := wrapTwoLinesNaive (displayText segment) (max_cpl config)
               (max_lines config) (line_split_delimiters config) in
    (1 <= length r)%nat /\ Z.of_nat (length r) <= max_lines config
    /\ (Forall (fits (max_cpl config)) r \/ r = [trim (displayText segment)])).
  { destruct (Z_le_gt_dec 2 (max_lines config)) as [H2|H1].
    - destruct (wrapTwoLinesNaive_bounds (displayText segment) (max_cpl config)
                  (max_lines config) (line_split_delimiters config) Hcpl H2)
        as (Hfit & Hlen & Hmax).
      cbv zeta. split; [exact Hlen|]. split; [exact Hmax | now left].
    - cbv zeta. unfold wrapTwoLinesNaive.
      replace (max_lines config <=? 1) with true by (symmetry; apply Z.leb_le; lia).
      split; [simpl; lia|]. split; [simpl; lia | now right]. }
  destruct (seg_tokens segment) as [[|w ws]|]; try exact Hnaive.
  destruct (wrapTwoLinesTokenAware_shape (w :: ws) (displayText segment)
              (max_cpl config) (max_lines config) (line_split_delimiters config))
    as [H|[[_ H]|(i & _ & _ & _ & Hcut & Hfit & Hmax)]].
  - rewrite H. split; [simpl; lia|]. split; [simpl; lia | now right].
  - apply wrapWithPreferredDelimiters_sound in H as (H2 & Hmax & Hall & _).
    split; [lia|]. split; [exact Hmax|]. left.
    eapply Forall_impl; [|exact Hall]. now intros l [_ Hl].
  - split; [rewrite Hcut; simpl; lia|]. split; [rewrite Hcut; simpl; lia | now left].
Qed.

(** X15: with [max_lines >= 1] and [max_cpl >= 0] every rendered cue shows
    the wrapper's lines untruncated: at least one and at most [max_lines]
    of them, and either all within [max_cpl] or the cue's whole text on a
    single line. *)
Theorem rendered_lines_bounded (segments : list SubtitleSegment) (config : SubtitleConfig) :
  1 <= max_lines config -> 0 <= max_cpl config ->
  forall i e, nth_error (renderSegments segments config) i = Some e ->
    exists s, nth_error segments i = Some s
      /\ lines e = wrapSegment s config
      /\ (1 <= length (lines e))%nat
      /\ Z.of_nat (length (lines e)) <= max_lines config
      /\ (Forall (fits (max_cpl config)) (lines e)
          \/ lines e = [trim (displayText s)]).
Proof.
  intros Hlines Hcpl i e H. apply renderFrom_lines in H as (s & Hs & He).
  destruct (wrapSegment_bounds s config Hlines Hcpl) as (H1 & Hmax & Hfit).
  rewrite takeLines_all in He by exact Hmax.
  exists s. rewrite He. split; [exact Hs|]. split; [reflexivity|].
  split; [exact H1|]. split; [exact Hmax | exact Hfit].
Qed.

Lemma rendered_lines_bounded_witness :
  let segments := [mkSegment [mkWord "Hello" 0 500; mkWord " world." 500 900] 0 900] in
  let e := {| index := 1; start_ms := 0; end_ms := 900;
              lines := [lit "Hello world."] |} in
  (1 <= max_lines defaultConfig /\ 0 <= max_cpl defaultConfig
   /\ nth_error (renderSegments segments defaultConfig) 0 = Some e)
  /\ exists s, nth_error segments 0 = Some s
       /\ lines e = wrapSegment s defaultConfig
       /\ (1 <= length (lines e))%nat
       /\ Z.of_nat (length (lines e)) <= max_lines defaultConfig
       /\ (Forall (fits (max_cpl defaultConfig)) (lines e)
           \/ lines e = [trim (displayText s)]).
Proof.
  intros segments e.
  assert (H1 : 1 <= max_lines defaultConfig) by (simpl; lia).
  assert (H2 : 0 <= max_cpl defaultConfig) by (simpl; lia).
  assert (H3 : nth_error (renderSegments segments defaultConfig) 0 = Some e)
    by reflexivity.
  split; [repeat split; assumption|].
  exact (rendered_lines_bounded segments defaultConfig H1 H2 0%nat e H3).
Defined.


(** ** The layout of the file *)

Lemma joinLines_cons c rest :
  rest <> [] -> joinLines (c :: rest) = c ++ [NEWLINE] ++ joinLines rest.
Proof. destruct rest; [contradiction | reflexivity]. Qed.

Lemma joinLines_app : forall a b,
  a <> [] -> b <> [] -> joinLines (a ++ b) = joinLines a ++ [NEWLINE] ++ joinLines b.
Proof.
  induction a as [|c a IH]; intros b Ha Hb; [contradiction|].
  destruct a as [|c' a'].
  - cbn [app]. rewrite joinLines_cons by exact Hb. reflexivity.
  - change ((c :: c' :: a') ++ b) with (c :: ((c' :: a') ++ b)).
    rewrite joinLines_cons by discriminate.
    rewrite IH by (discriminate || exact Hb).
    rewrite (joinLines_cons c (c' :: a')) by discriminate.
    now rewrite <- !app_assoc.
Qed.

Lemma joinLines_blank : forall chunks,
  chunks <> [] ->
  joinLines (chunks ++ [[]]) = concat (map (fun line => line ++ [NEWLINE]) chunks).
Proof.
  induction chunks as [|c rest IH]; intros H; [contradiction|].
  destruct rest as [|c' rest'].
  - simpl. now rewrite !app_nil_r.
  - change ((c :: c' :: rest') ++ [[]]) with (c :: ((c' :: rest') ++ [[]])).
    rewrite joinLines_cons by discriminate. rewrite IH by discriminate.
    cbn [map concat]. now rewrite <- !app_assoc.
Qed.

Lemma entryChunks_block entry :
  joinLines (entryChunks entry) ++ [NEWLINE] = cueBlock entry.
Proof.
  unfold entryChunks, cueBlock. rewrite app_assoc.
  rewrite joinLines_blank by discriminate.
  cbn [app map concat]. now rewrite <- !app_assoc.
Qed.

Lemma entryChunks_nonempty entry : entryChunks entry <> [].
Proof. unfold entryChunks. discriminate. Qed.

Lemma flat_map_entryChunks_nonempty e es : flat_map entryChunks (e :: es) <> [].
Proof.
  cbn [flat_map]. intros H. apply app_eq_nil in H as [H _].
  now apply entryChunks_nonempty in H.
Qed.

(** X16: the text written is a sequence of SubRip blocks, one per entry
    and in order: the number, the timing line and each text line, every
    one followed by a line feed, then one more line feed.  With no entry
    at all the file holds a single line feed. *)
Theorem srtContent_is_blocks (entries : list SubtitleEntry) :
  srtContent entries
  = match entries with
    | [] => [NEWLINE]
    | _ :: _ => concat (map cueBlock entries)
    end.
Proof.
  destruct entries as [|e es]; [reflexivity|]. unfold srtContent.
  revert e. induction es as [|e' es IH]; intros e.
  - cbn [flat_map map concat]. rewrite !app_nil_r. apply entryChunks_block.
  - change (flat_map entryChunks (e :: e' :: es))
      with (entryChunks e ++ flat_map entryChunks (e' :: es)).
    rewrite joinLines_app
      by (apply entryChunks_nonempty || apply flat_map_entryChunks_nonempty).
    change (map cueBlock (e :: e' :: es)) with (cueBlock e :: map cueBlock (e' :: es)).
    cbn [concat]. rewrite <- IH, <- entryChunks_block. now rewrite <- !app_assoc.
Qed.


(** ** Building a configuration *)

Lemma str_eqb_refl : forall a, str_eqb a a = true.
Proof.
  induction a as [|x a IH]; [reflexivity|]. simpl. rewrite IH.
  unfold char_eqb. now rewrite N.eqb_refl.
Qed.

Lemma inSet_In set s : inSet set s = true <-> In s set.
Proof.
  unfold inSet. rewrite existsb_exists. split.
  - intros (x & Hx & E). apply str_eqb_eq in E. now subst.
  - intros H. exists s. split; [exact H | apply str_eqb_refl].
Qed.

Lemma dedupe_In : forall values seen d,
  In d (dedupe seen values) <-> In d values /\ ~ In d seen.
Proof.
  induction values as [|v rest IH]; intros seen d; [simpl; tauto|].
  cbn [dedupe]. destruct (inSet seen v) eqn:E.
  - apply inSet_In in E. rewrite IH. simpl. split.
    + intros [H1 H2]. tauto.
    + intros [[->|H1] H2]; [contradiction | tauto].
  - assert (Hv : ~ In v seen) by (rewrite <- inSet_In, E; discriminate).
    cbn [In]. rewrite IH. simpl. split.
    + intros [<-|[H1 H2]]; [tauto|]. split; [now right | tauto].
    + intros [[H|H1] H2]; [now left|].
      destruct (list_eq_dec N.eq_dec v d) as [Heq|Hne]; [now left|].
      right. split; [exact H1|]. intros [H|H]; contradiction.
Qed.

Lemma dedupe_NoDup : forall values seen, NoDup (dedupe seen values).
Proof.
  induction values as [|v rest IH]; intros seen; [constructor|].
  cbn [dedupe]. destruct (inSet seen v); [apply IH|].
  constructor; [|apply IH]. rewrite dedupe_In. intros [_ H]. apply H. now left.
Qed.

Lemma dedupe_fixed : forall values seen,
  NoDup values -> (forall d, In d values -> ~ In d seen) ->
  dedupe seen values = values.
Proof.
  induction values as [|v rest IH]; intros seen Hnd Hnew; [reflexivity|].
  inversion Hnd as [|? ? Hv Hrest]; subst. cbn [dedupe].
  destruct (inSet seen v) eqn:E.
  - apply inSet_In in E. exfalso. apply (Hnew v); [now left | exact E].
  - f_equal. apply IH; [exact Hrest|].
    intros d Hd [<-|Hs]; [contradiction|]. apply (Hnew d); [now right | exact Hs].
Qed.

Lemma filter_fixed {A} (p : A -> bool) : forall l,
  Forall (fun x => p x = true) l -> filter p l = l.
Proof.
  induction 1 as [|x l Hx _ IH]; [reflexivity|]. cbn [filter]. now rewrite Hx, IH.
Qed.

Lemma visible_positive (value : jsstring) :
  (0 <? length (trim value))%nat = true <-> visibleChars value <> [].
Proof.
  rewrite <- trim_nil_iff. destruct (trim value) as [|c t].
  - split; [discriminate | intros H; now contradiction H].
  - split; [discriminate | reflexivity].
Qed.

Lemma trim_single c : trim [c] = if isWhite c then [] else [c].
Proof.
  unfold trim, trimEnd. cbn [trimStart]. destruct (isWhite c) eqn:E; [reflexivity|].
  cbn [rev app trimStart]. now rewrite E.
Qed.

Lemma cliDelimiters_chars : forall chars,
  cliDelimiters chars = map (fun c => [c]) (visibleChars chars).
Proof.
  unfold cliDelimiters, visibleChars.
  induction chars as [|c chars IH]; [reflexivity|].
  cbn [map filter]. rewrite trim_single.
  destruct (isWhite c); cbn [length Nat.ltb Nat.leb negb map]; [exact IH|].
  f_equal. exact IH.
Qed.

(** X17: the constructor normalises the delimiters it is given: the
    configuration holds each non-blank one exactly once, and nothing
    else; the wrapper's own filter keeps all of them; building again from
    the result changes nothing.  The delimiters the command line passes
    are the visible code units of its argument, one string each.  With no
    option at all the constructor gives the default configuration. *)
Theorem constructor_normalises_delimiters (options : Options.t) :
  let given := orElse (Options.lineSplitDelimiters options) [] in
  let kept := line_split_delimiters (newSubtitleConfig options) in
  NoDup kept
  /\ (forall d, In d kept <-> In d given /\ visibleChars d <> [])
  /\ filter (fun value => (0 <? length value)%nat) kept = kept
  /\ newSubtitleConfig (withDelimiters kept options) = newSubtitleConfig options
  /\ (forall chars,
        line_split_delimiters (newSubtitleConfig (withDelimiters (cliDelimiters chars) options))
        = dedupe [] (map (fun c => [c]) (visibleChars chars)))
  /\ newSubtitleConfig Options.none = defaultConfig.
Proof.
  intros given kept.
  assert (Hin : forall d, In d kept <-> In d given /\ visibleChars d <> []).
  { intros d. subst kept. cbn [newSubtitleConfig line_split_delimiters]. fold given.
    rewrite dedupe_In, filter_In, visible_positive. simpl. tauto. }
  assert (Hnd : NoDup kept) by apply dedupe_NoDup.
  assert (Hvis : Forall (fun d => visibleChars d <> []) kept).
  { apply Forall_forall. intros d Hd. now apply Hin in Hd. }
  split; [exact Hnd|]. split; [exact Hin|]. split; [|split; [|split]].
  - apply filter_fixed. eapply Forall_impl; [|exact Hvis].
    intros d Hd. destruct d; [now contradiction Hd | reflexivity].
  - unfold newSubtitleConfig at 1.
    cbn [withDelimiters Options.lineSplitDelimiters Options.gapMs Options.minDurMs
         Options.maxDurMs Options.maxCps Options.maxCpl Options.maxLines
         Options.segmentOnSentence Options.splitOnSpeaker Options.ellipses orElse].
    rewrite filter_fixed
      by (eapply Forall_impl; [|exact Hvis]; intros d Hd; now apply visible_positive).
    rewrite dedupe_fixed by (auto; intros d _ []).
    reflexivity.
  - intros chars.
    cbn [newSubtitleConfig line_split_delimiters withDelimiters
         Options.lineSplitDelimiters orElse].
    rewrite cliDelimiters_chars. f_equal. apply filter_fixed.
    apply Forall_forall. intros d Hd. apply in_map_iff in Hd as (c & <- & Hc).
    apply visible_positive. unfold visibleChars in *. apply filter_In in Hc as [_ Hc].
    cbn [filter]. rewrite Hc. discriminate.
  - reflexivity.
Qed.


(** ** Words are made of their tokens *)

Module WordsMadeFacts.
Import Words WordsMade.

Lemma composedText_nonempty first rest :
  hasText first = true ->
  (t_prefix_space first = true \/ startsWhite (rawTextOf first) = false) ->
  composedText (t_prefix_space first) (first :: rest) <> [].
Proof.
  intros Htext Hlead. unfold composedText.
  destruct (t_prefix_space first); [discriminate|].
  destruct Hlead as [H|H]; [discriminate|].
  unfold cleanText, hasText, startsWhite in *. cbn [map join concat app].
  destruct (rawTextOf first) as [|c s]; [discriminate|].
  cbn [trimStart]. rewrite H. discriminate.
Qed.

Lemma flush_made st : inv st -> inv (flush st) /\ currentTokens (flush st) = [].
Proof.
  intros (Hwords & Htext & Hopen). unfold flush.
  destruct (currentTokens st) as [|first rest] eqn:E.
  - split; [|exact E]. unfold inv. rewrite E. now split.
  - split; [|reflexivity]. unfold inv. cbn [words currentTokens currentText map].
    split; [|split; [reflexivity | exact I]].
    apply Forall_app. split; [exact Hwords|]. constructor; [|constructor].
    destruct Hopen as (H1 & H2 & H3). unfold madeOf.
    cbn [w_inner w_prefix_space w_text hd_error option_map].
    split; [discriminate|]. split; [now split|]. split; [reflexivity|].
    rewrite Htext. split; [reflexivity|].
    intros _. now apply composedText_nonempty.
Qed.

Lemma cleanText_flagged t : cleanText (set_prefix_space t) = cleanText t.
Proof. reflexivity. Qed.

Lemma add_first token prefixSpace st :
  inv st -> currentTokens st = [] -> hasText token = true ->
  (prefixSpace = true \/ startsWhite (rawTextOf token) = false) ->
  inv (addToCurrent token (cleanText token) prefixSpace st).
Proof.
  intros (Hwords & Htext & _) Hempty Hhas Hlead. unfold inv, addToCurrent.
  cbn [words currentTokens currentText]. rewrite Hempty in *. rewrite Htext.
  split; [exact Hwords|]. cbn [app map]. split.
  - destruct prefixSpace; reflexivity.
  - cbn [membersOf]. destruct prefixSpace.
    + split; [exact Hhas|]. split; [now left | constructor].
    + split; [exact Hhas|]. split; [|constructor].
      destruct Hlead as [H|H]; [discriminate | now right].
Qed.

Lemma add_next token st :
  inv st -> currentTokens st <> [] -> hasText token = true ->
  startsWhite (rawTextOf token) = false ->
  inv (addToCurrent token (cleanText token) false st).
Proof.
  intros (Hwords & Htext & Hopen) Hne Hhas Hfollow. unfold inv, addToCurrent.
  cbn [words currentTokens currentText]. split; [exact Hwords|]. split.
  - rewrite Htext, map_app. reflexivity.
  - destruct (currentTokens st) as [|first rest]; [contradiction|].
    destruct Hopen as (H1 & H2 & H3). cbn [app membersOf].
    split; [exact H1|]. split; [exact H2|].
    apply Forall_app. split; [exact H3|]. constructor; [now split | constructor].
Qed.

Lemma step_made st token : inv st -> inv (step st token).
Proof.
  intros Hinv. unfold step.
  destruct (rawTextOf token) as [|c0 raw] eqn:Eraw; [exact Hinv|].
  assert (Hhas : hasText token = true) by (unfold hasText; now rewrite Eraw).
  assert (Hclean : trimStart (c0 :: raw) = cleanText token)
    by (unfold cleanText; now rewrite Eraw).
  rewrite Hclean.
  match goal with |- inv (if ?b then flush ?s else ?s) =>
    assert (Hs : inv s); [|destruct b; [now apply flush_made|]; exact Hs] end.
  destruct (flush_made st Hinv) as [Hf Hfe].
  destruct (isWhite c0) eqn:Ewhite.
  - apply add_first; auto.
  - assert (Hfollow : startsWhite (rawTextOf token) = false)
      by (rewrite Eraw; exact Ewhite).
    destruct (currentTokens st) as [|t ts] eqn:Ecur.
    + apply add_first; auto.
    + assert (Hne : currentTokens st <> []) by (rewrite Ecur; discriminate).
      destruct (_ && forallb _ _); [now apply add_next|].
      destruct (_ && _); [apply add_first; auto | now apply add_next].
Qed.

Lemma fold_made tokens : forall st, inv st -> inv (fold_left step tokens st).
Proof.
  induction tokens as [|t ts IH]; simpl; intros st H; [exact H|].
  apply IH, step_made, H.
Qed.

Lemma run_made tokens : Forall (madeOf false) (words (run tokens)).
Proof.
  assert (Hinit : inv init) by (repeat split; constructor).
  exact (proj1 (proj1 (flush_made _ (fold_made tokens init Hinit)))).
Qed.

End WordsMadeFacts.

Lemma startsWithSpace_false_trimStart prefixSpace first rest :
  hasText first = true ->
  (t_prefix_space first = true \/ startsWhite (rawTextOf first) = false) ->
  prefixSpace = t_prefix_space first ->
  startsWithSpace (composedText prefixSpace (first :: rest)) = false ->
  trimStart (composedText prefixSpace (first :: rest))
  = composedText prefixSpace (first :: rest).
Proof.
  intros Hhas Hlead -> Hstart. unfold composedText in *.
  destruct (t_prefix_space first); [discriminate Hstart|].
  destruct Hlead as [H|H]; [discriminate|].
  unfold cleanText, hasText, startsWhite in *. cbn [map join concat app] in *.
  destruct (rawTextOf first) as [|c s]; [discriminate|].
  cbn [trimStart]. rewrite H. cbn [app trimStart]. now rewrite H.
Qed.

(** X18: every word [tokensToWords] returns is made of its member tokens:
    it has at least one; each member has text, and none but the first
    begins with white space; the word's text is one space, when its first
    member is flagged, followed by the members' texts without their
    leading white space.  The first word has its leading white space
    removed; every later word has a non-empty text. *)
Theorem words_are_made_of_their_tokens (tokens : list Token) :
  match tokensToWords tokens with
  | [] => True
  | w0 :: rest => madeOf true w0 /\ Forall (madeOf false) rest
  end.
Proof.
  pose proof (WordsMadeFacts.run_made tokens) as H. unfold tokensToWords.
  destruct (Words.words (Words.run tokens)) as [|w0 rest]; [exact I|].
  inversion H as [|? ? Hw0 Hrest]; subst.
  destruct Hw0 as (Hne & Hmem & Hflag & Htext & _).
  assert (Hlead : madeOf true
            (if startsWithSpace (w_text w0)
             then set_w_text w0 (trimStart (w_text w0)) else w0)).
  { destruct (startsWithSpace (w_text w0)) eqn:Estart.
    - unfold madeOf. cbn [set_w_text w_inner w_prefix_space w_text].
      split; [exact Hne|]. split; [exact Hmem|]. split; [exact Hflag|].
      split; [now rewrite <- Htext | discriminate].
    - unfold madeOf. split; [exact Hne|]. split; [exact Hmem|]. split; [exact Hflag|].
      split; [|discriminate].
      destruct (w_inner w0) as [|first members] eqn:Einner; [contradiction|].
      destruct Hmem as (H1 & H2 & _). cbn [hd_error option_map] in Hflag.
      inversion Hflag as [Hp]. rewrite Htext in Estart.
      rewrite Htext. symmetry.
      apply startsWithSpace_false_trimStart; auto. }
  destruct (startsWithSpace (w_text w0)); split; assumption.
Qed.


(** ** Continuation marks *)

Lemma last_shift {A} : forall (rest : list A) x y, last (y :: rest) x = last rest y.
Proof.
  induction rest as [|z rest IH]; intros x y; [reflexivity|].
  change (last (y :: z :: rest) x) with (last (z :: rest) x). now rewrite !IH.
Qed.

Lemma lastOf_cons {A} (x : A) rest : rest <> [] -> lastOf (x :: rest) = lastOf rest.
Proof.
  destruct rest as [|y rest]; [contradiction|]. intros _. unfold lastOf.
  now rewrite last_shift.
Qed.

Lemma lastOf_app {A} : forall (a b : list A), b <> [] -> lastOf (a ++ b) = lastOf b.
Proof.
  induction a as [|x a IH]; intros b Hb; [reflexivity|].
  cbn [app]. rewrite lastOf_cons; [now apply IH|].
  intros H. apply app_eq_nil in H as [_ H]. contradiction.
Qed.

Lemma firstClean_app a b : a <> [] -> firstClean a -> firstClean (a ++ b).
Proof. destruct a as [|x a]; [contradiction|]. intros _ H. exact H. Qed.

Lemma lastClean_app a b :
  lastClean a -> lastClean b -> lastClean (a ++ b).
Proof.
  intros Ha Hb. destruct b as [|y b]; [now rewrite app_nil_r|].
  unfold lastClean. rewrite lastOf_app by discriminate. exact Hb.
Qed.

Lemma Splits_edges config seg outs :
  Splits config seg outs ->
  outs <> []
  /\ (prefix_ellipsis seg = false -> firstClean outs)
  /\ (suffix_ellipsis seg = false -> lastClean outs).
Proof.
  induction 1 as [seg Hleaf|seg l0 r0 ls rs _ _ _ _ IHl _ IHr].
  - split; [discriminate|]. split; intros H s Hs; inversion Hs; now subst.
  - destruct IHl as (Hl & Hlf & _). destruct IHr as (Hr & _ & Hrl).
    split; [intros H; apply app_eq_nil in H as [H _]; contradiction|].
    split; intros _.
    + apply firstClean_app; [exact Hl | now apply Hlf].
    + unfold lastClean. rewrite lastOf_app by exact Hr. now apply Hrl.
Qed.

Lemma splitPhase_edges config : forall segments outs,
  Forall2 (Splits config) segments outs -> Forall noEllipsis segments ->
  firstClean (concat outs) /\ lastClean (concat outs).
Proof.
  induction 1 as [|seg out segments outs Hs _ IH]; intros Hall.
  - split; intros s Hs; discriminate.
  - inversion Hall as [|? ? [Hp Hq] Hrest]; subst.
    destruct (Splits_edges config seg out Hs) as (Hne & Hf & Hl).
    destruct (IH Hrest) as [_ IHl]. cbn [concat]. split.
    + apply firstClean_app; [exact Hne | now apply Hf].
    + apply lastClean_app; [now apply Hl | exact IHl].
Qed.

Lemma mergePass_firstClean config l :
  firstClean l -> firstClean (fst (mergePass config l)).
Proof.
  destruct l as [|a [|b rest]]; [auto | auto |]. intros H.
  rewrite mergePass_step. destruct (mergeable config a b).
  - intros s Hs. inversion Hs. reflexivity.
  - exact H.
Qed.

Lemma mergePass_lastClean config : forall n l,
  (length l <= n)%nat -> lastClean l -> lastClean (fst (mergePass config l)).
Proof.
  induction n as [|n IH]; intros l Hn H.
  - destruct l; [exact H | simpl in Hn; lia].
  - destruct l as [|a [|b rest]]; [exact H | exact H |].
    rewrite mergePass_step. destruct (mergeable config a b).
    + cbn [fst]. destruct rest as [|c rest'].
      * intros s Hs. inversion Hs. reflexivity.
      * unfold lastClean. rewrite lastOf_cons
          by (rewrite mergePass_nil; discriminate).
        apply IH; [simpl in Hn |- *; lia|].
        unfold lastClean in *. now rewrite !lastOf_cons in H by discriminate.
    + cbn [fst]. unfold lastClean. rewrite lastOf_cons
        by (rewrite mergePass_nil; discriminate).
      apply IH; [simpl in Hn |- *; lia|].
      unfold lastClean in *. now rewrite lastOf_cons in H by discriminate.
Qed.

Lemma displayText_plain s : noEllipsis s -> displayText s = segmentText s.
Proof. intros [Hp Hs]. unfold displayText. now rewrite Hp, Hs. Qed.

(** X19: in what the conversion returns no cue carries both continuation
    marks, the first cue has no mark in front and the last none behind;
    with the [ellipses] option off no cue carries a mark at all, and every
    cue displays exactly its text. *)
Theorem continuation_marks (tokens : list Token) (config : SubtitleConfig) :
  exists out,
    tokensToSubtitleSegments tokens config = Ret out
    /\ Forall (marksOK config) out
    /\ firstClean out /\ lastClean out
    /\ (ellipses config = false ->
        Forall (fun s => displayText s = segmentText s) out).
Proof.
  unfold tokensToSubtitleSegments.
  pose proof (buildSegments_shape (fun _ => True) (tokensToWords tokens)
                (gap_ms config) (split_on_speaker config) (segment_on_sentence config))
    as (Hbuilt & _); [apply Forall_forall; intros; exact I|].
  assert (Hplain : Forall noEllipsis
            (buildSegments (tokensToWords tokens) (gap_ms config)
               (split_on_speaker config) (segment_on_sentence config))).
  { eapply Forall_impl; [|exact Hbuilt]. intros s (_ & _ & _ & Hp & Hs & _). now split. }
  assert (Hshow : forall out, Forall (marksOK config) out -> ellipses config = false ->
                              Forall (fun s => displayText s = segmentText s) out).
  { intros out Hall Hoff. eapply Forall_impl; [|exact Hall].
    intros s [_ Hs]. now apply displayText_plain, Hs. }
  destruct (buildSegments _ _ _ _) as [|s0 rest] eqn:Esegs.
  - exists []. split; [reflexivity|]. split; [constructor|].
    split; [intros s Hs; discriminate|]. split; [intros s Hs; discriminate|].
    intros _. constructor.
  - destruct (enforceReadability_spec config
                (fun l => Forall (marksOK config) l /\ firstClean l /\ lastClean l)
                (s0 :: rest)) as (out & Hrun & (Hall & Hfirst & Hlast) & _).
    + intros l (Hall & Hfirst & Hlast). split; [|split].
      * apply (mergePass_Forall config (marksOK config)) with (n := length l); auto.
        intros a b _ _ _. split; [reflexivity | intros _; split; reflexivity].
      * now apply mergePass_firstClean.
      * now apply (mergePass_lastClean config (length l)).
    + intros outs Hsplits.
      destruct (splitPhase_edges config _ _ Hsplits Hplain) as [Hfirst Hlast].
      split; [|now split].
      apply (splitPhase_Forall config (marksOK config)) with (segments := s0 :: rest);
        auto.
      * intros seg idx w _. unfold marksOK, leftChild, child, noEllipsis.
        cbn [prefix_ellipsis suffix_ellipsis andb]. split; [reflexivity|].
        intros ->. now split.
      * intros seg idx w _. unfold marksOK, rightChild, child, noEllipsis.
        cbn [prefix_ellipsis suffix_ellipsis]. split; [apply andb_false_r|].
        intros ->. now split.
      * eapply Forall_impl; [|exact Hplain]. intros s [Hp Hs].
        split; [now rewrite Hp | intros _; now split].
    + exists out. split; [exact Hrun|]. split; [exact Hall|].
      split; [exact Hfirst|]. split; [exact Hlast | now apply Hshow].
Qed.


(** ** Words keep their order *)

Lemma Subseq_refl {A} : forall l : list A, Subseq l l.
Proof. induction l; [apply Subseq_nil | now apply Subseq_keep]. Qed.

Lemma Subseq_nil_l {A} : forall l : list A, Subseq [] l.
Proof. induction l; [apply Subseq_nil | now apply Subseq_skip]. Qed.

Lemma Subseq_app {A} : forall (a' a b' b : list A),
  Subseq a' a -> Subseq b' b -> Subseq (a' ++ b') (a ++ b).
Proof.
  intros a' a b' b Ha Hb. induction Ha; simpl;
    [exact Hb | now apply Subseq_skip | now apply Subseq_keep].
Qed.

Lemma Subseq_trans {A} : forall (l1 l2 l3 : list A),
  Subseq l1 l2 -> Subseq l2 l3 -> Subseq l1 l3.
Proof.
  intros l1 l2 l3 H12 H23. revert l1 H12.
  induction H23 as [|x l2 l3 _ IH|x l2 l3 _ IH]; intros l1 H12.
  - exact H12.
  - apply Subseq_skip. now apply IH.
  - inversion H12; subst; [apply Subseq_skip | apply Subseq_keep]; now apply IH.
Qed.

Lemma Subseq_In {A} (l' l : list A) x : Subseq l' l -> In x l' -> In x l.
Proof.
  induction 1 as [|y l' l _ IH|y l' l _ IH]; intros H; [exact H | right; auto |].
  destruct H as [<-|H]; [now left | right; auto].
Qed.

Lemma Subseq_Forall {A} (P : A -> Prop) (l' l : list A) :
  Subseq l' l -> Forall P l -> Forall P l'.
Proof.
  intros Hs Hall. apply Forall_forall. intros x Hx.
  rewrite Forall_forall in Hall. eapply Hall, Subseq_In; eauto.
Qed.

Lemma Subseq_sorted {A} (R : A -> A -> Prop) (l' l : list A) :
  Subseq l' l -> StronglySorted R l -> StronglySorted R l'.
Proof.
  induction 1 as [|y l' l Hs IH|y l' l Hs IH]; intros H; [exact H | |];
    apply StronglySorted_inv in H as [H Hy]; [now apply IH|].
  constructor; [now apply IH | eapply Subseq_Forall; eauto].
Qed.

Module BuildOrder.
Import Build BuildSpec.

Lemma closeSegment_sub sb st : Subseq (flat (closeSegment sb st)) (flat st).
Proof.
  unfold flat.
  destruct (BuildShape.closeSegment_cases sb st)
    as [-> [[-> _]|(seg & -> & _ & Hw & _)]].
  - apply Subseq_app; [apply Subseq_refl | apply Subseq_nil_l].
  - rewrite flatWords_app. simpl. rewrite Hw, !app_nil_r. apply Subseq_refl.
Qed.

Lemma speakerRule_sub b st w : Subseq (flat (speakerRule b st w)) (flat st).
Proof.
  unfold speakerRule.
  match goal with |- Subseq (flat (if ?c then _ else _)) _ => destruct c end;
    auto using Subseq_refl, closeSegment_sub.
Qed.

Lemma gapRule_sub g st w : Subseq (flat (gapRule g st w)) (flat st).
Proof.
  unfold gapRule. destruct (current st); [apply Subseq_refl|].
  destruct (lastTokenEnd st); [|apply Subseq_refl].
  repeat match goal with |- Subseq (flat (if ?c then _ else _)) _ => destruct c end;
    auto using Subseq_refl, closeSegment_sub.
Qed.

Lemma step_sub g b1 b2 st w seen :
  Subseq (flat st) seen -> Subseq (flat (step g b1 b2 st w)) (seen ++ [w]).
Proof.
  intros H.
  assert (H3 : Subseq (flat (append (gapRule g (speakerRule b1 st w) w) w))
                      (seen ++ [w])).
  { rewrite BuildShape.flat_append. apply Subseq_app; [|apply Subseq_refl].
    eapply Subseq_trans; [apply gapRule_sub|].
    eapply Subseq_trans; [apply speakerRule_sub | exact H]. }
  unfold step. destruct (isSentenceEnd b2 (w_text w)); [|exact H3].
  eapply Subseq_trans; [apply closeSegment_sub | exact H3].
Qed.

Lemma fold_sub g b1 b2 : forall ws st seen,
  Subseq (flat st) seen ->
  Subseq (flat (fold_left (step g b1 b2) ws st)) (seen ++ ws).
Proof.
  induction ws as [|w ws IH]; intros st seen H; simpl.
  - now rewrite app_nil_r.
  - replace (seen ++ w :: ws) with ((seen ++ [w]) ++ ws)
      by (now rewrite <- app_assoc).
    apply IH. now apply step_sub.
Qed.

End BuildOrder.

Lemma buildSegments_Subseq ws g b1 b2 :
  Subseq (flatWords (buildSegments ws g b1 b2)) ws.
Proof.
  unfold buildSegments.
  pose proof (BuildOrder.fold_sub g b1 b2 ws Build.init [] (Subseq_refl _)) as H.
  set (st := fold_left _ ws Build.init) in *.
  pose proof (BuildOrder.closeSegment_sub false st) as Hc.
  destruct (BuildShape.closeSegment_cases false st) as [Hcur _].
  unfold BuildSpec.flat in Hc at 1. rewrite Hcur, app_nil_r in Hc.
  eapply Subseq_trans; [exact Hc | exact H].
Qed.

Lemma conversion_Subseq tokens config :
  exists out,
    tokensToSubtitleSegments tokens config = Ret out
    /\ Subseq (flatWords out) (tokensToWords tokens).
Proof.
  unfold tokensToSubtitleSegments.
  pose proof (buildSegments_Subseq (tokensToWords tokens) (gap_ms config)
                (split_on_speaker config) (segment_on_sentence config)) as Hsub.
  destruct (buildSegments _ _ _ _) as [|s0 rest] eqn:Esegs.
  - exists []. split; [reflexivity | apply Subseq_nil_l].
  - destruct (enforceReadability_Forall config (fun _ => True) (s0 :: rest))
      as (out & Hrun & _ & Hflat & _); auto.
    { apply Forall_forall. intros; exact I. }
    exists out. split; [exact Hrun|]. now rewrite Hflat.
Qed.

(** X20: the segmenter neither reorders nor repeats words: the words of
    its segments, read in order, are the input words with some left out
    (those of a run that shows nothing); and so are the words of the cues
    the conversion returns. *)
Theorem words_keep_their_order :
  (forall ws g b1 b2, Subseq (flatWords (buildSegments ws g b1 b2)) ws)
  /\ (forall tokens config,
        exists out,
          tokensToSubtitleSegments tokens config = Ret out
          /\ Subseq (flatWords out) (tokensToWords tokens)).
Proof. split; [apply buildSegments_Subseq | apply conversion_Subseq]. Qed.


(** ** Cues do not overlap *)

Lemma sorted_snoc_by {A} (R : A -> A -> Prop) (l : list A) (y : A) :
  StronglySorted R l -> Forall (fun x => R x y) l -> StronglySorted R (l ++ [y]).
Proof.
  induction l as [|x l IH]; intros Hl Hy; [repeat constructor|].
  apply StronglySorted_inv in Hl as [Hl Hx]. inversion Hy; subst. simpl.
  constructor; [now apply IH|].
  apply Forall_app. split; [exact Hx | now repeat constructor].
Qed.

Lemma sorted_cross {A} (R : A -> A -> Prop) : forall (l1 l2 : list A),
  StronglySorted R (l1 ++ l2) ->
  StronglySorted R l2 /\ forall a b, In a l1 -> In b l2 -> R a b.
Proof.
  induction l1 as [|x l1 IH]; simpl; intros l2 H.
  - split; [exact H | intros a b []].
  - apply StronglySorted_inv in H as [H Hx].
    destruct (IH l2 H) as (H2 & Hcross). apply Forall_app in Hx as [_ Hx2].
    split; [exact H2|]. intros a b [<-|Ha] Hb; [|now apply Hcross].
    rewrite Forall_forall in Hx2. now apply Hx2.
Qed.

Module WordsApartFacts.
Import Words WordsApart.

Lemma init_apart : inv None init.
Proof. unfold inv, init; simpl. repeat split; constructor. Qed.

Lemma below_later hi s e x : above hi s -> s <= e -> below hi x -> below (Some e) x.
Proof. destruct hi; simpl; [lia | contradiction]. Qed.

Lemma apart_mono hi s e st : above hi s -> s <= e -> inv hi st -> inv (Some e) st.
Proof.
  intros Hs Hle (Ht & Hsorted & Hbelow & Hcur).
  split; [exact Ht|]. split; [exact Hsorted|]. split.
  - eapply Forall_impl; [|exact Hbelow]. intros w. now apply below_later with (s := s).
  - destruct (currentTokens st); [exact Hcur|].
    destruct Hcur as (cs & ce & H1 & H2 & H3 & H4 & H5).
    exists cs, ce. repeat (split; [assumption|]).
    split; [now apply below_later with (hi := hi) (s := s) | exact H5].
Qed.

Lemma flush_apart hi st : inv hi st -> inv hi (flush st).
Proof.
  intros (Ht & Hsorted & Hbelow & Hcur). unfold flush, inv.
  destruct (currentTokens st) as [|first rest] eqn:E; [rewrite E; auto|].
  destruct Hcur as (cs & ce & -> & -> & Hle & Hhi & Hall).
  cbn [words currentTokens currentStart currentEnd orElse].
  split; [|split; [|split; [|split; reflexivity]]].
  - apply Forall_app. split; [exact Ht|]. repeat constructor. exact Hle.
  - apply sorted_snoc_by; [exact Hsorted|].
    eapply Forall_impl; [|exact Hall]. intros w Hw. exact Hw.
  - apply Forall_app. split; [exact Hbelow | now repeat constructor].
Qed.

Lemma add_apart hi st t txt p s e :
  inv hi st -> t_start_ms t = Some s -> t_end_ms t = Some e ->
  s <= e -> above hi s ->
  inv (Some e) (addToCurrent t txt p st).
Proof.
  intros Hinv Hs He Hle Habove.
  pose proof (apart_mono hi s e st Habove Hle Hinv) as (Ht & Hsorted & Hbelow & _).
  destruct Hinv as (_ & _ & Hbelow0 & Hcur).
  unfold inv, addToCurrent. cbn [words currentTokens currentStart currentEnd].
  rewrite Hs, He.
  split; [exact Ht|]. split; [exact Hsorted|]. split; [exact Hbelow|].
  assert (Hends : Forall (fun w => w_end_ms w <= s) (words st)).
  { eapply Forall_impl; [|exact Hbelow0]. intros w Hw.
    destruct hi; simpl in *; [lia | contradiction]. }
  destruct (currentTokens st) as [|first rest]; cbn [app].
  - destruct Hcur as [-> ->]. exists s, e.
    split; [reflexivity|]. split; [reflexivity|]. split; [exact Hle|].
    split; [simpl; lia | exact Hends].
  - destruct Hcur as (cs & ce & -> & -> & Hce & Hhi & Hall).
    assert (Hces : ce <= s) by (destruct hi; simpl in *; [lia | contradiction]).
    exists (Z.min cs s), (Z.max ce e).
    split; [reflexivity|]. split; [reflexivity|]. split; [lia|].
    split; [simpl; lia|].
    rewrite Forall_forall in Hall, Hends. apply Forall_forall. intros w Hw.
    specialize (Hall w Hw). specialize (Hends w Hw). simpl in *. lia.
Qed.

Lemma step_apart hi st t s e :
  inv hi st -> t_start_ms t = Some s -> t_end_ms t = Some e ->
  s <= e -> above hi s ->
  inv (Some e) (step st t).
Proof.
  intros Hinv Hs He Hle Habove. unfold step.
  destruct (rawTextOf t) as [|c0 raw]; [now apply (apart_mono hi s)|].
  match goal with |- inv _ (if ?b then flush ?x else ?x) =>
    assert (H : inv (Some e) x); [|destruct b; [apply flush_apart|]; exact H] end.
  assert (Hadd : forall x txt p, inv hi x -> inv (Some e) (addToCurrent t txt p x))
    by (intros; eapply add_apart; eauto).
  destruct (isWhite c0); [apply Hadd, flush_apart, Hinv|].
  destruct (currentTokens st); [now apply Hadd|].
  repeat match goal with |- inv _ (if ?b then _ else _) => destruct b end;
    auto using flush_apart.
Qed.

Lemma fold_apart : forall tokens hi st,
  inv hi st -> separatedFrom hi tokens = true ->
  exists hi', inv hi' (fold_left step tokens st).
Proof.
  induction tokens as [|t rest IH]; simpl; intros hi st Hinv Hsep; [eauto|].
  destruct (t_start_ms t) as [s|] eqn:Hs; [|discriminate].
  destruct (t_end_ms t) as [e|] eqn:He; [|discriminate].
  apply andb_prop in Hsep as [Hsep Hrest].
  apply andb_prop in Hsep as [Hlo Hle]. apply Z.leb_le in Hle.
  apply (IH (Some e)); [|exact Hrest].
  eapply step_apart; eauto.
  destruct hi; simpl; [now apply Z.leb_le | exact I].
Qed.

End WordsApartFacts.

Lemma tokensToWords_apart tokens :
  separated tokens ->
  Forall wordTimed (tokensToWords tokens)
  /\ StronglySorted before (tokensToWords tokens).
Proof.
  intros Hsep.
  destruct (WordsApartFacts.fold_apart tokens None Words.init
              WordsApartFacts.init_apart Hsep) as (hi & Hinv).
  apply WordsApartFacts.flush_apart in Hinv. fold (Words.run tokens) in Hinv.
  destruct Hinv as (Ht & Hsorted & _). unfold tokensToWords.
  destruct (Words.words (Words.run tokens)) as [|w0 rest]; [split; constructor|].
  destruct (startsWithSpace (w_text w0)); [|now split].
  apply StronglySorted_inv in Hsorted as [Hsorted Hw0].
  inversion Ht; subst. split; constructor; assumption.
Qed.

Lemma apart_starts : forall ws,
  Forall wordTimed ws -> StronglySorted before ws ->
  StronglySorted Z.le (startsOf ws).
Proof.
  induction ws as [|w ws IH]; intros Ht Hs; [constructor|].
  inversion Ht as [|? ? Hw Hrest]; subst.
  apply StronglySorted_inv in Hs as [Hs Hall]. simpl. constructor; [now apply IH|].
  unfold startsOf. apply Forall_map. eapply Forall_impl; [|exact Hall].
  intros b Hb. unfold before, wordTimed in *. lia.
Qed.


Lemma fold_max_In : forall rest v, In (fold_left Z.max rest v) (v :: rest).
Proof.
  induction rest as [|x rest IH]; intros v; [now left|]. cbn [fold_left].
  destruct (IH (Z.max v x)) as [H|H]; [|right; now right].
  rewrite <- H. destruct (Z.max_spec v x) as [[_ ->]|[_ ->]];
    [right; now left | now left].
Qed.

Lemma last_In {A} : forall (l : list A) d, l <> [] -> In (last l d) l.
Proof.
  induction l as [|x l IH]; intros d H; [contradiction|].
  destruct l as [|y l]; [now left|]. right. apply IH. discriminate.
Qed.

Module BuildEnds.
Import Build.

Lemma closeSegment_ends sb st :
  Forall endsAtWord (segments st) -> Forall endsAtWord (segments (closeSegment sb st)).
Proof.
  intros H. unfold closeSegment. destruct (current st) as [|w ws] eqn:Ecur; [exact H|].
  destruct (concatText (w :: ws)); [exact H|].
  cbn [reset segments]. apply Forall_app. split; [exact H|].
  constructor; [|constructor]. unfold endsAtWord, tokensOf.
  cbn [seg_tokens seg_end orElse map maxOf].
  pose proof (fold_max_In (map w_end_ms ws) (w_end_ms w)) as Hin.
  change (w_end_ms w :: map w_end_ms ws) with (map w_end_ms (w :: ws)) in Hin.
  apply in_map_iff in Hin as (x & Hx & Hin). exists x. split; [exact Hin | now symmetry].
Qed.

Lemma step_ends g b1 b2 st w :
  Forall endsAtWord (segments st) -> Forall endsAtWord (segments (step g b1 b2 st w)).
Proof.
  intros H.
  assert (H1 : Forall endsAtWord (segments (speakerRule b1 st w))).
  { unfold speakerRule.
    match goal with |- Forall _ (segments (if ?c then _ else _)) => destruct c end;
      auto using closeSegment_ends. }
  assert (H2 : Forall endsAtWord (segments (gapRule g (speakerRule b1 st w) w))).
  { unfold gapRule. destruct (current (speakerRule b1 st w)); [exact H1|].
    destruct (lastTokenEnd (speakerRule b1 st w)); [|exact H1].
    repeat match goal with |- Forall _ (segments (if ?c then _ else _)) => destruct c end;
      auto using closeSegment_ends. }
  unfold step. destruct (isSentenceEnd b2 (w_text w)); [apply closeSegment_ends|];
    exact H2.
Qed.

Lemma fold_ends g b1 b2 : forall ws st,
  Forall endsAtWord (segments st) ->
  Forall endsAtWord (segments (fold_left (step g b1 b2) ws st)).
Proof.
  induction ws as [|w ws IH]; intros st H; [exact H|].
  cbn [fold_left]. apply IH. now apply step_ends.
Qed.

End BuildEnds.

Lemma buildSegments_ends ws g b1 b2 : Forall endsAtWord (buildSegments ws g b1 b2).
Proof.
  unfold buildSegments. apply BuildEnds.closeSegment_ends, BuildEnds.fold_ends.
  constructor.
Qed.

Lemma child_ends current w0 ws sb p s :
  endsAtWord (child current (w0 :: ws) w0 (last (w0 :: ws) w0) sb p s).
Proof.
  unfold endsAtWord, child, tokensOf. cbn [seg_tokens seg_end orElse].
  exists (last (w0 :: ws) w0). split; [apply last_In; discriminate | reflexivity].
Qed.

Lemma Splits_ends config seg outs :
  Splits config seg outs -> endsAtWord seg -> Forall endsAtWord outs.
Proof.
  induction 1 as [seg Hleaf|seg l0 r0 ls rs _ Hl Hr _ IHl _ IHr]; intros HQ.
  - now repeat constructor.
  - apply Forall_app. split.
    + apply IHl. unfold leftChild.
      destruct (firstn _ (tokensOf seg)) as [|w ws]; [discriminate|].
      inversion Hl; subst. apply child_ends.
    + apply IHr. unfold rightChild.
      destruct (skipn _ (tokensOf seg)) as [|w ws]; [discriminate|].
      inversion Hr; subst. apply child_ends.
Qed.

Lemma splitPhase_ends config : forall segments outs,
  Forall2 (Splits config) segments outs -> Forall endsAtWord segments ->
  Forall endsAtWord (concat outs).
Proof.
  induction 1 as [|seg out segments outs Hs _ IH]; intros HQ; [constructor|].
  inversion HQ; subst. simpl. apply Forall_app. split; [|now apply IH].
  eapply Splits_ends; eauto.
Qed.

Lemma mergeTwo_ends a b : endsAtWord b -> endsAtWord (mergeTwo a b).
Proof.
  intros (w & Hw & He). exists w. unfold mergeTwo, tokensOf at 1.
  cbn [seg_tokens seg_end orElse]. split; [apply in_or_app; now right | exact He].
Qed.

Lemma apart_adjacent : forall l i a b,
  StronglySorted before (flatWords l) ->
  nth_error l i = Some a -> nth_error l (S i) = Some b ->
  forall wa wb, In wa (tokensOf a) -> In wb (tokensOf b) -> before wa wb.
Proof.
  induction l as [|x l IH]; intros i a b Hs Ha Hb wa wb Hwa Hwb;
    [destruct i; discriminate|].
  change (flatWords (x :: l)) with (tokensOf x ++ flatWords l) in Hs.
  apply sorted_cross in Hs as [Hrest Hcross].
  destruct i as [|i].
  - destruct l as [|y l]; [discriminate|]. simpl in Ha, Hb.
    inversion Ha; inversion Hb; subst. apply Hcross; [exact Hwa|].
    change (flatWords (b :: l)) with (tokensOf b ++ flatWords l).
    apply in_or_app. now left.
  - apply (IH i a b); assumption.
Qed.

(** X21: when the tokens do not overlap in time (each carries both
    timings, starts no later than it ends and no earlier than the one
    before it ends), the cues do not overlap either: every cue is over
    when the next one begins. *)
Theorem cues_do_not_overlap (tokens : list Token) (config : SubtitleConfig) :
  separated tokens ->
  exists out,
    tokensToSubtitleSegments tokens config = Ret out
    /\ forall i a b, nth_error out i = Some a -> nth_error out (S i) = Some b ->
                     seg_end a <= seg_start b.
Proof.
  intros Hsep. destruct (tokensToWords_apart tokens Hsep) as [Ht Hapart].
  pose proof (apart_starts _ Ht Hapart) as Hsorted.
  pose proof (buildSegments_timeline _ (gap_ms config) (split_on_speaker config)
                (segment_on_sentence config) Ht Hsorted) as Htl.
  pose proof (buildSegments_ends (tokensToWords tokens) (gap_ms config)
                (split_on_speaker config) (segment_on_sentence config)) as Hends.
  pose proof (buildSegments_Subseq (tokensToWords tokens) (gap_ms config)
                (split_on_speaker config) (segment_on_sentence config)) as Hsub.
  unfold tokensToSubtitleSegments.
  set (segments := buildSegments _ _ _ _) in *.
  destruct segments as [|s0 rest] eqn:Esegs.
  - exists []. split; [reflexivity|]. intros i a b Ha. destruct i; discriminate.
  - destruct (enforceReadability_spec config
                (fun l => timeline l /\ Forall endsAtWord l
                          /\ flatWords l = flatWords (s0 :: rest))
                (s0 :: rest)) as (out & Hrun & (Hout & Hoe & Hflat) & _).
    + intros l (Hl & He & Hf). split; [now apply mergePass_timeline|]. split.
      * apply (mergePass_Forall config endsAtWord) with (n := length l); auto.
        intros a b _ _ Hb. now apply mergeTwo_ends.
      * now rewrite (mergePass_flat config (length l)) by lia.
    + intros outs Hall.
      destruct (splitPhase_timeline config _ _ Hall Htl) as [Hok Hflat].
      split; [|split].
      * split; [exact Hok|]. unfold ordered. rewrite Hflat. apply Htl.
      * eapply splitPhase_ends; eauto.
      * exact Hflat.
    + exists out. split; [exact Hrun|]. intros i a b Ha Hb.
      assert (Hwords : StronglySorted before (flatWords out)).
      { rewrite Hflat. eapply Subseq_sorted; eauto. }
      destruct Hout as [Hok _]. rewrite Forall_forall in Hok, Hoe.
      destruct (Hoe a (nth_error_In _ _ Ha)) as (wa & Hwa & ->).
      destruct (segOK_head b (Hok b (nth_error_In _ _ Hb))) as (wb & wsb & Eb & ->).
      apply (apart_adjacent out i a b Hwords Ha Hb); [exact Hwa|].
      rewrite Eb. now left.
Qed.

Lemma cues_do_not_overlap_witness :
  let tokens := [mkToken "Hello" 0 500; mkToken " world" 500 1000;
                 mkToken "." 1000 1000; mkToken " Bye." 4000 4500] in
  separated tokens
  /\ exists out,
       tokensToSubtitleSegments tokens defaultConfig = Ret out
       /\ forall i a b, nth_error out i = Some a -> nth_error out (S i) = Some b ->
                        seg_end a <= seg_start b.
Proof.
  intros tokens.
  assert (H : separated tokens) by reflexivity.
  split; [exact H|].
  exact (cues_do_not_overlap tokens defaultConfig H).
Defined.


(** ** Sentences end their cue *)

Lemma Forall_nth_error {A} (P : A -> Prop) (l : list A) :
  (forall i x, nth_error l i = Some x -> P x) -> Forall P l.
Proof.
  intros H. apply Forall_forall. intros x Hx.
  apply In_nth_error in Hx as [i Hi]. eauto.
Qed.

Lemma nth_error_Forall {A} (P : A -> Prop) (l : list A) i x :
  Forall P l -> nth_error l i = Some x -> P x.
Proof. intros H Hi. rewrite Forall_forall in H. eapply H, nth_error_In, Hi. Qed.

Module BuildSentencesFacts.
Import Build BuildSentences.

Lemma close_open b st :
  inv b st -> inv b (closeSegment false st).
Proof.
  intros [Hsegs Hcur].
  destruct (BuildShape.closeSegment_cases false st)
    as [Hempty [[Hsame _]|(seg & Hpush & _ & Htok & Hsb)]];
    unfold inv; rewrite Hempty.
  - rewrite Hsame. split; [exact Hsegs | constructor].
  - rewrite Hpush. split; [|constructor].
    apply Forall_app. split; [exact Hsegs|]. constructor; [|constructor].
    unfold sentenceAtEnd. rewrite Htok. split; [|intros _; exact Hcur].
    intros i w Hi _. exact (nth_error_Forall _ _ _ _ Hcur Hi).
Qed.

Lemma close_sentence b st pre w :
  Forall (sentenceAtEnd b) (segments st) ->
  current st = pre ++ [w] -> Forall (fun x => endsSentence b x = false) pre ->
  inv b (closeSegment true st).
Proof.
  intros Hsegs Hcur Hpre.
  destruct (BuildShape.closeSegment_cases true st)
    as [Hempty [[Hsame _]|(seg & Hpush & _ & Htok & Hsb)]];
    unfold inv; rewrite Hempty.
  - rewrite Hsame. split; [exact Hsegs | constructor].
  - rewrite Hpush. split; [|constructor].
    apply Forall_app. split; [exact Hsegs|]. constructor; [|constructor].
    unfold sentenceAtEnd. rewrite Htok, Hsb, Hcur. split; [|discriminate].
    intros i x Hi Hlt. rewrite length_app in Hlt. simpl in Hlt.
    rewrite nth_error_app1 in Hi by lia. exact (nth_error_Forall _ _ _ _ Hpre Hi).
Qed.

Lemma speakerRule_sentences b b1 st w : inv b st -> inv b (speakerRule b1 st w).
Proof.
  intros H. unfold speakerRule.
  match goal with |- inv _ (if ?c then _ else _) => destruct c end;
    auto using close_open.
Qed.

Lemma gapRule_sentences b g st w : inv b st -> inv b (gapRule g st w).
Proof.
  intros H. unfold gapRule. destruct (current st); [exact H|].
  destruct (lastTokenEnd st); [|exact H].
  repeat match goal with |- inv _ (if ?c then _ else _) => destruct c end;
    auto using close_open.
Qed.

Lemma step_sentences g b1 b st w : inv b st -> inv b (step g b1 b st w).
Proof.
  intros H.
  pose proof (gapRule_sentences b g _ w (speakerRule_sentences b b1 st w H))
    as [Hsegs Hcur].
  unfold step. set (st2 := gapRule g (speakerRule b1 st w) w) in *.
  destruct (isSentenceEnd b (w_text w)) eqn:E.
  - apply (close_sentence b (append st2 w) (current st2) w); auto.
  - split; [exact Hsegs|]. cbn [append current].
    apply Forall_app. split; [exact Hcur | now repeat constructor].
Qed.

Lemma fold_sentences g b1 b : forall ws st,
  inv b st -> inv b (fold_left (step g b1 b) ws st).
Proof.
  induction ws as [|w ws IH]; intros st H; [exact H|].
  cbn [fold_left]. apply IH. now apply step_sentences.
Qed.

End BuildSentencesFacts.

Lemma buildSegments_sentences ws g b1 b :
  Forall (sentenceAtEnd b) (buildSegments ws g b1 b).
Proof.
  unfold buildSegments.
  apply BuildSentencesFacts.close_open, BuildSentencesFacts.fold_sentences.
  split; constructor.
Qed.

Lemma leftChild_sentences b config seg idx w :
  (idx < length (tokensOf seg))%nat ->
  sentenceAtEnd b seg -> sentenceAtEnd b (leftChild config seg idx w).
Proof.
  intros Hidx [Hinner _].
  assert (Hall : Forall (fun x => endsSentence b x = false)
                        (firstn idx (tokensOf seg))).
  { apply Forall_nth_error. intros i x Hi.
    assert (Hlt : (i < idx)%nat).
    { assert (Hb : (i < length (firstn idx (tokensOf seg)))%nat)
        by (apply nth_error_Some; rewrite Hi; discriminate).
      rewrite length_firstn in Hb. lia. }
    rewrite nth_error_firstn in Hi.
    replace (i <? idx)%nat with true in Hi by (symmetry; apply Nat.ltb_lt; lia).
    apply (Hinner i x Hi). lia. }
  assert (Ht : tokensOf (leftChild config seg idx w) = firstn idx (tokensOf seg))
    by reflexivity.
  unfold sentenceAtEnd. rewrite Ht. split; [|intros _; exact Hall].
  intros i x Hi _. exact (nth_error_Forall _ _ _ _ Hall Hi).
Qed.

Lemma rightChild_sentences b config seg idx w :
  sentenceAtEnd b seg -> sentenceAtEnd b (rightChild config seg idx w).
Proof.
  intros [Hinner Hopen].
  assert (Ht : tokensOf (rightChild config seg idx w) = skipn idx (tokensOf seg))
    by reflexivity.
  assert (Hs : sentence_break (rightChild config seg idx w) = sentence_break seg)
    by reflexivity.
  unfold sentenceAtEnd. rewrite Ht, Hs. split.
  - intros i x Hi Hlt. rewrite length_skipn in Hlt. rewrite nth_error_skipn in Hi.
    apply (Hinner _ x Hi). lia.
  - intros Hsb. specialize (Hopen Hsb).
    rewrite <- (firstn_skipn idx (tokensOf seg)) in Hopen.
    now apply Forall_app in Hopen as [_ H].
Qed.

Lemma Splits_sentences b config seg outs :
  Splits config seg outs -> sentenceAtEnd b seg -> Forall (sentenceAtEnd b) outs.
Proof.
  induction 1 as [seg Hleaf|seg l0 r0 ls rs _ Hl Hr _ IHl _ IHr]; intros HQ.
  - constructor; [exact HQ | constructor].
  - apply Forall_app. split.
    + apply IHl, leftChild_sentences; [|exact HQ].
      destruct (Nat.lt_ge_cases (findSplitIndex (tokensOf seg)) (length (tokensOf seg)))
        as [Hlt|Hge]; [exact Hlt|].
      rewrite skipn_all2 in Hr by exact Hge. discriminate.
    + apply IHr, rightChild_sentences, HQ.
Qed.

Lemma splitPhase_sentences b config : forall segments outs,
  Forall2 (Splits config) segments outs -> Forall (sentenceAtEnd b) segments ->
  Forall (sentenceAtEnd b) (concat outs).
Proof.
  induction 1 as [|seg out segments outs Hs _ IH]; intros HQ; [constructor|].
  inversion HQ; subst. simpl. apply Forall_app. split; [|now apply IH].
  eapply Splits_sentences; eauto.
Qed.

Lemma mergeTwo_sentences b a c :
  sentence_break a = false ->
  sentenceAtEnd b a -> sentenceAtEnd b c -> sentenceAtEnd b (mergeTwo a c).
Proof.
  intros Hsb [_ Ha] [Hinner Hopen]. specialize (Ha Hsb).
  assert (Ht : tokensOf (mergeTwo a c) = tokensOf a ++ tokensOf c) by reflexivity.
  assert (Hs : sentence_break (mergeTwo a c) = sentence_break c) by reflexivity.
  unfold sentenceAtEnd. rewrite Ht, Hs. split.
  - intros i x Hi Hlt. rewrite length_app in Hlt.
    destruct (Nat.lt_ge_cases i (length (tokensOf a))) as [Hin|Hout].
    + rewrite nth_error_app1 in Hi by exact Hin. exact (nth_error_Forall _ _ _ _ Ha Hi).
    + rewrite nth_error_app2 in Hi by exact Hout. apply (Hinner _ x Hi). lia.
  - intros Hc. apply Forall_app. split; [exact Ha | now apply Hopen].
Qed.

(** X22: with [segment_on_sentence] on, no cue runs past the end of a
    sentence: in every cue the conversion returns, a word that closes a
    sentence is the last word of the cue, and the cue is then marked as a
    sentence break. *)
Theorem sentences_end_their_cue (tokens : list Token) (config : SubtitleConfig) :
  segment_on_sentence config = true ->
  exists out,
    tokensToSubtitleSegments tokens config = Ret out
    /\ Forall (sentenceAtEnd true) out.
Proof.
  intros Hon. unfold tokensToSubtitleSegments. rewrite Hon.
  pose proof (buildSegments_sentences (tokensToWords tokens) (gap_ms config)
                (split_on_speaker config) true) as Hbuilt.
  destruct (buildSegments _ _ _ _) as [|s0 rest] eqn:Esegs.
  - exists []. split; [reflexivity | constructor].
  - destruct (enforceReadability_spec config (Forall (sentenceAtEnd true)) (s0 :: rest))
      as (out & Hrun & Hout & _).
    + intros l Hl.
      apply (mergePass_Forall config (sentenceAtEnd true)) with (n := length l); auto.
      intros a b Hm Ha Hb. apply mergeTwo_sentences; auto.
      unfold mergeable in Hm. rewrite Hon in Hm.
      destruct (sentence_break a); [|reflexivity].
      cbn [andb negb] in Hm. now rewrite andb_false_r in Hm.
    + intros outs Hall. eapply splitPhase_sentences; eauto.
    + exists out. now split.
Qed.

Lemma sentences_end_their_cue_witness :
  let tokens := [mkToken "Wait." 0 400; mkToken " Go" 400 800;
                 mkToken " on." 800 1200] in
  segment_on_sentence sentenceConfig = true
  /\ exists out,
       tokensToSubtitleSegments tokens sentenceConfig = Ret out
       /\ Forall (sentenceAtEnd true) out.
Proof.
  intros tokens.
  assert (H : segment_on_sentence sentenceConfig = true) by reflexivity.
  split; [exact H|].
  exact (sentences_end_their_cue tokens sentenceConfig H).
Defined.


(** ** Finding the tokens of a transcript *)

Lemma collectTokens_array items skip :
  collectTokens (JArr items) skip
  = if nonEmpty items && forallb looksLikeToken items then items
    else flat_map (fun item => collectTokens item false) items.
Proof.
  cbn [collectTokens]. destruct (nonEmpty items && forallb looksLikeToken items);
    [reflexivity|].
  induction items as [|item rest IH]; [reflexivity|]. cbn [flat_map]. now rewrite IH.
Qed.

Lemma collectTokens_object fields skip :
  collectTokens (JObj fields) skip
  = (if skip then []
     else match tokensArray fields with Some items => items | None => [] end)
    ++ flat_map (fun key => match lookup key fields with
                            | Some v => collectTokens v false
                            | None => []
                            end) NESTED_TOKEN_KEYS.
Proof.
  cbn [collectTokens]. f_equal. apply flat_map_ext. intros key.
  induction fields as [|[k v] rest IH]; [reflexivity|].
  cbn [lookup]. destruct (str_eqb k key); [reflexivity | exact IH].
Qed.

Lemma flat_map_nothing {A B} (f : A -> list B) : forall l,
  Forall (fun x => f x = []) l -> flat_map f l = [].
Proof.
  induction 1 as [|x l Hx _ IH]; [reflexivity|]. cbn [flat_map]. now rewrite Hx, IH.
Qed.

Lemma holdsTokens_collect part tokens :
  holdsTokens part tokens -> collectTokens part false = tokens /\ tokens <> [].
Proof.
  intros (fields & -> & Htok & Hnone). rewrite collectTokens_object, Htok.
  rewrite flat_map_nothing; [rewrite app_nil_r|].
  - split; [reflexivity|]. unfold tokensArray in Htok.
    destruct (lookup (lit "tokens") fields) as [[| | | |[|item items]|]|];
      try discriminate. inversion Htok. discriminate.
  - eapply Forall_impl; [|exact Hnone]. intros key Hkey. now rewrite Hkey.
Qed.

Lemma parts_collect : forall parts tss,
  Forall2 holdsTokens parts tss ->
  flat_map (fun item => collectTokens item false) parts = concat tss.
Proof.
  induction 1 as [|part ts parts tss Hp _ IH]; [reflexivity|].
  cbn [flat_map concat]. destruct (holdsTokens_collect _ _ Hp) as [-> _].
  now rewrite IH.
Qed.

Lemma flat_map_single {A B} (eqb : A -> A -> bool) (f : A -> list B) key :
  (forall a, eqb a key = true <-> a = key) ->
  forall l, NoDup l -> In key l ->
  flat_map (fun k => if eqb k key then f k else []) l = f key.
Proof.
  intros Heq. induction l as [|k l IH]; intros Hnd Hin; [contradiction|].
  inversion Hnd as [|? ? Hk Hrest]; subst. cbn [flat_map].
  destruct Hin as [->|Hin].
  - rewrite (proj2 (Heq key) eq_refl). rewrite flat_map_nothing; [apply app_nil_r|].
    apply Forall_forall. intros a Ha. destruct (eqb a key) eqn:E; [|reflexivity].
    apply Heq in E. subst. contradiction.
  - destruct (eqb k key) eqn:E.
    + apply Heq in E. subst. contradiction.
    + now apply IH.
Qed.


Lemma str_eqb_iff a b : str_eqb a b = true <-> a = b.
Proof. split; [apply str_eqb_eq | intros ->; apply str_eqb_refl]. Qed.

Lemma NESTED_TOKEN_KEYS_NoDup : NoDup NESTED_TOKEN_KEYS.
Proof.
  unfold NESTED_TOKEN_KEYS. cbn [map].
  repeat (constructor; [intros H; cbn [In] in H;
                        repeat (destruct H as [H|H]; [discriminate H|]); exact H|]).
  constructor.
Qed.

Lemma extractTokens_nested key parts tss fields :
  In key NESTED_TOKEN_KEYS ->
  partsUnder key parts fields ->
  Forall2 holdsTokens parts tss ->
  extractTokens (JObj fields)
  = match parts with
    | [] => Throw (Error NO_TOKENS)
    | _ :: _ => Ret (if forallb looksLikeToken parts then parts else concat tss)
    end.
Proof.
  intros Hkey [Hown Hfields] Hparts. unfold extractTokens. rewrite Hown.
  rewrite collectTokens_object. cbn [app].
  assert (Hflat : flat_map (fun k => match lookup k fields with
                                     | Some v => collectTokens v false
                                     | None => []
                                     end) NESTED_TOKEN_KEYS
                  = collectTokens (JArr parts) false).
  { rewrite <- (flat_map_single str_eqb
                  (fun _ => collectTokens (JArr parts) false) key
                  (fun a => str_eqb_iff a key) NESTED_TOKEN_KEYS
                  NESTED_TOKEN_KEYS_NoDup Hkey).
    rewrite Forall_forall in Hfields.
    clear Hkey. induction NESTED_TOKEN_KEYS as [|k ks IH]; [reflexivity|].
    cbn [flat_map]. rewrite IH by (intros x Hx; apply Hfields; now right).
    f_equal. rewrite (Hfields k) by now left.
    now destruct (str_eqb k key). }
  rewrite Hflat, collectTokens_array, (parts_collect parts tss Hparts).
  destruct Hparts as [|part ts parts tss Hp Hrest]; [reflexivity|].
  cbn [nonEmpty andb].
  destruct (forallb looksLikeToken (part :: parts)); [reflexivity|].
  destruct (holdsTokens_collect _ _ Hp) as [_ Hne].
  cbn [concat]. destruct ts as [|t ts]; [contradiction | reflexivity].
Qed.

(** X23: what [extractTokens] returns is never empty; a non-empty
    top-level [tokens] array is returned as it is; and for a transcript
    with no tokens of its own whose parts sit in an array under one of the
    nested keys, each part holding its own tokens: there is an error when
    there is no part, the parts themselves are returned when every one of
    them also has a [text] property, and otherwise the parts' tokens, one
    after the other. *)
Theorem extractTokens_finds_tokens :
  (forall transcript items, extractTokens transcript = Ret items -> items <> [])
  /\ (forall fields items,
        tokensArray fields = Some items -> extractTokens (JObj fields) = Ret items)
  /\ (forall key parts tss fields,
        In key NESTED_TOKEN_KEYS ->
        partsUnder key parts fields ->
        Forall2 holdsTokens parts tss ->
        extractTokens (JObj fields)
        = match parts with
          | [] => Throw (Error NO_TOKENS)
          | _ :: _ =>
              Ret (if forallb looksLikeToken parts then parts else concat tss)
          end).
Proof.
  split; [|split].
  - intros transcript items H. unfold extractTokens in H.
    assert (Hown : forall fields its, tokensArray fields = Some its -> its <> []).
    { intros fields its Hf. unfold tokensArray in Hf.
      destruct (lookup (lit "tokens") fields) as [[| | | |[|item its']|]|];
        try discriminate. inversion Hf. discriminate. }
    destruct transcript as [|b|n|s|arr|fields]; try discriminate;
      try (destruct (collectTokens _ true) as [|item rest] eqn:E;
           [discriminate | inversion H; discriminate]).
    destruct (tokensArray fields) as [its|] eqn:Ef.
    + inversion H; subst. eapply Hown; eauto.
    + destruct (collectTokens _ true) as [|item rest] eqn:E;
        [discriminate | inversion H; discriminate].
  - intros fields items H. unfold extractTokens. now rewrite H.
  - apply extractTokens_nested.
Qed.

Lemma extractTokens_finds_tokens_witness :
  let t1 := JObj [(lit "text", JStr (lit "Hello"))] in
  let t2 := JObj [(lit "text", JStr (lit " world"))] in
  let plain := [JObj [(lit "tokens", JArr [t1])]; JObj [(lit "tokens", JArr [t2])]] in
  let texted := [JObj [(lit "text", JStr (lit "Hello world")); (lit "tokens", JArr [t1])];
                 JObj [(lit "text", JStr (lit "again")); (lit "tokens", JArr [t2])]] in
  ((In (lit "results") NESTED_TOKEN_KEYS
    /\ partsUnder (lit "results") plain [(lit "results", JArr plain)]
    /\ Forall2 holdsTokens plain [[t1]; [t2]])
   /\ extractTokens (JObj [(lit "results", JArr plain)]) = Ret [t1; t2])
  /\ ((In (lit "segments") NESTED_TOKEN_KEYS
       /\ partsUnder (lit "segments") texted [(lit "segments", JArr texted)]
       /\ Forall2 holdsTokens texted [[t1]; [t2]])
      /\ extractTokens (JObj [(lit "segments", JArr texted)]) = Ret texted).
Proof.
  intros t1 t2 plain texted.
  assert (H1 : In (lit "results") NESTED_TOKEN_KEYS)
    by (unfold NESTED_TOKEN_KEYS; simpl; tauto).
  assert (H2 : partsUnder (lit "results") plain [(lit "results", JArr plain)])
    by (split; [reflexivity | repeat constructor]).
  assert (H3 : Forall2 holdsTokens plain [[t1]; [t2]]).
  { repeat constructor; eexists; (split; [reflexivity|]);
      (split; [reflexivity | repeat constructor]). }
  assert (K1 : In (lit "segments") NESTED_TOKEN_KEYS)
    by (unfold NESTED_TOKEN_KEYS; simpl; tauto).
  assert (K2 : partsUnder (lit "segments") texted [(lit "segments", JArr texted)])
    by (split; [reflexivity | repeat constructor]).
  assert (K3 : Forall2 holdsTokens texted [[t1]; [t2]]).
  { repeat constructor; eexists; (split; [reflexivity|]);
      (split; [reflexivity | repeat constructor]). }
  split.
  - split; [split; [exact H1 | split; [exact H2 | exact H3]]|].
    exact (proj2 (proj2 extractTokens_finds_tokens)
             (lit "results") plain [[t1]; [t2]] [(lit "results", JArr plain)]
             H1 H2 H3).
  - split; [split; [exact K1 | split; [exact K2 | exact K3]]|].
    exact (proj2 (proj2 extractTokens_finds_tokens)
             (lit "segments") texted [[t1]; [t2]] [(lit "segments", JArr texted)]
             K1 K2 K3).
Defined.


(** ** The packing search is sound and complete *)

Lemma spaced_snoc pre chunk :
  pre <> [] -> spaced (pre ++ [chunk]) = spaced pre ++ [SPACE] ++ chunk.
Proof.
  destruct pre as [|c pre]; [contradiction|]. intros _. unfold spaced.
  cbn [app]. now rewrite fold_left_app.
Qed.

Lemma spaced_nonempty group :
  group <> [] -> Forall (fun c => c <> []) group -> spaced group <> [].
Proof.
  destruct group as [|c rest]; [contradiction|]. intros _ Hall.
  inversion Hall as [|? ? Hc _]; subst. unfold spaced.
  assert (Hgrow : forall l (acc : jsstring), acc <> [] ->
            fold_left (fun line x => line ++ [SPACE] ++ x) l acc <> []).
  { induction l as [|x l IH]; intros acc Hacc; [exact Hacc|].
    cbn [fold_left]. apply IH. destruct acc; [contradiction | discriminate]. }
  now apply Hgrow.
Qed.

Lemma fold_spaced_grows : forall (post : list jsstring) (acc : jsstring),
  (length acc
   <= length (fold_left (fun line c => line ++ [SPACE] ++ c) post acc))%nat.
Proof.
  induction post as [|x post IH]; intros acc; [simpl; lia|].
  cbn [fold_left]. etransitivity; [|apply IH]. rewrite !length_app. lia.
Qed.

Lemma spaced_grows pre post :
  pre <> [] -> (length (spaced pre) <= length (spaced (pre ++ post)))%nat.
Proof.
  destruct pre as [|c pre]; [contradiction|]. intros _. unfold spaced.
  change ((c :: pre) ++ post) with (c :: (pre ++ post)). cbv iota.
  rewrite fold_left_app. apply fold_spaced_grows.
Qed.

(** The line [extendLine] has built from the chunks [pre]. *)
Lemma line_of_prefix pre chunk :
  Forall (fun c => c <> []) pre ->
  match spaced pre with
  | [] => chunk
  | _ :: _ => spaced pre ++ [SPACE] ++ chunk
  end = spaced (pre ++ [chunk]).
Proof.
  intros Hall. destruct pre as [|c pre]; [reflexivity|].
  rewrite spaced_snoc by discriminate.
  pose proof (spaced_nonempty (c :: pre) ltac:(discriminate) Hall) as Hne.
  destruct (spaced (c :: pre)); [contradiction | reflexivity].
Qed.

Lemma extendLine_complete maxCpl helper group rest :
  Forall (fun c => c <> []) group ->
  lenZ (spaced group) <= maxCpl ->
  helper rest <> None ->
  forall post pre, group = pre ++ post -> post <> [] ->
    extendLine maxCpl helper (spaced pre) (post ++ rest) <> None.
Proof.
  intros Hall Hfit Hrest. induction post as [|chunk post IH]; intros pre Hg Hpost;
    [contradiction|].
  assert (Hpre : Forall (fun c => c <> []) pre)
    by (rewrite Hg in Hall; now apply Forall_app in Hall as [H _]).
  change ((chunk :: post) ++ rest) with (chunk :: (post ++ rest)).
  cbn [extendLine].
  match goal with |- context [Z.of_nat (length ?l)] => set (line' := l) end.
  assert (Eline : line' = spaced (pre ++ [chunk])) by exact (line_of_prefix pre chunk Hpre).
  clearbody line'. subst line'.
  assert (Hlen : lenZ (spaced (pre ++ [chunk])) <= maxCpl).
  { pose proof (spaced_grows (pre ++ [chunk]) post) as Hgrow.
    rewrite <- app_assoc in Hgrow. cbn [app] in Hgrow. rewrite <- Hg in Hgrow.
    unfold lenZ in *.
    assert (Hne : pre ++ [chunk] <> [])
      by (intros H; apply app_eq_nil in H as [_ H]; discriminate).
    specialize (Hgrow Hne). lia. }
  replace (maxCpl <? Z.of_nat (length (spaced (pre ++ [chunk])))) with false
    by (symmetry; apply Z.ltb_ge; exact Hlen).
  destruct (helper (post ++ rest)) as [packed|] eqn:Enext; [discriminate|].
  destruct post as [|next post'].
  - cbn [app] in Enext. now rewrite Enext in Hrest.
  - apply (IH (pre ++ [chunk])); [|discriminate].
    rewrite <- app_assoc. exact Hg.
Qed.

Lemma partitionHelper_complete maxCpl : forall n chunks groups,
  Forall (fun c => c <> []) chunks ->
  Packs maxCpl n chunks groups ->
  partitionHelper maxCpl n chunks <> None.
Proof.
  induction n as [|n IH]; intros chunks groups Hall (Hcat & Hlen & Hgroups).
  - destruct groups; [|simpl in Hlen; lia]. simpl in Hcat. subst. discriminate.
  - destruct groups as [|g gs]; [simpl in Hcat; subst; discriminate|].
    inversion Hgroups as [|? ? [Hg Hfit] Hrest]; subst.
    cbn [concat] in Hall. apply Forall_app in Hall as [Hgall Hrestall].
    destruct g as [|c g']; [contradiction|].
    cbn [concat app partitionHelper].
    change (c :: g' ++ concat gs) with ((c :: g') ++ concat gs).
    apply (extendLine_complete maxCpl _ (c :: g') (concat gs) Hgall Hfit)
      with (pre := []); [|reflexivity | discriminate].
    apply (IH _ gs Hrestall). split; [reflexivity|].
    split; [simpl in Hlen; lia | exact Hrest].
Qed.

Lemma extendLine_packs maxCpl helper n :
  (forall chunks lines,
     Forall (fun c => c <> []) chunks -> helper chunks = Some lines ->
     exists groups, Packs maxCpl n chunks groups /\ lines = map spaced groups) ->
  forall chunks pre lines,
    Forall (fun c => c <> []) pre -> Forall (fun c => c <> []) chunks ->
    extendLine maxCpl helper (spaced pre) chunks = Some lines ->
    exists g groups,
      g <> [] /\ chunks = g ++ concat groups
      /\ (length groups <= n)%nat
      /\ Forall (fun g => g <> [] /\ lenZ (spaced g) <= maxCpl)
                ((pre ++ g) :: groups)
      /\ lines = map spaced ((pre ++ g) :: groups).
Proof.
  intros Hhelper. induction chunks as [|chunk rest IH]; intros pre lines Hpre Hall H;
    [discriminate|].
  inversion Hall as [|? ? Hchunk Hrestall]; subst.
  cbn [extendLine] in H.
  match type of H with context [Z.of_nat (length ?l)] => set (line' := l) in H end.
  assert (Eline : line' = spaced (pre ++ [chunk])) by exact (line_of_prefix pre chunk Hpre).
  clearbody line'. subst line'.
  destruct (maxCpl <? Z.of_nat (length (spaced (pre ++ [chunk])))) eqn:Efit;
    [discriminate|].
  apply Z.ltb_ge in Efit.
  destruct (helper rest) as [packed|] eqn:Erest.
  - inversion H; subst.
    destruct (Hhelper _ _ Hrestall Erest) as (groups & (Hcat & Hlen & Hgroups) & ->).
    exists [chunk], groups. split; [discriminate|].
    split; [cbn [app]; f_equal; symmetry; exact Hcat|].
    split; [exact Hlen|]. split; [|reflexivity].
    constructor; [|exact Hgroups]. split; [|exact Efit].
    intros E. apply app_eq_nil in E as [_ E]. discriminate.
  - apply IH in H as (g & groups & Hg & Hchunks & Hlen & Hgroups & Hlines);
      [|apply Forall_app; split; [exact Hpre | now repeat constructor] | exact Hrestall].
    exists (chunk :: g), groups. rewrite <- !app_assoc in *. cbn [app] in *.
    split; [discriminate|]. split; [f_equal; exact Hchunks|].
    split; [exact Hlen|]. split; [exact Hgroups | exact Hlines].
Qed.


Lemma partitionHelper_packs maxCpl : forall n chunks lines,
  Forall (fun c => c <> []) chunks ->
  partitionHelper maxCpl n chunks = Some lines ->
  exists groups, Packs maxCpl n chunks groups /\ lines = map spaced groups.
Proof.
  assert (Hnone : forall n lines, Some [] = Some lines ->
            exists groups, Packs maxCpl n [] groups /\ lines = map spaced groups).
  { intros n lines H. inversion H. exists []. split; [|reflexivity].
    split; [reflexivity|]. split; [simpl; lia | constructor]. }
  induction n as [|n IH]; intros chunks lines Hall H.
  - destruct chunks; [now apply Hnone | discriminate].
  - destruct chunks as [|c cs]; [now apply Hnone|].
    cbn [partitionHelper] in H.
    apply (extendLine_packs maxCpl _ n IH (c :: cs) [] lines) in H;
      [|constructor | exact Hall].
    destruct H as (g & groups & Hg & Hchunks & Hlen & Hgroups & Hlines).
    cbn [app] in *. exists (g :: groups). split; [|exact Hlines].
    split; [cbn [concat]; symmetry; exact Hchunks|].
    split; [cbn [length]; apply le_n_S; exact Hlen | exact Hgroups].
Qed.

Lemma splitLoopChars_nonempty delimSet : forall chars current pieces,
  Forall (fun c => c <> []) pieces ->
  Forall (fun c => c <> []) (splitLoopChars delimSet chars current pieces).
Proof.
  induction chars as [|char rest IH]; intros current pieces Hall.
  - cbn [splitLoopChars]. destruct (trim current) as [|c t]; [exact Hall|].
    apply Forall_app. split; [exact Hall | repeat constructor; discriminate].
  - cbn [splitLoopChars]. destruct (inSet delimSet char); [|now apply IH].
    destruct (trim (current ++ char)) as [|c t]; [now apply IH|].
    apply IH, Forall_app. split; [exact Hall | repeat constructor; discriminate].
Qed.

Lemma splitTextByDelimiters_nonempty text delimiters :
  Forall (fun c => c <> []) (splitTextByDelimiters text delimiters).
Proof.
  unfold splitTextByDelimiters. destruct text as [|c0 text0]; [constructor|].
  match goal with
  | |- context [splitLoopChars ?f _ _ _] => destruct f as [|d ds]
  end.
  - destruct (trim _) as [|c t]; [constructor | repeat constructor; discriminate].
  - apply splitLoopChars_nonempty. constructor.
Qed.

(** X24: the packing search of [partitionChunks] is sound and complete.
    For non-empty chunks (those of [splitTextByDelimiters] always are) and
    [maxLines > 0], what it returns is the chunks cut into at most
    [maxLines] consecutive runs, each joined by single spaces and within
    [maxCpl]; and it gives up only when no such cut exists. *)
Theorem partition_search_is_complete
    (chunks : list jsstring) (maxLines maxCpl : Z) :
  Forall (fun c => c <> []) chunks -> 0 < maxLines ->
  (forall lines, partitionChunks chunks maxLines maxCpl = Some lines ->
     exists groups,
       Packs maxCpl (Z.to_nat maxLines) chunks groups /\ lines = map spaced groups)
  /\ (partitionChunks chunks maxLines maxCpl = None ->
      forall groups, ~ Packs maxCpl (Z.to_nat maxLines) chunks groups)
  /\ (forall text delimiters,
        Forall (fun c => c <> []) (splitTextByDelimiters text delimiters)).
Proof.
  intros Hall Hlines. unfold partitionChunks.
  replace (maxLines <=? 0) with false by (symmetry; apply Z.leb_gt; lia).
  split; [|split].
  - intros lines H. destruct chunks as [|c cs].
    + inversion H. exists []. split; [|reflexivity].
      split; [reflexivity|]. split; [simpl; lia | constructor].
    + now apply partitionHelper_packs.
  - intros H groups Hpacks. destruct chunks as [|c cs]; [discriminate|].
    now apply (partitionHelper_complete maxCpl _ _ groups Hall) in H.
  - apply splitTextByDelimiters_nonempty.
Qed.

Lemma partition_search_is_complete_witness :
  let chunks := [lit "one,"; lit "two,"; lit "three"] in
  (Forall (fun c => c <> []) chunks /\ 0 < 3
   /\ partitionChunks chunks 3 8 = Some [lit "one,"; lit "two,"; lit "three"]
   /\ partitionChunks chunks 2 8 = None)
  /\ (exists groups, Packs 8 (Z.to_nat 3) chunks groups
                     /\ [lit "one,"; lit "two,"; lit "three"] = map spaced groups)
  /\ forall groups, ~ Packs 8 (Z.to_nat 2) chunks groups.
Proof.
  intros chunks.
  assert (H1 : Forall (fun c => c <> []) chunks) by (repeat constructor; discriminate).
  assert (H2 : 0 < 3) by lia.
  assert (H3 : partitionChunks chunks 3 8 = Some [lit "one,"; lit "two,"; lit "three"])
    by (vm_compute; reflexivity).
  assert (H4 : partitionChunks chunks 2 8 = None) by (vm_compute; reflexivity).
  split; [split; [exact H1 | split; [exact H2 | split; [exact H3 | exact H4]]]|].
  split.
  - exact (proj1 (partition_search_is_complete chunks 3 8 H1 H2) _ H3).
  - assert (H5 : 0 < 2) by lia.
    exact (proj1 (proj2 (partition_search_is_complete chunks 2 8 H1 H5)) H4).
Defined.


(** ** Punctuation ends a word *)

Module WordsClosedFacts.
Import Words WordsClosed.

Lemma open_closedAtEnd members :
  Forall (fun t => closes t = false) members -> closedAtEnd members.
Proof. intros H i t Hi _. exact (nth_error_Forall _ _ _ _ H Hi). Qed.

Lemma snoc_closedAtEnd members t :
  Forall (fun t => closes t = false) members -> closedAtEnd (members ++ [t]).
Proof.
  intros H i x Hi Hlt. rewrite length_app in Hlt. simpl in Hlt.
  rewrite nth_error_app1 in Hi by lia. exact (nth_error_Forall _ _ _ _ H Hi).
Qed.

Lemma flush_members st :
  Forall (fun w => closedAtEnd (w_inner w)) (words st) ->
  closedAtEnd (currentTokens st) ->
  inv (flush st).
Proof.
  intros Hwords Hcur. unfold flush, inv.
  destruct (currentTokens st) as [|first rest] eqn:E.
  - rewrite E. split; [exact Hwords | constructor].
  - cbn [words currentTokens]. split; [|constructor].
    apply Forall_app. split; [exact Hwords|]. constructor; [|constructor].
    exact Hcur.
Qed.

Lemma flush_closed st : inv st -> inv (flush st).
Proof. intros [Hwords Hcur]. apply flush_members; auto using open_closedAtEnd. Qed.

Lemma step_closed st token : inv st -> inv (step st token).
Proof.
  intros Hinv. unfold step.
  destruct (rawTextOf token) as [|c0 raw] eqn:Eraw; [exact Hinv|].
  assert (Hclean : trimStart (c0 :: raw) = cleanText token)
    by (unfold cleanText; now rewrite Eraw).
  rewrite Hclean.
  assert (Hadd : forall p x, inv x ->
            inv (if closesWord (cleanText token)
                 then flush (addToCurrent token (cleanText token) p x)
                 else addToCurrent token (cleanText token) p x)).
  { intros p x [Hwords Hcur].
    destruct (closesWord (cleanText token)) eqn:Ecloses.
    - apply flush_members; [exact Hwords|]. cbn [addToCurrent currentTokens].
      now apply snoc_closedAtEnd.
    - split; [exact Hwords|]. cbn [addToCurrent currentTokens].
      apply Forall_app. split; [exact Hcur|]. constructor; [|constructor].
      unfold closes. destruct p; exact Ecloses. }
  destruct (isWhite c0); [apply Hadd, flush_closed, Hinv|].
  destruct (currentTokens st); [now apply Hadd|].
  destruct (_ && forallb _ _); [now apply Hadd|].
  destruct (_ && _); [apply Hadd, flush_closed, Hinv | now apply Hadd].
Qed.

Lemma fold_closed tokens : forall st, inv st -> inv (fold_left step tokens st).
Proof.
  induction tokens as [|t ts IH]; simpl; intros st H; [exact H|].
  apply IH, step_closed, H.
Qed.

End WordsClosedFacts.

(** X25: punctuation ends a word: in every word [tokensToWords] returns,
    a member token whose text ends in a sentence or minor-break mark, or
    is a single CJK character, is the last member of the word. *)
Theorem punctuation_ends_a_word (tokens : list Token) :
  Forall (fun w => closedAtEnd (w_inner w)) (tokensToWords tokens).
Proof.
  assert (H : Forall (fun w => closedAtEnd (w_inner w)) (Words.words (Words.run tokens))).
  { apply WordsClosedFacts.flush_closed, WordsClosedFacts.fold_closed.
    split; constructor. }
  unfold tokensToWords. destruct (Words.words (Words.run tokens)) as [|w0 rest];
    [constructor|].
  destruct (startsWithSpace (w_text w0)); [|exact H].
  inversion H; subst. now constructor.
Qed.
